(** * zeromail: mailbox-hygiene utility (IMAP cleaner and unsubscribe processor)

    A shallow embedding of the parts of the Python sources that the
    specification talks about:

    - [src/unsubscribe_processor.py]: link extraction, validation, cleaning;
    - [src/imap_connection.py]: the session object and folder selection;
    - [src/email_operations.py]: search, metadata, deletion engines.

    Python [str] values are modelled as [string]; one [ascii] stands for one
    code point (the range below 256 is covered).  Calls into [imaplib] are
    modelled as commands sent to an abstract server that answers with a typed
    reply or raises; [logging] calls have no influence on control flow or on
    the server and are left out. *)

From Stdlib Require Import String Ascii List Bool Arith ZArith Lia.
From Stdlib Require Import DecimalString Permutation Sorted.
Import ListNotations.
Open Scope string_scope.
Open Scope list_scope.
Open Scope nat_scope.

(* ------------------------------------------------------------------ *)
(** * Python string primitives *)
(* ------------------------------------------------------------------ *)

Module PyStr.

(** [str.lower] on one code point below 256: A-Z and the Latin-1 capitals
    (U+00C0..U+00DE without the multiplication sign) move up by 32. *)
Definition char_lower (c : ascii) : ascii :=
  let n := nat_of_ascii c in
  if ((65 <=? n) && (n <=? 90))
     || ((192 <=? n) && (n <=? 222) && negb (n =? 215))
  then ascii_of_nat (n + 32) else c.

Fixpoint lower (s : string) : string :=
  match s with
  | EmptyString => EmptyString
  | String c t => String (char_lower c) (lower t)
  end.

(** [s.startswith(p)] *)
Definition startswith (p s : string) : bool := String.prefix p s.

(** [needle in s] *)
Fixpoint contains (needle s : string) : bool :=
  String.prefix needle s
  || match s with
     | EmptyString => false
     | String _ t => contains needle t
     end.

(** [c in s] for a single character *)
Fixpoint has_char (c : ascii) (s : string) : bool :=
  match s with
  | EmptyString => false
  | String d t => Ascii.eqb d c || has_char c t
  end.

(** Python's notion of whitespace for [str.strip()] and for [\s] in a
    [str] pattern, on code points below 256. *)
Definition isspace (c : ascii) : bool :=
  let n := nat_of_ascii c in
  ((9 <=? n) && (n <=? 13)) || ((28 <=? n) && (n <=? 32))
  || (n =? 133) || (n =? 160).

Fixpoint lstrip_by (p : ascii -> bool) (s : string) : string :=
  match s with
  | EmptyString => EmptyString
  | String c t => if p c then lstrip_by p t else s
  end.

Fixpoint rstrip_by (p : ascii -> bool) (s : string) : string :=
  match s with
  | EmptyString => EmptyString
  | String c t =>
      match rstrip_by p t with
      | EmptyString => if p c then EmptyString else String c EmptyString
      | t' => String c t'
      end
  end.

(** [s.rstrip(chars)] *)
Definition rstrip (chars s : string) : string :=
  rstrip_by (fun c => has_char c chars) s.

(** [s.strip()] *)
Definition strip (s : string) : string :=
  rstrip_by isspace (lstrip_by isspace s).

(** [s.split(sep)] for a one-character separator: never empty. *)
Fixpoint split_char (sep : ascii) (s : string) : list string :=
  match s with
  | EmptyString => [EmptyString]
  | String c t =>
      if Ascii.eqb c sep then EmptyString :: split_char sep t
      else match split_char sep t with
           | h :: r => String c h :: r
           | [] => [String c EmptyString]
           end
  end.

(** [s.split(sep, 1)] when [sep in s]: the text before the first separator
    and the text after it; [None] when the separator does not occur. *)
Fixpoint split_once (sep : ascii) (s : string) : option (string * string) :=
  match s with
  | EmptyString => None
  | String c t =>
      if Ascii.eqb c sep then Some (EmptyString, t)
      else match split_once sep t with
           | Some (a, b) => Some (String c a, b)
           | None => None
           end
  end.

(** [sep.join(l)] *)
Fixpoint join (sep : string) (l : list string) : string :=
  match l with
  | [] => EmptyString
  | [x] => x
  | x :: r => (x ++ sep ++ join sep r)%string
  end.

(** [x in l] for a list of strings *)
Definition mem (x : string) (l : list string) : bool :=
  existsb (String.eqb x) l.

End PyStr.

(* ------------------------------------------------------------------ *)
(** * src/unsubscribe_processor.py *)
(* ------------------------------------------------------------------ *)

Module Regex.

(** The fragment of Python's [re] that [unsubscribe_regex] uses: a pattern
    is a sequence of items over character predicates, and the greedy
    quantifiers backtrack as [re] does (longest repetition first, then
    shorter ones, the first overall success wins). *)
Inductive item : Type :=
| One (p : ascii -> bool)     (* a literal or a class, once *)
| Opt (p : ascii -> bool)     (* [x?] *)
| Star (p : ascii -> bool)    (* [x*] *)
| Plus (p : ascii -> bool).   (* [x+] *)

Definition pattern := list item.

(** Greedy repetition of the class [p], followed by the continuation [k];
    the result is the matched text and the text left over. *)
Fixpoint star (p : ascii -> bool) (k : string -> option (string * string))
         (s : string) : option (string * string) :=
  match s with
  | String c t =>
      if p c then
        match star p k t with
        | Some (m, rest) => Some (String c m, rest)
        | None => k s
        end
      else k s
  | EmptyString => k s
  end.

(** [re.match] of the pattern at the start of [s]. *)
Fixpoint match_here (r : pattern) (s : string) : option (string * string) :=
  match r with
  | [] => Some (EmptyString, s)
  | One p :: r' =>
      match s with
      | String c t =>
          if p c then
            match match_here r' t with
            | Some (m, rest) => Some (String c m, rest)
            | None => None
            end
          else None
      | EmptyString => None
      end
  | Opt p :: r' =>
      match s with
      | String c t =>
          if p c then
            match match_here r' t with
            | Some (m, rest) => Some (String c m, rest)
            | None => match_here r' s
            end
          else match_here r' s
      | EmptyString => match_here r' s
      end
  | Star p :: r' => star p (match_here r') s
  | Plus p :: r' =>
      match s with
      | String c t =>
          if p c then
            match star p (match_here r') t with
            | Some (m, rest) => Some (String c m, rest)
            | None => None
            end
          else None
      | EmptyString => None
      end
  end.

(** [re.findall] for a pattern without groups: scan left to right, keep
    each match, resume after it ([skip] counts the characters of the last
    match that are still to be passed over). *)
Fixpoint findall_aux (r : pattern) (s : string) (skip : nat) : list string :=
  match s with
  | EmptyString =>
      match skip, match_here r s with
      | 0, Some (m, _) => [m]
      | _, _ => []
      end
  | String _ t =>
      match skip with
      | S k => findall_aux r t k
      | 0 =>
          match match_here r s with
          | Some (m, _) => m :: findall_aux r t (String.length m - 1)
          | None => findall_aux r t 0
          end
      end
  end.

Definition findall (r : pattern) (s : string) : list string :=
  findall_aux r s 0.

(** A literal character under [re.IGNORECASE]. *)
Definition lit_i (x : ascii) : ascii -> bool :=
  fun c => Ascii.eqb (PyStr.char_lower c) (PyStr.char_lower x).

Fixpoint lits_i (s : string) : pattern :=
  match s with
  | EmptyString => []
  | String x t => One (lit_i x) :: lits_i t
  end.

End Regex.

Module Unsubscribe.
Import PyStr.

(** The character class of the pattern: anything but whitespace, the two
    angle brackets and the double quote (code point 34). *)
Definition url_char (c : ascii) : bool :=
  negb (isspace c
        || Ascii.eqb c "<"%char || Ascii.eqb c ">"%char
        || Ascii.eqb c (ascii_of_nat 34)).

(** [self.unsubscribe_regex]: the literal http, an optional s, the literal
    ://, one or more class characters, the literal unsubscribe, any number
    of class characters; used with [re.IGNORECASE]. *)
Definition unsubscribe_regex : Regex.pattern :=
  Regex.lits_i "http" ++ [Regex.Opt (Regex.lit_i "s"%char)]
  ++ Regex.lits_i "://" ++ [Regex.Plus url_char]
  ++ Regex.lits_i "unsubscribe" ++ [Regex.Star url_char].

Definition suspicious_patterns : list string :=
  ["javascript:"; "data:"; "file:"; "ftp:"].

(** [is_valid_unsubscribe_url] *)
Definition is_valid_unsubscribe_url (url : string) : bool :=
  if String.eqb url "" || (String.length url <? 10) then false
  else if negb (startswith "http://" (lower url)
                || startswith "https://" (lower url)) then false
  else if negb (contains "unsubscribe" (lower url)) then false
  else if existsb (fun pattern => contains pattern (lower url))
                  suspicious_patterns then false
  else true.

(** The loop of [extract_unsubscribe_links]: [unique_links] is the list
    built so far; [seen_links] holds the same strings, so one list serves
    for both. *)
Fixpoint extract_loop (matches unique_links : list string) : list string :=
  match matches with
  | [] => unique_links
  | m :: rest =>
      let cleaned_url := rstrip ".,;!?)" m in
      if is_valid_unsubscribe_url cleaned_url && negb (mem cleaned_url unique_links)
      then extract_loop rest (unique_links ++ [cleaned_url])
      else extract_loop rest unique_links
  end.

(** [extract_unsubscribe_links] *)
Definition extract_unsubscribe_links (email_content : string) : list string :=
  if String.eqb email_content "" then []
  else extract_loop (Regex.findall unsubscribe_regex email_content) [].

Definition tracking_params : list string :=
  ["utm_source"; "utm_medium"; "utm_campaign"; "utm_content"; "utm_term"].

(** [param.split('=')[0]] *)
Definition param_name (param : string) : string :=
  hd EmptyString (split_char "="%char param).

(** The inner loop of [validate_and_clean_links] over [param_pairs]. *)
Fixpoint filter_params (param_pairs : list string) : list string :=
  match param_pairs with
  | [] => []
  | param :: rest =>
      if has_char "="%char param then
        if negb (mem (param_name param) tracking_params)
        then param :: filter_params rest
        else filter_params rest
      else filter_params rest
  end.

(** The body of [validate_and_clean_links] for one link that passed
    validation. *)
Definition clean_link (link : string) : string :=
  let cleaned_link := strip link in
  match split_once "?"%char cleaned_link with
  | Some (base_url, params) =>
      let filtered_params := filter_params (split_char "&"%char params) in
      match filtered_params with
      | [] => base_url
      | _ => (base_url ++ "?" ++ join "&" filtered_params)%string
      end
  | None => cleaned_link
  end.

(** [validate_and_clean_links] *)
Fixpoint validate_and_clean_links (links : list string) : list string :=
  match links with
  | [] => []
  | link :: rest =>
      if is_valid_unsubscribe_url link
      then clean_link link :: validate_and_clean_links rest
      else validate_and_clean_links rest
  end.

End Unsubscribe.

(** The HTTP side of the processor: [send_unsubscribe_request] and
    [send_unsubscribe_requests_batch]. *)
Module Http.
Import PyStr.

(** An exception raised by [requests.get], as the [except] clauses see it:
    the classes of [requests.exceptions] it is an instance of, and its text
    [str(e)]. *)
Record RequestError : Type := mkRequestError {
  is_Timeout : bool;
  is_ConnectionError : bool;
  is_SSLError : bool;
  is_RequestException : bool;
  str : string
}.

(** [requests.get] returns a response, of which the program reads the
    status code, or raises; [response_time] is the rounded difference of
    the two clock readings taken around the call, in hundredths of a
    second. *)
Inductive Outcome : Type :=
| Response (status_code response_time : nat)
| Raises (e : RequestError).

(** The world outside: the web, reached with a URL and a timeout, and the
    clock that [time.sleep] lets run. *)
Class Web (W : Type) : Type := {
  requests_get : string -> nat -> W -> Outcome * W;
  time_sleep : nat -> W -> W
}.

Inductive Action : Type :=
| Get (url : string)
| Sleep (seconds : nat).

(** The dictionary that [send_unsubscribe_request] returns. *)
Record Result : Type := mkResult {
  url : string;
  success : bool;
  status_code : option nat;
  error : option string;
  response_time : option nat
}.

(** The dictionary that [send_unsubscribe_requests_batch] returns;
    [errors] keeps its keys in the order of insertion. *)
Record Batch : Type := mkBatch {
  total_requests : nat;
  successful_requests : nat;
  failed_requests : nat;
  request_details : list Result;
  errors : list (string * nat)
}.

Definition decimal (n : nat) : string :=
  NilEmpty.string_of_uint (Nat.to_uint n).

(** The [except] clauses, in their order. *)
Definition error_text (e : RequestError) : string :=
  if is_Timeout e then "Request timeout"
  else if is_ConnectionError e then "Connection error"
  else if is_SSLError e then "SSL error"
  else if is_RequestException e then str e
  else ("Unexpected error: " ++ str e)%string.

(** [if error_type not in errors: errors[error_type] = 0] followed by
    [errors[error_type] += 1]. *)
Fixpoint errors_add (error_type : string) (errors : list (string * nat))
  : list (string * nat) :=
  match errors with
  | [] => [(error_type, 1)]
  | (k, n) :: rest =>
      if String.eqb k error_type then (k, n + 1) :: rest
      else (k, n) :: errors_add error_type rest
  end.

(** [request_result['error'] or 'Unknown error'] *)
Definition error_type_of (request_result : Result) : string :=
  match error request_result with
  | Some e => if String.eqb e "" then "Unknown error" else e
  | None => "Unknown error"
  end.

(** The bookkeeping of one pass through the loop of the batch. *)
Definition record_result (request_result : Result) (results : Batch) : Batch :=
  let details := request_details results ++ [request_result] in
  if success request_result then
    mkBatch (total_requests results) (successful_requests results + 1)
            (failed_requests results) details (errors results)
  else
    mkBatch (total_requests results) (successful_requests results)
            (failed_requests results + 1) details
            (errors_add (error_type_of request_result) (errors results)).

Section Processor.
Context {W : Type} `{Web W}.
Variable request_delay : nat.   (* [self.request_delay] *)
Variable http_timeout : nat.    (* [self.http_timeout] *)

(** [send_unsubscribe_request] *)
Definition send_unsubscribe_request (url : string) (w : W) : Result * W :=
  match requests_get url http_timeout w with
  | (Response code seconds, w') =>
      if (200 <=? code) && (code <? 400)
      then (mkResult url true (Some code) None (Some seconds), w')
      else (mkResult url false (Some code)
                     (Some ("HTTP " ++ decimal code)%string) (Some seconds),
            w')
  | (Raises e, w') =>
      (mkResult url false None (Some (error_text e)) None, w')
  end.

(** [for i, url in enumerate(urls, 1)] with [len(urls)] as [n]; the
    result carries the requests and the pauses in the order they were
    made. *)
Fixpoint batch_loop (n i : nat) (urls : list string) (results : Batch) (w : W)
  : Batch * W * list Action :=
  match urls with
  | [] => (results, w, [])
  | url :: rest =>
      let '(request_result, w1) := send_unsubscribe_request url w in
      let results1 := record_result request_result results in
      let '(w2, pause) :=
        if i <? n then (time_sleep request_delay w1, [Sleep request_delay])
        else (w1, []) in
      let '(results2, w3, more) := batch_loop n (i + 1) rest results1 w2 in
      (results2, w3, Get url :: pause ++ more)
  end.

(** [send_unsubscribe_requests_batch] *)
Definition send_unsubscribe_requests_batch (urls : list string) (w : W)
  : Batch * W * list Action :=
  let results := mkBatch (List.length urls) 0 0 [] [] in
  match urls with
  | [] => (results, w, [])
  | _ :: _ => batch_loop (List.length urls) 1 urls results w
  end.

End Processor.
End Http.

(* ------------------------------------------------------------------ *)
(** * The mail server as seen through imaplib *)
(* ------------------------------------------------------------------ *)

Module Imap.
Import PyStr.

(** The [imaplib] calls the program makes on a connection object. *)
Inductive Command : Type :=
| IMAP4_SSL                                  (* the constructor call *)
| Login
| Select (mailbox : string)
| Noop
| Close
| Logout
| ListFolders                                (* [connection.list()] *)
| Search (criteria : string)
| Fetch (message_set message_parts : string)
| Store (message_set command flags : string)
| Expunge.

(** What the program reads of a reply's data. *)
Inductive Data : Type :=
| DNone
| DExists (count : option nat)
    (* select: [data[0]]; [None] when [int(data[0])] would raise *)
| DIds (ids : list string)
    (* search: [data[0].split()], decoded; empty for an empty line *)
| DNames (names : list string)
    (* list: the folder name that [list_folders] parses out of each line *)
| DHeader (subject sender date : option string).
    (* fetch of the header section: the three header fields, when present *)

(** A call returns the pair [(typ, data)] or raises; [imap_error] tells
    [imaplib.IMAP4.error] from any other exception. *)
Inductive Reply : Type :=
| Returned (typ : string) (data : Data)
| Raised (imap_error : bool).

Record Event : Type := mkEvent {
  ev_conn : nat;                 (* which connection object was used *)
  ev_cmd : Command;
  ev_reply : Reply
}.

(** Everything outside the program: the server reached through imaplib
    (it sees which connection object a call is made on), and the library
    functions of [email] and [datetime] the program calls. *)
Class Env (Srv : Type) : Type := {
  imap : nat -> Command -> Srv -> Reply * Srv;
  (* [''.join(... for part in decode_header(subject))]; [None]: it raises *)
  decode_subject : string -> option string;
  (* [email.utils.parsedate_tz]; [None]: the string cannot be parsed *)
  parsedate_tz : string -> option (list Z);
  (* [datetime.fromtimestamp(mktime_tz(t))]; [None]: it raises *)
  fromtimestamp_mktime_tz : list Z -> option Z;
  (* [datetime.strptime(s, "%d-%b-%Y")]; [None]: ValueError *)
  strptime_dmy : string -> option Z;
  (* [date.strftime("%d-%b-%Y")] *)
  strftime_dmy : Z -> string
}.

(** The two Python objects that carry state: [GmailIMAPConnection]
    ([connection]) and [EmailOperations] ([operation_summary]), next to the
    server they talk to. *)
Record Core (Srv : Type) : Type := mkCore {
  connection : option nat;   (* [self.connection]: [None] or an object *)
  created : nat;             (* connection objects constructed so far *)
  server : Srv;
  emails_deleted : nat       (* [operation_summary['emails_deleted']] *)
}.
Arguments mkCore {Srv}.
Arguments connection {Srv}.
Arguments created {Srv}.
Arguments server {Srv}.
Arguments emails_deleted {Srv}.

Section Program.
Context {Srv : Type} `{E : Env Srv}.

(** A method: it reads and changes the state and emits the calls it made. *)
Definition M (A : Type) : Type := Core Srv -> A * Core Srv * list Event.

Definition ret {A : Type} (a : A) : M A := fun c => (a, c, []).

Definition bind {A B : Type} (m : M A) (k : A -> M B) : M B :=
  fun c =>
    let '(a, c1, e1) := m c in
    let '(b, c2, e2) := k a c1 in
    (b, c2, e1 ++ e2).

Notation "x <- m ;; k" := (bind m (fun x => k))
  (at level 61, m at next level, right associativity).
Notation "m ;;; k" := (bind m (fun _ => k))
  (at level 61, right associativity).

(** One imaplib call on the connection object [h]. *)
Definition call (h : nat) (cmd : Command) : M Reply :=
  fun c =>
    let '(r, s) := imap h cmd (server c) in
    (r,
     mkCore (connection c) (created c) s (emails_deleted c),
     [mkEvent h cmd r]).

(** A call on [self.connection]; on [None] the attribute access raises. *)
Definition call_self (cmd : Command) : M Reply :=
  fun c =>
    match connection c with
    | Some h => call h cmd c
    | None => (Raised false, c, [])
    end.

Definition get_self_connection : M (option nat) :=
  fun c => (connection c, c, []).

Definition set_self_connection (h : option nat) : M unit :=
  fun c => (tt, mkCore h (created c) (server c) (emails_deleted c), []).

Definition new_object : M nat :=
  fun c => (S (created c),
            mkCore (connection c) (S (created c)) (server c) (emails_deleted c),
            []).

Definition set_emails_deleted (n : nat) : M unit :=
  fun c => (tt, mkCore (connection c) (created c) (server c) n, []).

Definition is_OK (typ : string) : bool := String.eqb typ "OK".

(** [result[0] == 'OK'] followed by [int(result[1][0])] not raising. *)
Definition selected_ok (r : Reply) : bool :=
  match r with
  | Returned typ (DExists (Some _)) => is_OK typ
  | _ => false
  end.

(** ** src/imap_connection.py *)

(** [connect] *)
Definition connect : M bool :=
  h <- new_object ;;
  r <- call h IMAP4_SSL ;;
  match r with
  | Raised _ => ret false
  | Returned _ _ =>
      set_self_connection (Some h) ;;;
      r <- call h Login ;;
      match r with
      | Raised _ => ret false
      | Returned typ _ =>
          if is_OK typ then
            r <- call h (Select "INBOX") ;;
            ret (selected_ok r)
          else ret false
      end
  end.

(** [disconnect] *)
Definition disconnect : M bool :=
  conn <- get_self_connection ;;
  match conn with
  | None => ret true
  | Some h =>
      r <- call h Close ;;
      match r with
      | Raised false => ret false
      | _ =>
          r <- call h Logout ;;
          match r with
          | Raised _ => ret false
          | Returned _ _ => set_self_connection None ;;; ret true
          end
      end
  end.

(** [ensure_connection] *)
Definition ensure_connection : M bool :=
  conn <- get_self_connection ;;
  match conn with
  | None => connect
  | Some h =>
      r <- call h Noop ;;
      match r with
      | Returned typ _ =>
          if is_OK typ then ret true else disconnect ;;; connect
      | Raised _ => disconnect ;;; connect
      end
  end.

(** [get_connection] *)
Definition get_connection : M (option nat) :=
  ok <- ensure_connection ;;
  if ok then get_self_connection else ret None.

Definition dquote : string := String (ascii_of_nat 34) EmptyString.
Definition quoted (s : string) : string := (dquote ++ s ++ dquote)%string.

(** The dictionary [folder_variations] of [select_folder], read with
    [.get(folder_name, [])]. *)
Definition folder_variations_table : list (string * list string) :=
  [ ("[Gmail]/All Mail",
     ["[Google Mail]/All Mail"; quoted "[Gmail]/All Mail"; "All Mail"]);
    ("[Gmail]/Trash",
     ["[Google Mail]/Bin"; "[Gmail]/Bin"; quoted "[Gmail]/Trash"; "Trash"]);
    ("[Gmail]/Spam",
     ["[Google Mail]/Spam"; quoted "[Gmail]/Spam"; "Spam"]);
    ("[Gmail]/Sent Mail",
     ["[Google Mail]/Sent Mail"; quoted "[Gmail]/Sent Mail"; "Sent"]);
    ("[Gmail]/Drafts",
     ["[Google Mail]/Drafts"; quoted "[Gmail]/Drafts"; "Drafts"]) ].

Fixpoint dict_get (d : list (string * list string)) (k : string)
  : list string :=
  match d with
  | [] => []
  | (k', v) :: r => if String.eqb k' k then v else dict_get r k
  end.

Definition folder_variations (folder_name : string) : list string :=
  dict_get folder_variations_table folder_name.

(** One [try] block of [select_folder]: select, test for OK, read the
    count; any exception is logged and counts as a failed attempt. *)
Definition try_select (name : string) : M bool :=
  r <- call_self (Select name) ;;
  ret (selected_ok r).

Fixpoint try_variations (variations_to_try : list string) : M bool :=
  match variations_to_try with
  | [] => ret false
  | variation :: rest =>
      ok <- try_select variation ;;
      if ok then ret true else try_variations rest
  end.

(** [select_folder] *)
Definition select_folder (folder_name : string) : M bool :=
  alive <- ensure_connection ;;
  if alive then
    ok <- try_select folder_name ;;
    if ok then ret true
    else try_variations (folder_variations folder_name)
  else ret false.

(** [sort_key] of [list_folders], compared as Python compares tuples. *)
Definition is_gmail_prefixed (folder : string) : bool :=
  startswith "[Gmail]" folder || startswith "[Google Mail]" folder.

Definition sort_group (folder : string) : nat :=
  if String.eqb folder "INBOX" then 0
  else if is_gmail_prefixed folder then 1 else 2.

Definition sort_key_le (a b : string) : bool :=
  (sort_group a <? sort_group b)
  || ((sort_group a =? sort_group b) && String.leb a b).

Fixpoint insert_sorted (x : string) (l : list string) : list string :=
  match l with
  | [] => [x]
  | y :: r => if sort_key_le x y then x :: l else y :: insert_sorted x r
  end.

(** [folder_list.sort(key=sort_key)] *)
Definition sort_folders (l : list string) : list string :=
  fold_right insert_sorted [] l.

(** [list_folders] *)
Definition list_folders : M (list string) :=
  alive <- ensure_connection ;;
  if alive then
    r <- call_self ListFolders ;;
    match r with
    | Returned typ (DNames folder_list) =>
        if is_OK typ then ret (sort_folders folder_list) else ret []
    | Returned typ _ => ret []
    | Raised _ => ret []
    end
  else ret [].

(** ** src/email_operations.py *)

(** [parse_email_date]: every exception of the [try] block gives [None]. *)
Definition parse_email_date (date_string : string) : option Z :=
  if String.eqb date_string "" then None
  else match parsedate_tz date_string with
       | Some parsed_date => fromtimestamp_mktime_tz parsed_date
       | None => None
       end.

(** [parse_cutoff_date] *)
Definition parse_cutoff_date (cutoff_date_str : string) : option Z :=
  strptime_dmy cutoff_date_str.

(** [format_date_for_imap_search] *)
Definition format_date_for_imap_search (date_obj : option Z) : option string :=
  match date_obj with
  | None => None
  | Some d => Some (strftime_dmy d)
  end.

(** [search_old_emails]; an empty [folder_name] is falsy, as [None] is. *)
Definition search_old_emails (cutoff_date_str folder_name : string)
  : M (list string) :=
  conn <- get_connection ;;
  match conn with
  | None => ret []
  | Some connection =>
      selected <- (if String.eqb folder_name "" then ret true
                   else select_folder folder_name) ;;
      if selected then
        match format_date_for_imap_search (parse_cutoff_date cutoff_date_str) with
        | None => ret []
        | Some search_date =>
            r <- call connection (Search ("BEFORE " ++ search_date)) ;;
            match r with
            | Returned typ (DIds id_list) =>
                if is_OK typ then ret id_list else ret []
            | _ => ret []
            end
        end
      else ret []
  end.

(** [search_old_emails_multiple_folders]: pairs [(email_id, folder)]. *)
Fixpoint search_old_emails_multiple_folders
         (cutoff_date_str : string) (folders : list string)
  : M (list (string * string)) :=
  match folders with
  | [] => ret []
  | folder :: rest =>
      folder_ids <- search_old_emails cutoff_date_str folder ;;
      more <- search_old_emails_multiple_folders cutoff_date_str rest ;;
      ret (map (fun email_id => (email_id, folder)) folder_ids ++ more)
  end.

Record Metadata : Type := mkMetadata {
  md_id : string;
  md_subject : string;
  md_from : string;
  md_date : option Z;
  md_date_str : string
}.

Definition default (d : string) (o : option string) : string :=
  match o with
  | Some s => s
  | None => d
  end.

(** [subject[:100] + '...' if len(subject) > 100 else subject] *)
Definition display_subject (subject : string) : string :=
  if 100 <? String.length subject
  then (String.substring 0 100 subject ++ "...")%string
  else subject.

(** The subject header, decoded: the default when the header is absent,
    no decoding of an empty subject; [None] when the decoding raises. *)
Definition decoded_subject (subject : option string) : option string :=
  let subject := default "No Subject" subject in
  if String.eqb subject "" then Some subject else decode_subject subject.

(** The part of [get_email_metadata] after the fetch; an exception leaves
    the [try] block with [None]. *)
Definition metadata_of (email_id : string) (subject sender date : option string)
  : option Metadata :=
  let date_str := default "" date in
  match decoded_subject subject with
  | None => None
  | Some subject =>
      Some (mkMetadata email_id (display_subject subject)
                       (default "Unknown Sender" sender)
                       (parse_email_date date_str) date_str)
  end.

(** [get_email_metadata] *)
Definition get_email_metadata (email_id : string) : M (option Metadata) :=
  conn <- get_connection ;;
  match conn with
  | None => ret None
  | Some connection =>
      r <- call connection (Fetch email_id "(RFC822.HEADER)") ;;
      match r with
      | Returned typ (DHeader subject sender date) =>
          if is_OK typ then ret (metadata_of email_id subject sender date)
          else ret None
      | _ => ret None
      end
  end.

Definition store_deleted (email_ids : list string) : Command :=
  Store (join "," email_ids) "+FLAGS" "\Deleted".

(** [delete_emails_bulk] *)
Definition delete_emails_bulk (email_ids : list string) : M nat :=
  conn <- get_connection ;;
  match conn with
  | None => ret 0
  | Some connection =>
      match email_ids with
      | [] => ret 0
      | _ :: _ =>
          r <- call connection (store_deleted email_ids) ;;
          match r with
          | Returned typ _ =>
              if is_OK typ then ret (List.length email_ids) else ret 0
          | Raised _ => ret 0
          end
      end
  end.

(** [expunge_deleted_emails] *)
Definition expunge_deleted_emails : M bool :=
  conn <- get_connection ;;
  match conn with
  | None => ret false
  | Some connection =>
      r <- call connection Expunge ;;
      match r with
      | Returned typ _ => ret (is_OK typ)
      | Raised _ => ret false
      end
  end.

(** [is_gmail_all_mail_folder] *)
Definition gmail_all_mail_variations : list string :=
  [ "[Gmail]/All Mail"; "[Google Mail]/All Mail";
    quoted "[Gmail]/All Mail"; quoted "[Google Mail]/All Mail";
    "All Mail" ].

Definition is_gmail_all_mail_folder (folder_name : string) : bool :=
  mem folder_name gmail_all_mail_variations.

(** [handle_gmail_all_mail_deletion] *)
Definition handle_gmail_all_mail_deletion (email_ids : list string) : M nat :=
  conn <- get_connection ;;
  match conn with
  | None => ret 0
  | Some connection =>
      match email_ids with
      | [] => ret 0
      | _ :: _ =>
          delete_result <- call connection (store_deleted email_ids) ;;
          match delete_result with
          | Raised _ => ret 0
          | Returned typ _ =>
              if is_OK typ then
                all_result <- call connection
                                (Store (join "," email_ids) "-X-GM-LABELS" "\All") ;;
                match all_result with
                | Raised false => ret 0
                | _ =>
                    expunge_result <- call connection Expunge ;;
                    match expunge_result with
                    | Returned typ _ =>
                        if is_OK typ then ret (List.length email_ids) else ret 0
                    | Raised _ => ret 0
                    end
                end
              else ret 0
          end
      end
  end.

Definition gmail_source_patterns : list string :=
  [ "[Gmail]/Sent Mail"; "[Google Mail]/Sent Mail";
    "[Gmail]/Drafts"; "[Google Mail]/Drafts";
    "[Gmail]/Spam"; "[Google Mail]/Spam" ].

(** The three steps of [get_gmail_source_folders] on the listed folders. *)
Definition add_inbox (all_folders : list string) : list string :=
  if mem "INBOX" all_folders then ["INBOX"] else [].

Fixpoint add_patterns (patterns all_folders source_folders : list string)
  : list string :=
  match patterns with
  | [] => source_folders
  | pattern :: rest =>
      if mem pattern all_folders
      then add_patterns rest all_folders (source_folders ++ [pattern])
      else add_patterns rest all_folders source_folders
  end.

Fixpoint add_custom (folders source_folders : list string) : list string :=
  match folders with
  | [] => source_folders
  | folder :: rest =>
      if negb (startswith "[Gmail]" folder)
         && negb (startswith "[Google Mail]" folder)
         && negb (String.eqb folder "INBOX")
         && negb (mem folder source_folders)
      then add_custom rest (source_folders ++ [folder])
      else add_custom rest source_folders
  end.

Definition source_folders_of (all_folders : list string) : list string :=
  add_custom all_folders
    (add_patterns gmail_source_patterns all_folders (add_inbox all_folders)).

(** [get_gmail_source_folders]; [list_folders] catches what it raises, so
    the fallback of the [except] branch is never taken here. *)
Definition get_gmail_source_folders : M (list string) :=
  all_folders <- list_folders ;;
  ret (source_folders_of all_folders).

(** The insertion-ordered dictionary [folder_groups]. *)
Fixpoint group_add (folder email_id : string)
         (folder_groups : list (string * list string))
  : list (string * list string) :=
  match folder_groups with
  | [] => [(folder, [email_id])]
  | (f, ids) :: rest =>
      if String.eqb f folder then (f, ids ++ [email_id]) :: rest
      else (f, ids) :: group_add folder email_id rest
  end.

Definition group_by_folder (email_folder_pairs : list (string * string))
  : list (string * list string) :=
  fold_left (fun groups p => group_add (snd p) (fst p) groups)
            email_folder_pairs [].

(** [if deleted_count > 0: ... self.expunge_deleted_emails()] *)
Definition expunge_if_any (deleted_count : nat) : M unit :=
  if 0 <? deleted_count then expunge_deleted_emails ;;; ret tt else ret tt.

Fixpoint true_gmail_loop (folder_groups : list (string * list string))
         (total_deleted : nat) : M nat :=
  match folder_groups with
  | [] => ret total_deleted
  | (folder, email_ids) :: rest =>
      ok <- select_folder folder ;;
      if ok then
        deleted_count <- delete_emails_bulk email_ids ;;
        expunge_if_any deleted_count ;;;
        true_gmail_loop rest (total_deleted + deleted_count)
      else true_gmail_loop rest total_deleted
  end.

(** [delete_old_emails_true_gmail] *)
Definition delete_old_emails_true_gmail (cutoff_date_str : string) : M nat :=
  source_folders <- get_gmail_source_folders ;;
  email_folder_pairs <-
    search_old_emails_multiple_folders cutoff_date_str source_folders ;;
  match email_folder_pairs with
  | [] => ret 0
  | _ :: _ =>
      total_deleted <- true_gmail_loop (group_by_folder email_folder_pairs) 0 ;;
      set_emails_deleted total_deleted ;;;
      ret total_deleted
  end.

(** The search phase shared by the two deletion workflows. *)
Definition find_old_emails (cutoff_date_str : string) (folders : list string)
  : M (list (string * string)) :=
  match folders with
  | [folder] =>
      old_email_ids <- search_old_emails cutoff_date_str folder ;;
      ret (map (fun email_id => (email_id, folder)) old_email_ids)
  | _ => search_old_emails_multiple_folders cutoff_date_str folders
  end.

Fixpoint fast_loop (folder_groups : list (string * list string))
         (total_deleted : nat) : M nat :=
  match folder_groups with
  | [] => ret total_deleted
  | (folder, email_ids) :: rest =>
      ok <- select_folder folder ;;
      if ok then
        if is_gmail_all_mail_folder folder then
          deleted_count <- handle_gmail_all_mail_deletion email_ids ;;
          fast_loop rest (total_deleted + deleted_count)
        else
          deleted_count <- delete_emails_bulk email_ids ;;
          expunge_if_any deleted_count ;;;
          fast_loop rest (total_deleted + deleted_count)
      else fast_loop rest total_deleted
  end.

(** [len(folders) == 1 and self.is_gmail_all_mail_folder(folders[0])] *)
Definition only_all_mail (folders : list string) : bool :=
  match folders with
  | [folder] => is_gmail_all_mail_folder folder
  | _ => false
  end.

(** [delete_old_emails_fast] *)
Definition delete_old_emails_fast (cutoff_date_str : string)
           (folders : list string) : M nat :=
  if only_all_mail folders
  then delete_old_emails_true_gmail cutoff_date_str
  else
    email_folder_pairs <- find_old_emails cutoff_date_str folders ;;
    match email_folder_pairs with
    | [] => ret 0
    | _ :: _ =>
        total_deleted <- fast_loop (group_by_folder email_folder_pairs) 0 ;;
        set_emails_deleted total_deleted ;;;
        ret total_deleted
    end.

(** [for i in range(0, len(email_ids), batch_size):
       batch = email_ids[i:i + batch_size]], for a positive [batch_size]
    (batch sizes are natural numbers here; the configuration refuses a
    size that is not positive). *)
Fixpoint batches (fuel batch_size : nat) (email_ids : list string)
  : list (list string) :=
  match fuel, email_ids with
  | S fuel', _ :: _ =>
      firstn batch_size email_ids
      :: batches fuel' batch_size (skipn batch_size email_ids)
  | _, _ => []
  end.

Fixpoint delete_batches (bs : list (list string)) (folder_deleted : nat)
  : M nat :=
  match bs with
  | [] => ret folder_deleted
  | batch :: rest =>
      batch_deleted <- delete_emails_bulk batch ;;
      delete_batches rest (folder_deleted + batch_deleted)
  end.

(** The preview: [get_email_metadata] on [email_ids[:3]]; the metadata
    only go to the log. *)
Fixpoint preview (email_ids : list string) : M unit :=
  match email_ids with
  | [] => ret tt
  | email_id :: rest => get_email_metadata email_id ;;; preview rest
  end.

(** The loop of [delete_old_emails_with_logging]; [None] stands for the
    ZeroDivisionError that a [batch_size] of zero raises when the number of
    batches is computed. *)
Fixpoint logging_loop (cutoff_date_str : string) (batch_size : nat)
         (folder_groups : list (string * list string)) (total_deleted : nat)
  : M (option nat) :=
  match folder_groups with
  | [] => ret (Some total_deleted)
  | (folder, email_ids) :: rest =>
      ok <- select_folder folder ;;
      if ok then
        preview (firstn 3 email_ids) ;;;
        if is_gmail_all_mail_folder folder then
          folder_deleted <- delete_old_emails_true_gmail cutoff_date_str ;;
          logging_loop cutoff_date_str batch_size rest
                       (total_deleted + folder_deleted)
        else if batch_size =? 0 then ret None
        else
          folder_deleted <-
            delete_batches
              (batches (List.length email_ids) batch_size email_ids) 0 ;;
          expunge_if_any folder_deleted ;;;
          logging_loop cutoff_date_str batch_size rest
                       (total_deleted + folder_deleted)
      else logging_loop cutoff_date_str batch_size rest total_deleted
  end.

(** [delete_old_emails_with_logging] *)
Definition delete_old_emails_with_logging (cutoff_date_str : string)
           (folders : list string) (batch_size : nat) : M (option nat) :=
  email_folder_pairs <- find_old_emails cutoff_date_str folders ;;
  match email_folder_pairs with
  | [] => ret (Some 0)
  | _ :: _ =>
      r <- logging_loop cutoff_date_str batch_size
                        (group_by_folder email_folder_pairs) 0 ;;
      match r with
      | None => ret None
      | Some total_deleted =>
          set_emails_deleted total_deleted ;;;
          ret (Some total_deleted)
      end
  end.

(** [delete_email] *)
Definition delete_email (email_id : string) : M bool :=
  conn <- get_connection ;;
  match conn with
  | None => ret false
  | Some connection =>
      r <- call connection (Store email_id "+FLAGS" "\Deleted") ;;
      match r with
      | Returned typ _ => ret (is_OK typ)
      | Raised _ => ret false
      end
  end.

(** [all_ids.update(...)]: the identifiers not yet in the set are added.
    Python leaves open in which order [list(all_ids)] lists a set; here
    it is the order of insertion, and what is proved about the result
    does not depend on the order. *)
Fixpoint set_update (ids all_ids : list string) : list string :=
  match ids with
  | [] => all_ids
  | id :: rest =>
      set_update rest (if mem id all_ids then all_ids else all_ids ++ [id])
  end.

(** [search_unsubscribe_emails]; imaplib sends the two criteria of each
    search joined by a space.  Both searches are made before either reply
    is looked at. *)
Definition search_unsubscribe_emails : M (list string) :=
  conn <- get_connection ;;
  match conn with
  | None => ret []
  | Some connection =>
      r1 <- call connection (Search "SUBJECT unsubscribe") ;;
      match r1 with
      | Raised _ => ret []
      | Returned result1 subject_ids =>
          r2 <- call connection (Search "BODY unsubscribe") ;;
          match r2 with
          | Raised _ => ret []
          | Returned result2 body_ids =>
              if negb (is_OK result1) || negb (is_OK result2) then ret []
              else
                match subject_ids, body_ids with
                | DIds subject_list, DIds body_list =>
                    ret (set_update body_list (set_update subject_list []))
                | _, _ => ret []
                end
          end
      end
  end.

End Program.
End Imap.

(* ------------------------------------------------------------------ *)
(** * A concrete server for running the program *)
(* ------------------------------------------------------------------ *)

Module Mock.
Import PyStr Imap.

(** A small mail store in the manner of the mock connections of the
    repository's test scripts: named mailboxes of messages, one selected
    mailbox.  [m_old] says whether the message's internal date lies before
    the cutoff day of the scenario at hand; messages are addressed by their
    sequence number, written in decimal. *)
Record Message : Type := mkMessage {
  m_old : bool;
  m_deleted : bool
}.

Record Server : Type := mkServer {
  mailboxes : list (string * list Message);
  selected : option string
}.

Fixpoint lookup (name : string) (boxes : list (string * list Message))
  : option (list Message) :=
  match boxes with
  | [] => None
  | (n, msgs) :: rest => if String.eqb n name then Some msgs else lookup name rest
  end.

Fixpoint update (name : string) (msgs : list Message)
         (boxes : list (string * list Message)) : list (string * list Message) :=
  match boxes with
  | [] => []
  | (n, old) :: rest =>
      if String.eqb n name then (n, msgs) :: rest
      else (n, old) :: update name msgs rest
  end.

Definition number (n : nat) : string :=
  NilEmpty.string_of_uint (Nat.to_uint n).

Definition parse_number (s : string) : option nat :=
  option_map Nat.of_uint (NilEmpty.uint_of_string s).

(** The sequence numbers of the messages that satisfy [p], counted from
    [first]. *)
Fixpoint numbers_where (p : Message -> bool) (first : nat) (msgs : list Message)
  : list string :=
  match msgs with
  | [] => []
  | m :: rest =>
      if p m then number first :: numbers_where p (S first) rest
      else numbers_where p (S first) rest
  end.

Definition in_set (message_set : string) (n : nat) : bool :=
  existsb (fun part => match parse_number part with
                       | Some k => k =? n
                       | None => false
                       end)
          (split_char ","%char message_set).

Fixpoint flag_deleted (message_set : string) (first : nat) (msgs : list Message)
  : list Message :=
  match msgs with
  | [] => []
  | m :: rest =>
      (if in_set message_set first then mkMessage (m_old m) true else m)
      :: flag_deleted message_set (S first) rest
  end.

Definition expunge (msgs : list Message) : list Message :=
  filter (fun m => negb (m_deleted m)) msgs.

Definition selected_messages (s : Server) : option (string * list Message) :=
  match selected s with
  | Some name =>
      match lookup name (mailboxes s) with
      | Some msgs => Some (name, msgs)
      | None => None
      end
  | None => None
  end.

(** The server's answer to one command.  It pays no attention to the
    connection object a command arrives on. *)
Definition respond (cmd : Command) (s : Server) : Reply * Server :=
  match cmd with
  | IMAP4_SSL => (Returned "OK" DNone, mkServer (mailboxes s) None)
  | Login => (Returned "OK" DNone, s)
  | Noop => (Returned "OK" DNone, s)
  | Select name =>
      match lookup name (mailboxes s) with
      | Some msgs =>
          (Returned "OK" (DExists (Some (List.length msgs))),
           mkServer (mailboxes s) (Some name))
      | None => (Returned "NO" DNone, mkServer (mailboxes s) None)
      end
  | Close => (Returned "OK" DNone, mkServer (mailboxes s) None)
  | Logout => (Returned "BYE" DNone, mkServer (mailboxes s) None)
  | ListFolders => (Returned "OK" (DNames (map fst (mailboxes s))), s)
  | Search _ =>
      match selected_messages s with
      | Some (_, msgs) => (Returned "OK" (DIds (numbers_where m_old 1 msgs)), s)
      | None => (Raised true, s)
      end
  | Fetch message_set _ =>
      match selected_messages s with
      | Some (_, msgs) =>
          if existsb (in_set message_set) (seq 1 (List.length msgs))
          then (Returned "OK" (DHeader (Some "Weekly digest")
                                       (Some "news@example.org") None), s)
          else (Returned "NO" DNone, s)
      | None => (Raised true, s)
      end
  | Store message_set command flags =>
      match selected_messages s with
      | Some (name, msgs) =>
          if String.eqb command "+FLAGS" && String.eqb flags "\Deleted"
          then (Returned "OK" DNone,
                mkServer (update name (flag_deleted message_set 1 msgs)
                                 (mailboxes s))
                         (selected s))
          else (Returned "OK" DNone, s)
      | None => (Raised true, s)
      end
  | Expunge =>
      match selected_messages s with
      | Some (name, msgs) =>
          (Returned "OK" DNone,
           mkServer (update name (expunge msgs) (mailboxes s)) (selected s))
      | None => (Raised true, s)
      end
  end.

#[export] Instance env : Env Server := {
  imap := fun _ cmd s => respond cmd s;
  decode_subject := fun s => Some s;
  parsedate_tz := fun _ => None;
  fromtimestamp_mktime_tz := fun _ => None;
  strptime_dmy := fun s => if String.eqb s "" then None else Some 0%Z;
  strftime_dmy := fun _ => "01-Jul-2023"
}.

(** A program state that has not connected yet. *)
Definition fresh (boxes : list (string * list Message)) : Core Server :=
  mkCore None 0 (mkServer boxes None) 0.

Definition old_message : Message := mkMessage true false.
Definition new_message : Message := mkMessage false false.

End Mock.

(** A small web for running the requests: a host whose certificate has
    expired, a page that is gone, and pages that answer. *)
Module MockWeb.
Import PyStr Http.

(** What [requests] raises on a failed TLS handshake: its SSLError, which
    is a ConnectionError and a RequestException. *)
Definition ssl_failure : RequestError :=
  mkRequestError false true true true "certificate has expired".

Definition answer (url : string) : Outcome :=
  if contains "expired" url then Raises ssl_failure
  else if contains "gone" url then Response 410 12
  else Response 200 12.

#[export] Instance web : Web unit := {
  requests_get := fun url _ w => (answer url, w);
  time_sleep := fun _ w => w
}.

End MockWeb.

(* ------------------------------------------------------------------ *)
(** * Facts about the string primitives *)
(* ------------------------------------------------------------------ *)

Module PyStrFacts.
Import PyStr.

Lemma mem_In (x : string) (l : list string) : mem x l = true <-> In x l.
Proof.
  unfold mem. rewrite existsb_exists. split.
  - intros [y [Hin Heq]]. apply String.eqb_eq in Heq. now subst.
  - intros Hin. exists x. split; [assumption | apply String.eqb_refl].
Qed.

Lemma mem_false (x : string) (l : list string) : mem x l = false <-> ~ In x l.
Proof.
  rewrite <- mem_In. destruct (mem x l); split; intros; congruence.
Qed.

End PyStrFacts.

(* ------------------------------------------------------------------ *)
(** * Properties of the unsubscribe link processor *)
(* ------------------------------------------------------------------ *)

Module UnsubscribeFacts.
Import PyStr PyStrFacts Regex Unsubscribe.

(** Spec-side notions for the extraction property. *)

(** The longest prefix of [s] made of characters that satisfy [p]. *)
Fixpoint take_while (p : ascii -> bool) (s : string) : string :=
  match s with
  | String c t => if p c then String c (take_while p t) else EmptyString
  | EmptyString => EmptyString
  end.

Fixpoint all_chars (p : ascii -> bool) (s : string) : bool :=
  match s with
  | String c t => p c && all_chars p t
  | EmptyString => true
  end.

Definition starts_url (s : string) : bool :=
  startswith "http://" (lower s) || startswith "https://" (lower s).

(** The URLs of a text: at every place where http:// or https:// begins (in
    any letter case), the run of characters up to the next whitespace,
    angle bracket or double quote. *)
Fixpoint urls_in (content : string) : list string :=
  (if starts_url content then [take_while url_char content] else [])
  ++ match content with
     | EmptyString => []
     | String _ t => urls_in t
     end.

Definition mentions_unsubscribe (u : string) : bool :=
  contains "unsubscribe" (lower u).

(** Every predicate of the pattern [r] implies [q]. *)
Definition item_pred (i : item) : ascii -> bool :=
  match i with
  | One p | Opt p | Star p | Plus p => p
  end.

Definition within (q : ascii -> bool) (r : pattern) : Prop :=
  Forall (fun i => forall c, item_pred i c = true -> q c = true) r.

Lemma append_nil_r (s : string) : (s ++ "")%string = s.
Proof. induction s; simpl; congruence. Qed.

Lemma append_assoc (a b c : string) :
  ((a ++ b) ++ c)%string = (a ++ (b ++ c))%string.
Proof. induction a; simpl; congruence. Qed.

Lemma lower_app (a b : string) : lower (a ++ b) = (lower a ++ lower b)%string.
Proof. induction a; simpl; congruence. Qed.

Lemma prefix_nil (s : string) : String.prefix "" s = true.
Proof. destruct s; reflexivity. Qed.

Lemma prefix_app (x a b : string) :
  String.prefix x a = true -> String.prefix x (a ++ b) = true.
Proof.
  revert a. induction x as [ | c x IH]; intros a H; [apply prefix_nil | ].
  destruct a as [ | d a]; simpl in *; [discriminate | ].
  destruct (ascii_dec c d); [auto | discriminate].
Qed.

Lemma prefix_refl_app (x b : string) : String.prefix x (x ++ b) = true.
Proof.
  induction x as [ | c x IH]; [apply prefix_nil | ].
  simpl. destruct (ascii_dec c c); [assumption | congruence].
Qed.

Lemma prefix_app_same (x y t : string) :
  String.prefix (x ++ y) (x ++ t) = String.prefix y t.
Proof.
  induction x as [ | c x IH]; [reflexivity | ].
  simpl. destruct (ascii_dec c c); [assumption | congruence].
Qed.

Lemma contains_prefix (x s : string) :
  String.prefix x s = true -> contains x s = true.
Proof. intros H. destruct s; unfold contains; fold contains; rewrite H; reflexivity. Qed.

Lemma contains_app_l (x a b : string) :
  contains x a = true -> contains x (a ++ b) = true.
Proof.
  induction a as [ | c a IH]; simpl; intros H.
  - rewrite orb_false_r in H. destruct x; [ | discriminate].
    apply contains_prefix, prefix_nil.
  - apply orb_true_iff in H. apply orb_true_iff. destruct H as [H | H].
    + left. exact (prefix_app x (String c a) b H).
    + right. auto.
Qed.

Lemma contains_app_r (x a b : string) :
  contains x b = true -> contains x (a ++ b) = true.
Proof.
  intros H. induction a as [ | c a IH]; simpl; [assumption | ].
  fold (append a b). rewrite IH. apply orb_true_r.
Qed.

Lemma all_chars_app (p : ascii -> bool) (a b : string) :
  all_chars p (a ++ b) = all_chars p a && all_chars p b.
Proof. induction a; simpl; [reflexivity | ]. rewrite IHa. apply andb_assoc. Qed.

Lemma take_while_app (p : ascii -> bool) (a b : string) :
  all_chars p a = true -> take_while p (a ++ b) = (a ++ take_while p b)%string.
Proof.
  induction a as [ | c a IH]; simpl; intros H; [reflexivity | ].
  apply andb_true_iff in H. destruct H as [Hc Ha]. rewrite Hc, IH; auto.
Qed.

(** What a successful greedy repetition consumed. *)
Lemma star_split (p : ascii -> bool) k (s m rest : string) :
  star p k s = Some (m, rest) ->
  exists a b s', m = (a ++ b)%string /\ s = (a ++ s')%string
                 /\ all_chars p a = true /\ k s' = Some (b, rest).
Proof.
  revert m. induction s as [ | c t IH]; intros m H; simpl in H.
  - exists EmptyString, m, EmptyString. auto.
  - destruct (p c) eqn:Hc.
    + destruct (star p k t) as [[m' rest'] | ] eqn:Hs.
      * inversion H; subst; clear H.
        destruct (IH m' eq_refl) as (a & b & s' & -> & -> & Ha & Hk).
        exists (String c a), b, s'. simpl. rewrite Hc, Ha. auto.
      * exists EmptyString, m, (String c t). auto.
    + exists EmptyString, m, (String c t). auto.
Qed.

(** A match of [r1 ++ r2] is a match of [r1] followed by one of [r2]. *)
Lemma match_here_app (q : ascii -> bool) (r1 r2 : pattern) :
  within q r1 ->
  forall s m rest,
    match_here (r1 ++ r2) s = Some (m, rest) ->
    exists m1 m2 s', m = (m1 ++ m2)%string /\ s = (m1 ++ s')%string
                     /\ all_chars q m1 = true
                     /\ match_here r2 s' = Some (m2, rest).
Proof.
  induction 1 as [ | i r1 Hi Hr IH]; intros s m rest H.
  - exists EmptyString, m, s. auto.
  - destruct i as [p | p | p | p]; simpl in H, Hi.
    + destruct s as [ | c t]; [discriminate | ].
      destruct (p c) eqn:Hc; [ | discriminate].
      destruct (match_here (r1 ++ r2) t) as [[m' rest'] | ] eqn:Hm; [ | discriminate].
      inversion H; subst; clear H.
      destruct (IH _ _ _ Hm) as (m1 & m2 & s' & -> & -> & Hq & Hk).
      exists (String c m1), m2, s'. simpl. rewrite (Hi c Hc), Hq. auto.
    + assert (Hskip : match_here (r1 ++ r2) s = Some (m, rest) ->
                      exists m1 m2 s', m = (m1 ++ m2)%string /\ s = (m1 ++ s')%string
                                       /\ all_chars q m1 = true
                                       /\ match_here r2 s' = Some (m2, rest))
        by (intros Hm; exact (IH _ _ _ Hm)).
      destruct s as [ | c t]; [auto | ].
      destruct (p c) eqn:Hc; [ | auto].
      destruct (match_here (r1 ++ r2) t) as [[m' rest'] | ] eqn:Hm; [ | auto].
      inversion H; subst; clear H.
      destruct (IH _ _ _ Hm) as (m1 & m2 & s' & -> & -> & Hq & Hk).
      exists (String c m1), m2, s'. simpl. rewrite (Hi c Hc), Hq. auto.
    + destruct (star_split _ _ _ _ _ H) as (a & b & s' & -> & -> & Ha & Hk).
      destruct (IH _ _ _ Hk) as (m1 & m2 & s'' & -> & -> & Hq & Hk').
      exists (a ++ m1)%string, m2, s''. rewrite !append_assoc, all_chars_app, Hq.
      repeat split; auto. rewrite andb_true_r.
      clear - Ha Hi. induction a as [ | c a IHa]; [reflexivity | ].
      simpl in *. apply andb_true_iff in Ha. destruct Ha as [Hc Ha].
      rewrite (Hi c Hc). auto.
    + destruct s as [ | c t]; [discriminate | ].
      destruct (p c) eqn:Hc; [ | discriminate].
      destruct (star p (match_here (r1 ++ r2)) t) as [[m' rest'] | ] eqn:Hm;
        [ | discriminate].
      inversion H; subst; clear H.
      destruct (star_split _ _ _ _ _ Hm) as (a & b & s' & -> & -> & Ha & Hk).
      destruct (IH _ _ _ Hk) as (m1 & m2 & s'' & -> & -> & Hq & Hk').
      exists (String c (a ++ m1)), m2, s''. simpl.
      rewrite !append_assoc, all_chars_app, Hq, (Hi c Hc).
      repeat split; auto. rewrite andb_true_r. simpl.
      clear - Ha Hi. induction a as [ | d a IHa]; [reflexivity | ].
      simpl in *. apply andb_true_iff in Ha. destruct Ha as [Hd Ha].
      rewrite (Hi d Hd). auto.
Qed.

(** C10. [is_valid_unsubscribe_url] is false for a URL of fewer than ten
    characters, for one that does not start with http:// or https://, for
    one without unsubscribe, and for one with javascript:, data:, file: or
    ftp: anywhere in it (all compared in lower case), and true for every
    other URL; a well-formed https unsubscribe link whose query string
    embeds data: is refused, the two URLs of the specification come out as
    it says. *)
Theorem is_valid_unsubscribe_url_characterised :
  (forall url : string,
      is_valid_unsubscribe_url url =
      (10 <=? String.length url)
      && (startswith "http://" (lower url) || startswith "https://" (lower url))
      && contains "unsubscribe" (lower url)
      && negb (contains "javascript:" (lower url)
               || contains "data:" (lower url)
               || contains "file:" (lower url)
               || contains "ftp:" (lower url)))
  /\ is_valid_unsubscribe_url "https://a.com/unsubscribe?next=data:text/html" = false
  /\ is_valid_unsubscribe_url "https://A.com/Unsubscribe?go=JavaScript:x" = false
  /\ is_valid_unsubscribe_url "javascript:unsubscribe()" = false
  /\ is_valid_unsubscribe_url "https://a.com/unsubscribe" = true.
Proof.
  split; [ | repeat split; reflexivity ].
  intros url. unfold is_valid_unsubscribe_url, suspicious_patterns.
  cbn [existsb]. rewrite orb_false_r.
  replace (10 <=? String.length url) with (negb (String.length url <? 10))
    by (destruct (Nat.ltb_spec (String.length url) 10);
        destruct (Nat.leb_spec 10 (String.length url)); simpl; lia || reflexivity).
  destruct (String.eqb_spec url "") as [-> | _]; [reflexivity | ].
  cbn [orb].
  destruct (String.length url <? 10); [reflexivity | ].
  destruct (startswith "http://" (lower url) || startswith "https://" (lower url));
    [ | reflexivity ].
  destruct (contains "unsubscribe" (lower url)); [ | reflexivity ].
  rewrite !orb_assoc.
  destruct (contains "javascript:" (lower url) || contains "data:" (lower url)
            || contains "file:" (lower url) || contains "ftp:" (lower url));
    reflexivity.
Qed.

(** What the cleaning keeps of a query string: the parameters that carry
    an equals sign and whose name is not a tracking parameter, in their
    order. *)
Lemma filter_params_keeps (param_pairs : list string) :
  filter_params param_pairs
  = filter (fun param => has_char "="%char param
                         && negb (mem (param_name param) tracking_params))
           param_pairs.
Proof.
  induction param_pairs as [ | param rest IH]; [reflexivity | ].
  cbn [filter_params filter]. rewrite IH.
  destruct (has_char "="%char param); [ | reflexivity].
  destruct (mem (param_name param) tracking_params); reflexivity.
Qed.

(** C4 (the code at the failing input). A query parameter that carries no
    equals sign is not a tracking parameter, and [validate_and_clean_links]
    drops it all the same: [token123] disappears next to [id=5], and a link
    whose only parameter is such a token loses it together with the
    question mark. *)
Theorem clean_link_drops_parameter_without_value :
  validate_and_clean_links ["https://x.com/unsubscribe?token123&id=5"]
  = ["https://x.com/unsubscribe?id=5"]
  /\ validate_and_clean_links ["https://x.com/unsubscribe?token123"]
     = ["https://x.com/unsubscribe"]
  /\ mem (param_name "token123") tracking_params = false.
Proof. repeat split; reflexivity. Qed.

Lemma lits_split (x : string) (r2 : pattern) :
  forall s m rest,
    match_here (lits_i x ++ r2) s = Some (m, rest) ->
    exists a m2 s', m = (a ++ m2)%string /\ s = (a ++ s')%string
                    /\ lower a = lower x
                    /\ match_here r2 s' = Some (m2, rest).
Proof.
  induction x as [ | c0 x IH]; intros s m rest H.
  - exists EmptyString, m, s. auto.
  - simpl in H. destruct s as [ | c t]; [discriminate | ].
    destruct (lit_i c0 c) eqn:Hc; [ | discriminate].
    destruct (match_here (lits_i x ++ r2) t) as [[m' rest'] | ] eqn:Hm;
      [ | discriminate].
    inversion H; subst; clear H.
    destruct (IH _ _ _ Hm) as (a & m2 & s' & -> & -> & Hl & Hk).
    exists (String c a), m2, s'. simpl. rewrite Hl.
    unfold lit_i in Hc. apply Ascii.eqb_eq in Hc. rewrite Hc. auto.
Qed.

Lemma opt_split (p : ascii -> bool) (r : pattern) (s m rest : string) :
  match_here (Opt p :: r) s = Some (m, rest) ->
  (exists c t m', s = String c t /\ m = String c m' /\ p c = true
                  /\ match_here r t = Some (m', rest))
  \/ match_here r s = Some (m, rest).
Proof.
  simpl. destruct s as [ | c t]; [auto | ].
  destruct (p c) eqn:Hc; [ | auto].
  destruct (match_here r t) as [[m' rest'] | ] eqn:Hm; [ | auto].
  intros H. inversion H; subst. left. exists c, t, m'. auto.
Qed.

Lemma url_char_lower (c : ascii) : url_char (char_lower c) = url_char c.
Proof. destruct c as [[] [] [] [] [] [] [] []]; reflexivity. Qed.

Lemma lit_url_char (x : ascii) :
  url_char x = true -> forall c, lit_i x c = true -> url_char c = true.
Proof.
  intros Hx c Hc. unfold lit_i in Hc. apply Ascii.eqb_eq in Hc.
  rewrite <- url_char_lower, Hc, url_char_lower. exact Hx.
Qed.

Lemma unsubscribe_regex_within : within url_char unsubscribe_regex.
Proof.
  unfold within, unsubscribe_regex. simpl.
  repeat (constructor;
          [ simpl; first [ apply lit_url_char; reflexivity | auto ] | ]).
  constructor.
Qed.

(** What every match of the pattern looks like. *)
Lemma unsubscribe_match (s m rest : string) :
  match_here unsubscribe_regex s = Some (m, rest) ->
  s = (m ++ rest)%string
  /\ all_chars url_char m = true
  /\ starts_url m = true
  /\ mentions_unsubscribe m = true.
Proof.
  intros H. split; [ | split ].
  - rewrite <- (app_nil_r unsubscribe_regex) in H.
    destruct (match_here_app _ _ [] unsubscribe_regex_within _ _ _ H)
      as (m1 & m2 & s' & -> & -> & _ & Hk).
    simpl in Hk. inversion Hk; subst. now rewrite append_nil_r.
  - rewrite <- (app_nil_r unsubscribe_regex) in H.
    destruct (match_here_app _ _ [] unsubscribe_regex_within _ _ _ H)
      as (m1 & m2 & s' & -> & -> & Hq & Hk).
    simpl in Hk. inversion Hk; subst. now rewrite append_nil_r.
  - unfold unsubscribe_regex in H.
    destruct (lits_split _ _ _ _ _ H) as (a1 & m1 & s1 & -> & -> & Hl1 & H1).
    clear H. simpl app in H1.
    assert (Hrest : forall s2 m2,
               match_here
                 (lits_i "://" ++ [Plus url_char]
                  ++ lits_i "unsubscribe" ++ [Star url_char]) s2
               = Some (m2, rest) ->
               String.prefix "://" (lower m2) = true
               /\ mentions_unsubscribe m2 = true).
    { intros s2 m2 H2.
      destruct (lits_split _ _ _ _ _ H2) as (a3 & m3 & s3 & -> & -> & Hl3 & H3).
      assert (Hw : within url_char [Plus url_char])
        by (constructor; [simpl; auto | constructor]).
      destruct (match_here_app _ _ _ Hw _ _ _ H3)
        as (m4 & m5 & s4 & -> & -> & _ & H4).
      destruct (lits_split _ _ _ _ _ H4) as (a5 & m6 & s5 & -> & -> & Hl5 & _).
      unfold mentions_unsubscribe. rewrite !lower_app, Hl3, Hl5. split.
      - apply prefix_refl_app.
      - apply contains_app_r, contains_app_r, contains_prefix, prefix_refl_app. }
    unfold starts_url, startswith, mentions_unsubscribe.
    rewrite lower_app, Hl1.
    destruct (opt_split _ _ _ _ _ H1)
      as [(c & t & m' & -> & -> & Hc & H2) | H2].
    + destruct (Hrest _ _ H2) as [Hp Hu].
      unfold lit_i in Hc. apply Ascii.eqb_eq in Hc.
      simpl lower. rewrite Hc. split.
      * apply orb_true_iff. right.
        exact (eq_trans (prefix_app_same "https" "://" (lower m')) Hp).
      * apply contains_app_r.
        exact (contains_app_r _ (String (char_lower "s") "") _ Hu).
    + destruct (Hrest _ _ H2) as [Hp Hu]. split.
      * apply orb_true_iff. left.
        exact (eq_trans (prefix_app_same "http" "://" (lower m1)) Hp).
      * apply contains_app_r. exact Hu.
Qed.

Lemma findall_none (r : pattern) (s : string) :
  (forall pre s', s = (pre ++ s')%string -> match_here r s' = None) ->
  forall skip, findall_aux r s skip = [].
Proof.
  induction s as [ | c t IH]; intros H skip; simpl.
  - rewrite (H EmptyString EmptyString eq_refl). destruct skip; reflexivity.
  - assert (Ht : forall pre s', t = (pre ++ s')%string -> match_here r s' = None)
      by (intros pre s' ->; apply (H (String c pre)); reflexivity).
    destruct skip; [ | auto].
    rewrite (H EmptyString (String c t) eq_refl). auto.
Qed.

Lemma urls_in_suffix (pre s u : string) :
  In u (urls_in s) -> In u (urls_in (pre ++ s)).
Proof.
  intros H. induction pre as [ | c pre IH]; [assumption | ].
  simpl. apply in_or_app. right. exact IH.
Qed.

Lemma urls_in_here (s : string) :
  starts_url s = true -> In (take_while url_char s) (urls_in s).
Proof.
  intros H. destruct s; cbn [urls_in]; rewrite H;
    apply in_or_app; left; left; reflexivity.
Qed.

(** C5. Extraction followed by cleaning on the sentence of the
    specification gives exactly the one link with [utm_source] stripped;
    and on every content none of whose URLs mentions unsubscribe (in any
    letter case, as the scan is case-insensitive), extraction returns the
    empty list. *)
Theorem extract_links_example_and_no_unsubscribe :
  validate_and_clean_links
    (extract_unsubscribe_links
       "Click here: https://x.com/unsubscribe?utm_source=a&id=5 to opt out.")
  = ["https://x.com/unsubscribe?id=5"]
  /\ forall content : string,
      forallb (fun u => negb (mentions_unsubscribe u)) (urls_in content) = true ->
      extract_unsubscribe_links content = [].
Proof.
  split; [reflexivity | ].
  intros content H. unfold extract_unsubscribe_links.
  destruct (String.eqb content ""); [reflexivity | ].
  unfold findall. rewrite findall_none; [reflexivity | ].
  intros pre s' ->.
  destruct (match_here unsubscribe_regex s') as [[m rest] | ] eqn:Hm;
    [ exfalso | reflexivity ].
  destruct (unsubscribe_match _ _ _ Hm) as (-> & Hall & Hurl & Hun).
  rewrite forallb_forall in H.
  assert (Hin : In (take_while url_char (m ++ rest))
                   (urls_in (pre ++ (m ++ rest)))).
  { apply urls_in_suffix, urls_in_here.
    unfold starts_url, startswith in *. rewrite lower_app.
    apply orb_true_iff in Hurl. apply orb_true_iff.
    destruct Hurl as [Hp | Hp]; [left | right]; apply prefix_app; exact Hp. }
  specialize (H _ Hin). rewrite take_while_app in H by exact Hall.
  unfold mentions_unsubscribe in *. rewrite lower_app in H.
  rewrite (contains_app_l _ _ _ Hun) in H. discriminate.
Qed.

(** The scan does not look at the letter case, in the scheme or in the
    word. *)
Lemma extract_links_ignores_letter_case :
  extract_unsubscribe_links "Leave: HTTPS://X.COM/UNSUBSCRIBE/1)."
  = ["HTTPS://X.COM/UNSUBSCRIBE/1"].
Proof. reflexivity. Qed.

(** A text that talks about unsubscribing and carries a link that does
    not: nothing is extracted. *)
Lemma extract_links_no_unsubscribe_witness :
  extract_unsubscribe_links
    "To unsubscribe, visit https://x.com/optout?id=5 or write to us." = [].
Proof.
  apply (proj2 extract_links_example_and_no_unsubscribe). reflexivity.
Defined.

(** ** What the extraction loop returns *)

Lemma rstrip_by_cons p c t :
  rstrip_by p (String c t)
  = match rstrip_by p t with
    | EmptyString => if p c then EmptyString else String c EmptyString
    | t' => String c t'
    end.
Proof. reflexivity. Qed.

Lemma rstrip_by_idem p s : rstrip_by p (rstrip_by p s) = rstrip_by p s.
Proof.
  induction s as [ | c t IH]; [reflexivity | ].
  rewrite rstrip_by_cons. destruct (rstrip_by p t) as [ | d r] eqn:Ht.
  - destruct (p c) eqn:Hp; [reflexivity | ].
    rewrite rstrip_by_cons. simpl. rewrite Hp. reflexivity.
  - rewrite rstrip_by_cons, IH. reflexivity.
Qed.

Lemma extract_loop_In u ms :
  forall acc,
    In u (extract_loop ms acc)
    <-> In u acc
        \/ exists m, In m ms /\ rstrip ".,;!?)" m = u
                     /\ is_valid_unsubscribe_url u = true.
Proof.
  induction ms as [ | m ms IH]; intros acc; simpl.
  - split; [auto | ]. intros [H | (m & [] & _)]. exact H.
  - destruct (is_valid_unsubscribe_url (rstrip ".,;!?)" m)) eqn:Hv;
      [destruct (mem (rstrip ".,;!?)" m) acc) eqn:Hm | ]; simpl;
      rewrite IH; clear IH.
    + apply mem_In in Hm. split.
      * intros [H | (m' & Hin & Hr & Hu)]; [auto | ].
        right. exists m'. auto.
      * intros [H | (m' & [-> | Hin] & Hr & Hu)]; [auto | | ].
        -- left. rewrite <- Hr. exact Hm.
        -- right. exists m'. auto.
    + rewrite in_app_iff. simpl. split.
      * intros [[H | [H | []]] | (m' & Hin & Hr & Hu)]; [auto | | ].
        -- right. exists m. rewrite <- H. auto.
        -- right. exists m'. auto.
      * intros [H | (m' & [-> | Hin] & Hr & Hu)]; [auto | auto | ].
        right. exists m'. auto.
    + split.
      * intros [H | (m' & Hin & Hr & Hu)]; [auto | ].
        right. exists m'. auto.
      * intros [H | (m' & [-> | Hin] & Hr & Hu)]; [auto | | ].
        -- rewrite <- Hr in Hu. congruence.
        -- right. exists m'. auto.
Qed.

Lemma extract_loop_NoDup ms :
  forall acc, NoDup acc -> NoDup (extract_loop ms acc).
Proof.
  induction ms as [ | m ms IH]; intros acc Hacc; simpl; [exact Hacc | ].
  destruct (is_valid_unsubscribe_url (rstrip ".,;!?)" m)); simpl;
    [ | auto].
  destruct (mem (rstrip ".,;!?)" m) acc) eqn:Hm; simpl; [auto | ].
  apply IH. apply mem_false in Hm. apply NoDup_app.
  - exact Hacc.
  - constructor; [intros [] | constructor].
  - intros a Ha [<- | []]. contradiction.
Qed.

(** X1. Whatever the content, [extract_unsubscribe_links] returns links
    that are pairwise different, that each pass [is_valid_unsubscribe_url],
    and that end with none of the punctuation characters that the loop
    strips (stripping again changes nothing); a link is returned exactly
    when it is the stripped form of some match of the pattern and is
    valid. *)
Theorem extract_links_valid_and_distinct :
  forall email_content : string,
    let links := extract_unsubscribe_links email_content in
    NoDup links
    /\ (forall u, In u links ->
                  is_valid_unsubscribe_url u = true
                  /\ rstrip ".,;!?)" u = u)
    /\ (email_content <> EmptyString ->
        forall u,
          In u links
          <-> exists m, In m (findall unsubscribe_regex email_content)
                        /\ rstrip ".,;!?)" m = u
                        /\ is_valid_unsubscribe_url u = true).
Proof.
  intros email_content. unfold extract_unsubscribe_links.
  destruct (String.eqb email_content "") eqn:He.
  - split; [constructor | ]. split; [intros u [] | ].
    apply String.eqb_eq in He. intros Hne. contradiction.
  - split; [apply extract_loop_NoDup; constructor | ]. split.
    + intros u Hin. apply extract_loop_In in Hin.
      destruct Hin as [[] | (m & _ & Hr & Hv)]. split; [exact Hv | ].
      rewrite <- Hr. unfold rstrip. apply rstrip_by_idem.
    + intros _ u. rewrite extract_loop_In. split.
      * intros [[] | H]. exact H.
      * auto.
Qed.

(** The first occurrences of the strings of [l] that are not in [seen],
    in their order. *)
Fixpoint first_seen (seen l : list string) : list string :=
  match l with
  | [] => []
  | x :: rest =>
      if mem x seen then first_seen seen rest
      else x :: first_seen (x :: seen) rest
  end.

Lemma first_seen_ext l :
  forall seen seen',
    (forall x, mem x seen = mem x seen') ->
    first_seen seen l = first_seen seen' l.
Proof.
  induction l as [ | y l IH]; intros seen seen' H; simpl; [reflexivity | ].
  rewrite (H y). destruct (mem y seen'); [apply IH; exact H | ].
  f_equal. apply IH. intros x. unfold mem in *. simpl. rewrite (H x).
  reflexivity.
Qed.

Lemma mem_snoc x y l : mem x (l ++ [y]) = mem x (y :: l).
Proof.
  unfold mem. rewrite existsb_app. simpl.
  destruct (existsb (String.eqb x) l), (String.eqb x y); reflexivity.
Qed.

Lemma extract_loop_first_seen ms :
  forall acc,
    extract_loop ms acc
    = acc ++ first_seen acc (filter is_valid_unsubscribe_url
                                    (map (rstrip ".,;!?)") ms)).
Proof.
  induction ms as [ | m ms IH]; intros acc; simpl.
  - rewrite app_nil_r. reflexivity.
  - destruct (is_valid_unsubscribe_url (rstrip ".,;!?)" m)) eqn:Hv; simpl;
      [ | apply IH].
    destruct (mem (rstrip ".,;!?)" m) acc) eqn:Hm; simpl; [apply IH | ].
    rewrite IH, <- app_assoc. simpl. do 2 f_equal.
    apply first_seen_ext. intros x. apply mem_snoc.
Qed.

(** X2. The links come out in the order in which they first occur in
    the content: the result is the list of the matches of the pattern,
    each stripped of trailing punctuation, without those that are not
    valid and without every repetition of a link already listed. *)
Theorem extract_links_keeps_first_occurrences :
  forall email_content : string,
    extract_unsubscribe_links email_content
    = first_seen []
        (filter is_valid_unsubscribe_url
                (map (rstrip ".,;!?)")
                     (findall unsubscribe_regex email_content))).
Proof.
  intros email_content. unfold extract_unsubscribe_links.
  destruct (String.eqb email_content "") eqn:He.
  - apply String.eqb_eq in He. subst. reflexivity.
  - apply extract_loop_first_seen.
Qed.

(** ** The query string of a cleaned link *)

Lemma split_once_Some sep s :
  forall a b, split_once sep s = Some (a, b) ->
              has_char sep a = false /\ s = (a ++ String sep b)%string.
Proof.
  induction s as [ | c t IH]; intros a b H; simpl in H; [discriminate | ].
  destruct (Ascii.eqb c sep) eqn:Hc.
  - inversion H; subst. apply Ascii.eqb_eq in Hc. subst. auto.
  - destruct (split_once sep t) as [[a' b'] | ]; [ | discriminate].
    inversion H; subst. destruct (IH _ _ eq_refl) as (Ha & ->).
    simpl. rewrite Hc, Ha. auto.
Qed.

Lemma split_once_None sep s :
  split_once sep s = None <-> has_char sep s = false.
Proof.
  induction s as [ | c t IH]; simpl; [tauto | ].
  destruct (Ascii.eqb c sep); simpl.
  - split; discriminate.
  - destruct (split_once sep t) as [[a b] | ].
    + split; [discriminate | ]. intros H. apply IH in H. discriminate.
    + tauto.
Qed.

Lemma split_char_Forall sep s :
  Forall (fun x => has_char sep x = false) (split_char sep s).
Proof.
  induction s as [ | c t IH]; simpl; [repeat constructor | ].
  destruct (Ascii.eqb c sep) eqn:Hc; [constructor; [reflexivity | exact IH] | ].
  destruct (split_char sep t) as [ | h r].
  - repeat constructor. simpl. rewrite Hc. reflexivity.
  - inversion IH; subst. constructor; [ | assumption].
    simpl. rewrite Hc. assumption.
Qed.

Lemma split_char_single sep x :
  has_char sep x = false -> split_char sep x = [x].
Proof.
  induction x as [ | c t IH]; simpl; [reflexivity | ].
  destruct (Ascii.eqb c sep); simpl; [discriminate | ].
  intros H. rewrite (IH H). reflexivity.
Qed.

Lemma split_char_app sep x y :
  has_char sep x = false ->
  split_char sep (x ++ String sep y) = x :: split_char sep y.
Proof.
  induction x as [ | c t IH]; simpl.
  - rewrite Ascii.eqb_refl. reflexivity.
  - destruct (Ascii.eqb c sep); simpl; [discriminate | ].
    intros H. rewrite (IH H). reflexivity.
Qed.

(** Splitting what was joined gives the pieces back. *)
Lemma split_join sep l :
  l <> [] ->
  Forall (fun x => has_char sep x = false) l ->
  split_char sep (join (String sep EmptyString) l) = l.
Proof.
  induction l as [ | x r IH]; intros Hne Hall; [contradiction | ].
  inversion Hall as [ | ? ? Hx Hr]; subst.
  destruct r as [ | y r].
  - simpl. apply split_char_single. exact Hx.
  - change (join (String sep EmptyString) (x :: y :: r))
      with (x ++ String sep (join (String sep EmptyString) (y :: r)))%string.
    rewrite split_char_app by exact Hx. f_equal.
    apply IH; [discriminate | exact Hr].
Qed.

(** The parameters that the inner loop keeps. *)
Definition kept_param (param : string) : bool :=
  has_char "="%char param && negb (mem (param_name param) tracking_params).

Lemma filter_params_filter l : filter_params l = filter kept_param l.
Proof.
  induction l as [ | p l IH]; simpl; [reflexivity | ].
  unfold kept_param at 1. destruct (has_char "=" p); simpl; [ | exact IH].
  destruct (mem (param_name p) tracking_params); simpl; rewrite IH; reflexivity.
Qed.

(** The text of a link before its first question mark, and the list of
    the parameters after it. *)
Definition url_base (link : string) : string :=
  match split_once "?"%char link with
  | Some (base_url, _) => base_url
  | None => link
  end.

Definition query_params (link : string) : list string :=
  match split_once "?"%char link with
  | Some (_, params) => split_char "&"%char params
  | None => []
  end.

(** X3. Cleaning a link leaves the text before the first question mark as
    it is (after [strip]), and the parameters of the result, read back
    with the same two splits, are exactly the parameters of the link that
    carry an equals sign and whose name is none of the five tracking names,
    in their order: no utm parameter survives and nothing is added. *)
Theorem clean_link_keeps_base_and_filters_query :
  forall link : string,
    url_base (clean_link link) = url_base (strip link)
    /\ query_params (clean_link link)
       = filter kept_param (query_params (strip link))
    /\ Forall (fun param => has_char "="%char param = true
                            /\ ~ In (param_name param) tracking_params)
              (query_params (clean_link link)).
Proof.
  intros link.
  assert (Hq : url_base (clean_link link) = url_base (strip link)
               /\ query_params (clean_link link)
                  = filter kept_param (query_params (strip link))).
  { unfold clean_link, url_base, query_params.
    destruct (split_once "?" (strip link)) as [[base_url params] | ] eqn:Hs.
    - apply split_once_Some in Hs. destruct Hs as (Hbase & _).
      rewrite filter_params_filter.
      destruct (filter kept_param (split_char "&" params)) as [ | p ps] eqn:Hf.
      + apply split_once_None in Hbase. rewrite Hbase. auto.
      + assert (Hsplit : split_once "?" (base_url ++ "?" ++ join "&" (p :: ps))
                         = Some (base_url, join "&" (p :: ps))).
        { clear Hf. revert Hbase. generalize (join "&" (p :: ps)).
          induction base_url as [ | c t IH]; intros j Hb; [reflexivity | ].
          simpl in Hb. destruct (Ascii.eqb c "?") eqn:Hc; [discriminate | ].
          simpl in Hb. change ((String c t ++ "?" ++ j)%string)
            with (String c (t ++ "?" ++ j)%string).
          simpl. rewrite Hc. simpl in IH. rewrite (IH j Hb). reflexivity. }
        rewrite Hsplit. split; [reflexivity | ].
        apply (split_join "&"%char); [discriminate | ].
        rewrite <- Hf. apply incl_Forall with (l1 := split_char "&" params).
        * intros x Hx. apply filter_In in Hx. tauto.
        * apply split_char_Forall.
    - rewrite Hs. auto. }
  destruct Hq as (Hb & Hq). split; [exact Hb | ]. split; [exact Hq | ].
  rewrite Hq. apply Forall_forall. intros p Hp.
  apply filter_In in Hp. destruct Hp as (_ & Hk).
  unfold kept_param in Hk. apply andb_true_iff in Hk. destruct Hk as (He & Hn).
  split; [exact He | ]. apply negb_true_iff in Hn. apply mem_false. exact Hn.
Qed.

End UnsubscribeFacts.

(* ------------------------------------------------------------------ *)
(** * Properties of the unsubscribe requests *)
(* ------------------------------------------------------------------ *)

Module HttpFacts.
Import PyStr PyStrFacts Http.

(** One request per URL, in the order given, with a pause between two
    consecutive requests and none after the last. *)
Fixpoint paced (delay : nat) (urls : list string) : list Action :=
  match urls with
  | [] => []
  | url :: rest =>
      Get url :: match rest with
                 | [] => []
                 | _ :: _ => Sleep delay :: paced delay rest
                 end
  end.

(** [errors.get(error_type, 0)] *)
Fixpoint errors_get (error_type : string) (errors : list (string * nat)) : nat :=
  match errors with
  | [] => 0
  | (k, n) :: rest =>
      if String.eqb k error_type then n else errors_get error_type rest
  end.

(** The failed requests among [details] that were counted under
    [error_type]. *)
Definition failed_as (error_type : string) (details : list Result)
  : list Result :=
  filter (fun r => negb (success r) && String.eqb (error_type_of r) error_type)
         details.

Definition failures (details : list Result) : list Result :=
  filter (fun r => negb (success r)) details.

(** The counters of a batch agree with its list of details. *)
Definition consistent (results : Batch) : Prop :=
  successful_requests results
  = List.length (filter success (request_details results))
  /\ failed_requests results
     = List.length (failures (request_details results))
  /\ list_sum (map snd (errors results)) = failed_requests results
  /\ NoDup (map fst (errors results))
  /\ (forall k, errors_get k (errors results)
                = List.length (failed_as k (request_details results)))
  /\ (forall k, In k (map fst (errors results)) ->
                0 < errors_get k (errors results))
  /\ (forall k, In k (map fst (errors results)) -> k <> EmptyString).

Lemma error_type_of_nonempty r : error_type_of r <> EmptyString.
Proof.
  unfold error_type_of. destruct (error r) as [e | ]; [ | discriminate].
  destruct (String.eqb e "") eqn:He; [discriminate | ].
  apply String.eqb_neq. exact He.
Qed.

Lemma errors_add_sum k errs :
  list_sum (map snd (errors_add k errs)) = S (list_sum (map snd errs)).
Proof.
  induction errs as [ | [k' n] r IH]; simpl; [reflexivity | ].
  destruct (String.eqb k' k); simpl; [lia | rewrite IH; lia].
Qed.

Lemma errors_add_keys x k errs :
  In x (map fst (errors_add k errs)) <-> x = k \/ In x (map fst errs).
Proof.
  induction errs as [ | [k' n] r IH]; simpl; [intuition congruence | ].
  destruct (String.eqb k' k) eqn:He; simpl.
  - apply String.eqb_eq in He. subst. intuition congruence.
  - rewrite IH. intuition congruence.
Qed.

Lemma errors_add_NoDup k errs :
  NoDup (map fst errs) -> NoDup (map fst (errors_add k errs)).
Proof.
  induction errs as [ | [k' n] r IH]; simpl; intros Hn.
  - constructor; [intros [] | constructor].
  - inversion Hn as [ | ? ? Hk' Hr]; subst.
    destruct (String.eqb k' k) eqn:He; simpl.
    + constructor; assumption.
    + constructor; [ | auto]. rewrite errors_add_keys.
      intros [-> | Hin]; [ | contradiction].
      rewrite String.eqb_refl in He. discriminate.
Qed.

Lemma errors_add_get x k errs :
  errors_get x (errors_add k errs)
  = errors_get x errs + (if String.eqb k x then 1 else 0).
Proof.
  induction errs as [ | [k' n] r IH]; simpl.
  - reflexivity.
  - destruct (String.eqb k' k) eqn:He; simpl.
    + apply String.eqb_eq in He. subst.
      destruct (String.eqb k x); lia.
    + destruct (String.eqb k' x) eqn:Hx; [ | exact IH].
      destruct (String.eqb k x) eqn:Hkx; [ | lia].
      apply String.eqb_eq in Hx, Hkx. subst.
      rewrite String.eqb_refl in He. discriminate.
Qed.

Lemma failed_as_snoc k details r :
  List.length (failed_as k (details ++ [r]))
  = List.length (failed_as k details)
    + (if negb (success r) && String.eqb (error_type_of r) k then 1 else 0).
Proof.
  unfold failed_as. rewrite filter_app, length_app. simpl.
  destruct (negb (success r) && String.eqb (error_type_of r) k); reflexivity.
Qed.

Lemma record_result_consistent r results :
  consistent results -> consistent (record_result r results).
Proof.
  intros (Hs & Hf & Hsum & Hnd & Hget & Hpos & Hne).
  unfold consistent, record_result, failures in *.
  destruct (success r) eqn:Hr; cbn [successful_requests failed_requests
    request_details errors].
  - split; [rewrite filter_app, length_app; simpl; rewrite Hr; simpl; lia | ].
    split; [rewrite filter_app, length_app; simpl; rewrite Hr; simpl; lia | ].
    split; [exact Hsum | ]. split; [exact Hnd | ].
    split; [ | split; [exact Hpos | exact Hne]].
    intros k. rewrite failed_as_snoc, Hr, Hget. simpl. lia.
  - split; [rewrite filter_app, length_app; simpl; rewrite Hr; simpl; lia | ].
    split; [rewrite filter_app, length_app; simpl; rewrite Hr; simpl; lia | ].
    split; [rewrite errors_add_sum; lia | ].
    split; [apply errors_add_NoDup; exact Hnd | ].
    split.
    + intros k. rewrite errors_add_get, failed_as_snoc, Hr, Hget. simpl.
      reflexivity.
    + split.
      * intros k Hk. rewrite errors_add_get. apply errors_add_keys in Hk.
        destruct Hk as [-> | Hk].
        -- rewrite String.eqb_refl. lia.
        -- specialize (Hpos k Hk). lia.
      * intros k Hk. apply errors_add_keys in Hk.
        destruct Hk as [-> | Hk]; [apply error_type_of_nonempty | auto].
Qed.

Section Facts.
Context {W : Type} `{Web W}.
Variable request_delay : nat.
Variable http_timeout : nat.

Lemma record_result_details r results :
  total_requests (record_result r results) = total_requests results
  /\ request_details (record_result r results)
     = request_details results ++ [r].
Proof. unfold record_result. destruct (success r); auto. Qed.

Lemma send_unsubscribe_request_url u (w : W) :
  url (fst (send_unsubscribe_request http_timeout u w)) = u.
Proof.
  unfold send_unsubscribe_request.
  destruct (requests_get u http_timeout w) as [[code seconds | e] w'];
    [destruct ((200 <=? code) && (code <? 400)) | ]; reflexivity.
Qed.

Lemma batch_loop_results n urls :
  forall i results (w : W),
    consistent results ->
    let '(results', _, _) :=
      batch_loop request_delay http_timeout n i urls results w in
    consistent results'
    /\ total_requests results' = total_requests results
    /\ map url (request_details results')
       = map url (request_details results) ++ urls.
Proof.
  induction urls as [ | u rest IH]; intros i results w Hc; simpl.
  - rewrite app_nil_r. auto.
  - pose proof (send_unsubscribe_request_url u w) as Hu.
    destruct (send_unsubscribe_request http_timeout u w) as [r w1].
    simpl in Hu.
    destruct (if i <? n then _ else _) as [w2 pause].
    specialize (IH (i + 1) (record_result r results) w2
                   (record_result_consistent r results Hc)).
    destruct (batch_loop request_delay http_timeout n (i + 1) rest
                         (record_result r results) w2) as [[results' w3] more].
    destruct IH as (Hc' & Ht & Hd).
    destruct (record_result_details r results) as (Ht1 & Hd1).
    split; [exact Hc' | ]. split; [congruence | ].
    rewrite Hd, Hd1, map_app. simpl. rewrite Hu, <- app_assoc. reflexivity.
Qed.

Lemma batch_loop_paced n urls :
  forall i results (w : W),
    i + List.length urls = S n ->
    snd (batch_loop request_delay http_timeout n i urls results w)
    = paced request_delay urls.
Proof.
  induction urls as [ | u rest IH]; intros i results w Hi; [reflexivity | ].
  cbn [batch_loop].
  destruct (send_unsubscribe_request http_timeout u w) as [r w1].
  destruct (i <? n) eqn:Hlt.
  - specialize (IH (i + 1) (record_result r results)
                   (time_sleep request_delay w1)).
    destruct (batch_loop request_delay http_timeout n (i + 1) rest
                         (record_result r results)
                         (time_sleep request_delay w1))
      as [[results' w3] more].
    apply Nat.ltb_lt in Hlt. cbn [List.length] in Hi.
    destruct rest as [ | v rest']; [cbn [List.length] in Hi; lia | ].
    cbn [snd] in IH. cbn [snd app].
    change (paced request_delay (u :: v :: rest'))
      with (Get u :: Sleep request_delay :: paced request_delay (v :: rest')).
    rewrite <- IH by lia. reflexivity.
  - specialize (IH (i + 1) (record_result r results) w1).
    destruct (batch_loop request_delay http_timeout n (i + 1) rest
                         (record_result r results) w1)
      as [[results' w3] more].
    apply Nat.ltb_ge in Hlt. cbn [List.length] in Hi.
    destruct rest as [ | v rest']; [ | cbn [List.length] in Hi; lia].
    cbn [snd] in IH. cbn [snd paced app]. rewrite IH by (simpl; lia).
    reflexivity.
Qed.

(** X4. The report of a batch adds up: [total_requests] is the number of
    URLs given; [request_details] holds one entry per URL, in the order
    given; [successful_requests] and [failed_requests] count the entries
    with and without success and sum to the total; the keys of [errors]
    are pairwise different and never the empty string, each count is
    positive and is the number of failed entries with that error text (an
    absent or empty text counted under Unknown error), and the counts sum
    to [failed_requests]. *)
Theorem batch_report_adds_up :
  forall (urls : list string) (w : W),
    let '(results, _, _) :=
      send_unsubscribe_requests_batch request_delay http_timeout urls w in
    total_requests results = List.length urls
    /\ map url (request_details results) = urls
    /\ successful_requests results
       = List.length (filter success (request_details results))
    /\ failed_requests results
       = List.length (failures (request_details results))
    /\ successful_requests results + failed_requests results
       = total_requests results
    /\ NoDup (map fst (errors results))
    /\ (forall k, errors_get k (errors results)
                  = List.length (failed_as k (request_details results)))
    /\ (forall k, In k (map fst (errors results)) ->
                  0 < errors_get k (errors results) /\ k <> EmptyString)
    /\ list_sum (map snd (errors results)) = failed_requests results.
Proof.
  intros urls w.
  assert (Hc0 : consistent (mkBatch (List.length urls) 0 0 [] [])).
  { unfold consistent. simpl.
    split; [reflexivity | ]. split; [reflexivity | ].
    split; [reflexivity | ]. split; [constructor | ].
    split; [reflexivity | ]. split; intros k []. }
  assert (Hsplit : forall details : list Result,
             List.length (filter success details)
             + List.length (failures details) = List.length details).
  { intros details. unfold failures.
    induction details as [ | r l IH]; simpl; [reflexivity | ].
    destruct (success r); simpl; lia. }
  unfold send_unsubscribe_requests_batch.
  destruct urls as [ | u rest].
  - simpl. split; [reflexivity | ]. split; [reflexivity | ].
    split; [reflexivity | ]. split; [reflexivity | ].
    split; [reflexivity | ]. split; [constructor | ].
    split; [reflexivity | ]. split; [intros k [] | reflexivity].
  - pose proof (batch_loop_results (List.length (u :: rest)) (u :: rest) 1
                  (mkBatch (List.length (u :: rest)) 0 0 [] []) w Hc0) as Hl.
    destruct (batch_loop request_delay http_timeout (List.length (u :: rest))
                         1 (u :: rest)
                         (mkBatch (List.length (u :: rest)) 0 0 [] []) w)
      as [[results w'] acts].
    destruct Hl as ((Hs & Hf & Hsum & Hnd & Hget & Hpos & Hne) & Ht & Hd).
    cbn [total_requests request_details map app] in Ht, Hd.
    split; [exact Ht | ]. split; [exact Hd | ].
    split; [exact Hs | ]. split; [exact Hf | ].
    split; [rewrite Hs, Hf, Hsplit, Ht, <- Hd, length_map; reflexivity | ].
    split; [exact Hnd | ]. split; [exact Hget | ].
    split; [intros k Hk; split; [apply Hpos | apply Hne]; exact Hk | ].
    exact Hsum.
Qed.

(** X5. A batch sends exactly one GET per URL, in the order given and
    whatever the outcomes (a failure neither stops the batch nor is
    retried), and sleeps [request_delay] between two consecutive requests
    and not after the last one. *)
Theorem batch_requests_are_paced :
  forall (urls : list string) (w : W),
    snd (send_unsubscribe_requests_batch request_delay http_timeout urls w)
    = paced request_delay urls.
Proof.
  intros urls w. unfold send_unsubscribe_requests_batch.
  destruct urls as [ | u rest]; [reflexivity | ].
  apply batch_loop_paced. simpl. lia.
Qed.


End Facts.
End HttpFacts.

(* ------------------------------------------------------------------ *)
(** * Properties of the connection manager and the deletion engine *)
(* ------------------------------------------------------------------ *)

Module ImapFacts.
Import PyStr PyStrFacts Imap.

(** ** Reading a trace *)

Definition reply_ok (r : Reply) : bool :=
  match r with
  | Returned typ _ => is_OK typ
  | Raised _ => false
  end.

Definition is_store (cmd : Command) : bool :=
  match cmd with
  | Store _ _ _ => true
  | _ => false
  end.

(** The command that sets the deleted flag. *)
Definition is_store_deleted (cmd : Command) : bool :=
  match cmd with
  | Store _ command flags =>
      String.eqb command "+FLAGS" && String.eqb flags "\Deleted"
  | _ => false
  end.

(** The mailbox selected on a connection, as the protocol defines it: a
    successful select selects, a failed one leaves nothing selected, close
    and logout deselect, a new connection starts with nothing selected. *)
Definition sel_step (sel : option string) (e : Event) : option string :=
  match ev_cmd e with
  | Select mailbox => if reply_ok (ev_reply e) then Some mailbox else None
  | IMAP4_SSL | Close | Logout => None
  | _ => sel
  end.

Definition sel_from (h : nat) (sel : option string) (evs : list Event)
  : option string :=
  fold_left (fun sel e => if ev_conn e =? h then sel_step sel e else sel)
            evs sel.

Definition selected_on (h : nat) (past : list Event) : option string :=
  sel_from h None past.

Definition on_all_mail (sel : option string) : bool :=
  match sel with
  | Some mailbox => is_gmail_all_mail_folder mailbox
  | None => false
  end.

(** No event of [evs], which follow the events [past], sets the deleted
    flag while an All Mail spelling is the mailbox selected on its
    connection. *)
Fixpoint deletes_avoid_all_mail (past evs : list Event) : bool :=
  match evs with
  | [] => true
  | e :: rest =>
      negb (is_store_deleted (ev_cmd e)
            && on_all_mail (selected_on (ev_conn e) past))
      && deletes_avoid_all_mail (past ++ [e]) rest
  end.

Definition stores (evs : list Event) : list Event :=
  filter (fun e => is_store (ev_cmd e)) evs.

(** The events end with a select of [mailbox] on connection [h] that the
    program took for a success. *)
Definition ends_selecting (h : nat) (mailbox : string) (evs : list Event)
  : Prop :=
  exists pre r, evs = pre ++ [mkEvent h (Select mailbox) r]
                /\ selected_ok r = true.

(** The spellings that are tried, in order, when [on_server] tells which
    mailboxes exist: all of them up to and including the first that
    exists. *)
Fixpoint tried (on_server : string -> bool) (candidates : list string)
  : list string :=
  match candidates with
  | [] => []
  | x :: rest => if on_server x then [x] else x :: tried on_server rest
  end.

Lemma tried_ext (f g : string -> bool) :
  (forall x, f x = g x) -> forall l, tried f l = tried g l.
Proof.
  intros H l. induction l as [ | x l IH]; simpl; [reflexivity | ].
  rewrite H, IH. reflexivity.
Qed.

Lemma existsb_ext (f g : string -> bool) :
  (forall x, f x = g x) -> forall l, existsb f l = existsb g l.
Proof.
  intros H l. induction l as [ | x l IH]; simpl; [reflexivity | ].
  rewrite H, IH. reflexivity.
Qed.

(** A folder none of whose spellings, as [select_folder] may try them, is
    an All Mail spelling. *)
Definition good_folder (folder : string) : bool :=
  forallb (fun m => negb (is_gmail_all_mail_folder m))
          (folder :: folder_variations folder).

(** Every folder listing in the events names an All Mail spelling only
    under the [Gmail] or [Google Mail] prefix. *)
Definition listing_ok (names : list string) : bool :=
  forallb (fun f => negb (is_gmail_all_mail_folder f) || is_gmail_prefixed f)
          names.

Definition listings_ok (evs : list Event) : bool :=
  forallb (fun e => match ev_reply e with
                    | Returned _ (DNames names) => listing_ok names
                    | _ => true
                    end) evs.

(** The commands of the preview and of the liveness check. *)
Definition is_preview_cmd (cmd : Command) : bool :=
  match cmd with
  | Noop | Fetch _ _ => true
  | _ => false
  end.

(** The events of a run without its probes and fetches. *)
Definition effective (evs : list Event) : list Event :=
  filter (fun e => negb (is_preview_cmd (ev_cmd e))) evs.

Section Facts.
Context {Srv : Type} `{E : Env Srv}.

Local Abbreviation M := (@Imap.M Srv).
Notation "x <- m ;; k" := (bind m (fun x => k))
  (at level 61, m at next level, right associativity).

(** ** The monad *)

Lemma bind_inv {A B : Type} (m : M A) (k : A -> M B) (c : Core Srv) b c2 evs :
  bind m k c = (b, c2, evs) ->
  exists a c1 e1 e2, m c = (a, c1, e1) /\ k a c1 = (b, c2, e2)
                     /\ evs = e1 ++ e2.
Proof.
  unfold bind. destruct (m c) as [[a c1] e1].
  destruct (k a c1) as [[b' c2'] e2] eqn:Hk. intros H. inversion H; subst.
  exists a, c1, e1, e2. auto.
Qed.

Lemma ret_inv {A : Type} (a : A) (c : Core Srv) b c' evs :
  ret a c = (b, c', evs) -> b = a /\ c' = c /\ evs = [].
Proof. unfold ret. intros H. inversion H. auto. Qed.

Lemma call_inv h cmd (c : Core Srv) r c' evs :
  call h cmd c = (r, c', evs) ->
  evs = [mkEvent h cmd r] /\ connection c' = connection c
  /\ created c' = created c /\ emails_deleted c' = emails_deleted c
  /\ imap h cmd (server c) = (r, server c').
Proof.
  unfold call. destruct (imap h cmd (server c)) as [r' s'].
  intros H. inversion H; subst. simpl. auto.
Qed.

Lemma call_self_inv cmd (c : Core Srv) r c' evs :
  call_self cmd c = (r, c', evs) ->
  connection c' = connection c
  /\ ((exists h, connection c = Some h /\ evs = [mkEvent h cmd r])
      \/ (connection c = None /\ r = Raised false /\ evs = [] /\ c' = c)).
Proof.
  unfold call_self. destruct (connection c) as [h | ] eqn:Hc.
  - intros H. apply call_inv in H. destruct H as (-> & Hc' & _).
    split; [congruence | ]. left. exists h. auto.
  - intros H. inversion H; subst. split; [assumption | right; auto].
Qed.

(** Inversion of a sequence of two methods and of a return. *)
Ltac minv H :=
  let a := fresh "a" in
  let c := fresh "c" in
  let ea := fresh "ea" in
  let eb := fresh "eb" in
  let Hm := fresh "Hm" in
  let Hk := fresh "Hk" in
  apply bind_inv in H;
  destruct H as (a & c & ea & eb & Hm & Hk & ->);
  cbv beta in Hk.

Ltac minv_as H a c ea eb Hm Hk :=
  apply bind_inv in H;
  destruct H as (a & c & ea & eb & Hm & Hk & ->);
  cbv beta in Hk.

Ltac rinv H :=
  apply ret_inv in H;
  let H1 := fresh in
  let H2 := fresh in
  let H3 := fresh in
  destruct H as (H1 & H2 & H3); subst.

Ltac rdisc H :=
  apply ret_inv in H;
  let H1 := fresh in
  destruct H as (H1 & _); discriminate H1.

(** ** What holds along every method that sends no store command *)

(** A relation between the state before, the state after and the calls
    made in between, kept by every call other than a store and closed under
    sequencing, holds along each of the methods below. *)
Section Frame.
Variable R : Core Srv -> Core Srv -> list Event -> Prop.
Hypothesis R_state : forall c c', server c' = server c -> R c c' [].
Hypothesis R_trans :
  forall c c1 c2 e1 e2, R c c1 e1 -> R c1 c2 e2 -> R c c2 (e1 ++ e2).
Hypothesis R_call :
  forall h cmd c r c' evs,
    is_store cmd = false -> call h cmd c = (r, c', evs) -> R c c' evs.

Definition Sat {A : Type} (m : M A) : Prop :=
  forall (c : Core Srv) a c' evs, m c = (a, c', evs) -> R c c' evs.

Lemma Sat_ret {A : Type} (a : A) : Sat (ret a : M A).
Proof. intros c b c' evs H. rinv H. now apply R_state. Qed.

Lemma Sat_bind {A B : Type} (m : M A) (k : A -> M B) :
  Sat m -> (forall a, Sat (k a)) -> Sat (bind m k).
Proof.
  intros Hm Hk c b c' evs H. minv H.
  eapply R_trans; [eapply Hm | eapply Hk]; eassumption.
Qed.

Lemma Sat_call h cmd : is_store cmd = false -> Sat (call h cmd).
Proof. intros Hc c r c' evs H. eapply R_call; eassumption. Qed.

Lemma Sat_call_self cmd : is_store cmd = false -> Sat (call_self cmd).
Proof.
  intros Hc c r c' evs H. unfold call_self in H.
  destruct (connection c).
  - eapply R_call; eassumption.
  - inversion H; subst. now apply R_state.
Qed.

Lemma Sat_get_self_connection : Sat get_self_connection.
Proof. intros c a c' evs H. inversion H; subst. now apply R_state. Qed.

Lemma Sat_set_self_connection h : Sat (set_self_connection h).
Proof. intros c a c' evs H. inversion H; subst. now apply R_state. Qed.

Lemma Sat_new_object : Sat new_object.
Proof. intros c a c' evs H. inversion H; subst. now apply R_state. Qed.

Lemma Sat_set_emails_deleted n : Sat (set_emails_deleted n).
Proof. intros c a c' evs H. inversion H; subst. now apply R_state. Qed.

Create HintDb frame.
Hint Resolve Sat_get_self_connection Sat_set_self_connection
  Sat_new_object Sat_set_emails_deleted : frame.

Ltac frame_step :=
  first
    [ apply Sat_ret
    | apply Sat_call; reflexivity
    | apply Sat_call_self; reflexivity
    | solve [auto with frame]
    | apply Sat_bind; [ | intros ]
    | match goal with
      | |- Sat (match ?x with _ => _ end) => destruct x
      | |- Sat (if ?b then _ else _) => destruct b
      end ].

Ltac frame := repeat frame_step.

Lemma Sat_connect : Sat connect.
Proof. unfold connect. frame. Qed.

Lemma Sat_disconnect : Sat disconnect.
Proof. unfold disconnect. frame. Qed.

Hint Resolve Sat_connect Sat_disconnect : frame.

Lemma Sat_ensure_connection : Sat ensure_connection.
Proof. unfold ensure_connection. frame. Qed.

Hint Resolve Sat_ensure_connection : frame.

Lemma Sat_get_connection : Sat get_connection.
Proof. unfold get_connection. frame. Qed.

Lemma Sat_try_select name : Sat (try_select name).
Proof. unfold try_select. frame. Qed.

Hint Resolve Sat_get_connection Sat_try_select : frame.

Lemma Sat_try_variations vs : Sat (try_variations vs).
Proof. induction vs; simpl; frame. Qed.

Hint Resolve Sat_try_variations : frame.

Lemma Sat_select_folder name : Sat (select_folder name).
Proof. unfold select_folder. frame. Qed.

Lemma Sat_list_folders : Sat list_folders.
Proof. unfold list_folders. frame. Qed.

Hint Resolve Sat_select_folder Sat_list_folders : frame.

Lemma Sat_search_old_emails cutoff folder :
  Sat (search_old_emails cutoff folder).
Proof. unfold search_old_emails. frame. Qed.

Hint Resolve Sat_search_old_emails : frame.

Lemma Sat_search_old_emails_multiple_folders cutoff folders :
  Sat (search_old_emails_multiple_folders cutoff folders).
Proof. induction folders; simpl; frame. Qed.

Lemma Sat_get_email_metadata email_id : Sat (get_email_metadata email_id).
Proof. unfold get_email_metadata. frame. Qed.

Hint Resolve Sat_search_old_emails_multiple_folders
  Sat_get_email_metadata : frame.

Lemma Sat_preview ids : Sat (preview ids).
Proof. induction ids; simpl; frame. Qed.

Lemma Sat_expunge_deleted_emails : Sat expunge_deleted_emails.
Proof. unfold expunge_deleted_emails. frame. Qed.

Hint Resolve Sat_preview Sat_expunge_deleted_emails : frame.

Lemma Sat_expunge_if_any n : Sat (expunge_if_any n).
Proof. unfold expunge_if_any. frame. Qed.

Lemma Sat_get_gmail_source_folders : Sat get_gmail_source_folders.
Proof. unfold get_gmail_source_folders. frame. Qed.

Lemma Sat_find_old_emails cutoff folders :
  Sat (find_old_emails cutoff folders).
Proof.
  unfold find_old_emails. destruct folders as [ | f [ | g r]]; frame.
Qed.

End Frame.

(** The first instance: these methods send no store command. *)
Definition no_store (evs : list Event) : Prop :=
  Forall (fun e => is_store (ev_cmd e) = false) evs.

Definition Quiet {A : Type} (m : M A) : Prop :=
  Sat (fun _ _ evs => no_store evs) m.

Lemma quiet_state (c c' : Core Srv) : server c' = server c -> no_store [].
Proof. constructor. Qed.

Lemma quiet_trans (c c1 c2 : Core Srv) e1 e2 :
  no_store e1 -> no_store e2 -> no_store (e1 ++ e2).
Proof. intros H1 H2. apply Forall_app. auto. Qed.

Lemma quiet_call h cmd (c : Core Srv) r c' evs :
  is_store cmd = false -> call h cmd c = (r, c', evs) -> no_store evs.
Proof.
  intros Hc H. apply call_inv in H. destruct H as (-> & _).
  constructor; [exact Hc | constructor].
Qed.

Ltac quiet lemma :=
  exact (lemma (fun _ _ evs => no_store evs)
               quiet_state quiet_trans quiet_call).

Lemma Quiet_ensure_connection : Quiet ensure_connection.
Proof. quiet Sat_ensure_connection. Qed.

Lemma Quiet_get_connection : Quiet get_connection.
Proof. quiet Sat_get_connection. Qed.

Lemma Quiet_select_folder name : Quiet (select_folder name).
Proof. quiet (fun R a b c => Sat_select_folder R a b c name). Qed.

Lemma Quiet_search_old_emails_multiple_folders cutoff folders :
  Quiet (search_old_emails_multiple_folders cutoff folders).
Proof.
  quiet (fun R a b c =>
           Sat_search_old_emails_multiple_folders R a b c cutoff folders).
Qed.

Lemma Quiet_find_old_emails cutoff folders :
  Quiet (find_old_emails cutoff folders).
Proof. quiet (fun R a b c => Sat_find_old_emails R a b c cutoff folders). Qed.

Lemma Quiet_preview ids : Quiet (preview ids).
Proof. quiet (fun R a b c => Sat_preview R a b c ids). Qed.

Lemma Quiet_expunge_if_any n : Quiet (expunge_if_any n).
Proof. quiet (fun R a b c => Sat_expunge_if_any R a b c n). Qed.

Lemma Quiet_get_gmail_source_folders : Quiet get_gmail_source_folders.
Proof. quiet Sat_get_gmail_source_folders. Qed.

(** ** Connecting and selecting *)

Lemma ends_selecting_app h mailbox e1 e2 :
  ends_selecting h mailbox e2 -> ends_selecting h mailbox (e1 ++ e2).
Proof.
  intros (pre & r & -> & Hr). exists (e1 ++ pre), r.
  rewrite app_assoc. auto.
Qed.

Lemma selected_ok_reply_ok r : selected_ok r = true -> reply_ok r = true.
Proof. destruct r as [typ [ | [n | ] | | | ] | ]; simpl; congruence. Qed.

Lemma connect_inv (c : Core Srv) c' evs :
  connect c = (true, c', evs) ->
  exists h, connection c' = Some h /\ ends_selecting h "INBOX" evs.
Proof.
  intros H. unfold connect in H.
  minv_as H h0 c0 e0 e0' Hnew H.
  inversion Hnew; subst; clear Hnew.
  minv_as H r1 c1 e1 e1' Hopen H.
  apply call_inv in Hopen. destruct Hopen as (-> & _).
  destruct r1 as [typ1 d1 | b]; [ | rdisc H].
  minv_as H u c2 e2 e2' Hset H.
  inversion Hset; subst; clear Hset.
  minv_as H r3 c3 e3 e3' Hlogin H.
  apply call_inv in Hlogin. destruct Hlogin as (-> & Hc3 & _).
  destruct r3 as [typ3 d3 | b]; [ | rdisc H].
  destruct (is_OK typ3); [ | rdisc H].
  minv_as H r4 c4 e4 e4' Hsel H.
  apply call_inv in Hsel. destruct Hsel as (-> & Hc4 & _).
  apply ret_inv in H. destruct H as (Hok & -> & ->).
  exists (S (created c)). split.
  - rewrite Hc4, Hc3. reflexivity.
  - simpl. exists [mkEvent (S (created c)) IMAP4_SSL (Returned typ1 d1);
                   mkEvent (S (created c)) Login (Returned typ3 d3)], r4.
    split; [reflexivity | symmetry; exact Hok].
Qed.

Lemma ensure_connection_inv (c : Core Srv) c' evs :
  ensure_connection c = (true, c', evs) ->
  exists h, connection c' = Some h
            /\ (ends_selecting h "INBOX" evs
                \/ (connection c = Some h
                    /\ exists r, evs = [mkEvent h Noop r])).
Proof.
  intros H. unfold ensure_connection in H.
  minv_as H conn c0 e0 e0' Hget H.
  inversion Hget; subst; clear Hget. simpl.
  destruct (connection c0) as [h | ] eqn:Hc.
  - minv_as H r1 c1 e1 e1' Hnoop H.
    apply call_inv in Hnoop. destruct Hnoop as (-> & Hc1 & _).
    assert (Hre : (_ <- disconnect ;; connect) c1 = (true, c', e1') ->
                  exists h0, connection c' = Some h0
                             /\ (ends_selecting h0 "INBOX"
                                   ([mkEvent h Noop r1] ++ e1')
                                 \/ (Some h = Some h0
                                     /\ exists r, [mkEvent h Noop r1] ++ e1'
                                                  = [mkEvent h0 Noop r]))).
    { intros Hd. minv_as Hd b c2 e2 e2' Hdis Hd. apply connect_inv in Hd.
      destruct Hd as (h0 & Hc' & Hs). exists h0. split; [exact Hc' | left].
      apply ends_selecting_app, ends_selecting_app. exact Hs. }
    destruct r1 as [typ d | b]; [ | auto].
    destruct (is_OK typ); [ | auto].
    rinv H. exists h. split; [congruence | right]. split; [reflexivity | ].
    exists (Returned typ d). reflexivity.
  - apply connect_inv in H. destruct H as (h & Hc' & Hs).
    exists h. auto.
Qed.

Lemma try_select_inv name (c : Core Srv) ok c' evs :
  try_select name c = (ok, c', evs) ->
  connection c' = connection c
  /\ ((exists h r, connection c = Some h
                   /\ evs = [mkEvent h (Select name) r]
                   /\ ok = selected_ok r
                   /\ imap h (Select name) (server c) = (r, server c'))
      \/ (connection c = None /\ ok = false /\ evs = [] /\ c' = c)).
Proof.
  intros H. unfold try_select in H.
  minv_as H r c1 e1 e1' Hcall H.
  apply ret_inv in H. destruct H as (-> & -> & ->). rewrite app_nil_r.
  unfold call_self in Hcall. destruct (connection c) as [h | ] eqn:Hc.
  - apply call_inv in Hcall. destruct Hcall as (-> & Hc' & _ & _ & Hi).
    split; [congruence | left]. exists h, r. auto.
  - inversion Hcall; subst. split; [assumption | right]. auto.
Qed.

Section Mailboxes.
(** A server on which the mailboxes that exist are fixed and a select
    succeeds exactly on those. *)
Variable has_mailbox : Srv -> string -> bool.
Hypothesis mailboxes_stay :
  forall h cmd s name, has_mailbox (snd (imap h cmd s)) name = has_mailbox s name.
Hypothesis select_finds :
  forall h s name, selected_ok (fst (imap h (Select name) s)) = has_mailbox s name.

Definition same_mailboxes (c c' : Core Srv) : Prop :=
  forall name, has_mailbox (server c') name = has_mailbox (server c) name.

Lemma same_mailboxes_ensure_connection (c : Core Srv) ok c' evs :
  ensure_connection c = (ok, c', evs) -> same_mailboxes c c'.
Proof.
  apply (Sat_ensure_connection (fun c c' _ => same_mailboxes c c')).
  - intros c0 c1 Hs name. now rewrite Hs.
  - intros c0 c1 c2 _ _ H1 H2 name. now rewrite H2, H1.
  - intros h cmd c0 r c1 e _ H name. apply call_inv in H.
    destruct H as (_ & _ & _ & _ & Hi).
    pose proof (mailboxes_stay h cmd (server c0) name) as Hm.
    rewrite Hi in Hm. exact Hm.
Qed.

Lemma try_variations_on_server vs :
  forall (c : Core Srv) h ok c' evs,
    connection c = Some h ->
    try_variations vs c = (ok, c', evs) ->
    ok = existsb (has_mailbox (server c)) vs
    /\ map ev_cmd evs = map Select (tried (has_mailbox (server c)) vs)
    /\ map (fun e => selected_ok (ev_reply e)) evs
       = map (has_mailbox (server c)) (tried (has_mailbox (server c)) vs).
Proof.
  induction vs as [ | v vs IH]; intros c h ok c' evs Hc H; simpl in H.
  - rinv H. auto.
  - minv_as H ok1 c1 e1 e1' Htry H. apply try_select_inv in Htry.
    destruct Htry as (Hc1 & [(h0 & r & Hh & -> & -> & Hi) | (Hn & _)]);
      [ | congruence].
    pose proof (select_finds h0 (server c) v) as Hsel. rewrite Hi in Hsel.
    simpl in Hsel. simpl. rewrite <- Hsel.
    destruct (selected_ok r) eqn:Hr.
    + rinv H. simpl. rewrite <- Hsel. auto.
    + assert (Hsame : forall name, has_mailbox (server c1) name
                                   = has_mailbox (server c) name).
      { intros name.
        pose proof (mailboxes_stay h0 (Select v) (server c) name) as Hm.
        rewrite Hi in Hm. exact Hm. }
      destruct (IH c1 h ok c' e1' (eq_trans Hc1 Hc) H) as (-> & Hcmd & Hrep).
      simpl. rewrite Hcmd, Hrep, <- Hsel.
      rewrite (existsb_ext _ _ Hsame), (tried_ext _ _ Hsame).
      repeat split. f_equal. apply map_ext. exact Hsame.
Qed.

(** C7. On a server whose mailboxes are fixed and where select succeeds
    exactly on a mailbox that exists, with the session alive,
    [select_folder] tries the exact name first and then the alternate
    spellings of the table in their order, stops at the first one that
    exists, and returns true exactly when the name or one of its alternates
    exists on the server (so also when the canonical name does not); it
    returns false only after every spelling has been refused. *)
Theorem select_folder_tries_alternates :
  forall (folder_name : string) (c : Core Srv),
    fst (fst (ensure_connection c)) = true ->
    let candidates := folder_name :: folder_variations folder_name in
    let on_server := has_mailbox (server c) in
    let '(ok, _, evs) := select_folder folder_name c in
    ok = existsb on_server candidates
    /\ exists attempts,
        evs = snd (ensure_connection c) ++ attempts
        /\ map ev_cmd attempts = map Select (tried on_server candidates)
        /\ map (fun e => selected_ok (ev_reply e)) attempts
           = map on_server (tried on_server candidates).
Proof.
  intros folder_name c Halive candidates on_server.
  destruct (select_folder folder_name c) as [[ok c'] evs] eqn:H.
  unfold select_folder in H.
  minv_as H alive c1 e1 e1' Hens H. rewrite Hens in Halive |- *.
  simpl in Halive. subst alive. simpl snd.
  pose proof (same_mailboxes_ensure_connection _ _ _ _ Hens) as Hsame.
  destruct (ensure_connection_inv _ _ _ Hens) as (h & Hh & _).
  assert (Hgo : try_variations candidates c1 = (ok, c', e1')) by exact H.
  destruct (try_variations_on_server _ _ _ _ _ _ Hh Hgo) as (-> & Hcmd & Hrep).
  unfold on_server.
  rewrite (existsb_ext _ _ Hsame), (tried_ext _ _ Hsame) in *.
  split; [reflexivity | ]. exists e1'. repeat split; auto.
  rewrite Hrep. apply map_ext. exact Hsame.
Qed.

End Mailboxes.

(** ** The source folders of the redirection *)

Lemma add_patterns_In f patterns all_folders source_folders :
  In f (add_patterns patterns all_folders source_folders)
  <-> In f source_folders \/ (In f patterns /\ In f all_folders).
Proof.
  revert source_folders.
  induction patterns as [ | p ps IH]; intros src; simpl.
  - tauto.
  - destruct (mem p all_folders) eqn:Hp; rewrite IH.
    + apply mem_In in Hp. rewrite in_app_iff. simpl.
      split; [intros [[H | [<- | []]] | H] | intros [H | [[<- | H] H']]]; tauto.
    + assert (~ In p all_folders) by (rewrite <- mem_In; congruence).
      split; [tauto | intros [H' | [[<- | H'] H'']]; tauto].
Qed.

Definition custom_folder (folder : string) : bool :=
  negb (startswith "[Gmail]" folder)
  && negb (startswith "[Google Mail]" folder)
  && negb (String.eqb folder "INBOX").

Lemma add_custom_In f folders source_folders :
  In f (add_custom folders source_folders)
  <-> In f source_folders \/ (In f folders /\ custom_folder f = true).
Proof.
  revert source_folders.
  induction folders as [ | x xs IH]; intros src; simpl.
  - tauto.
  - fold (custom_folder x).
    destruct (custom_folder x) eqn:Hx; simpl.
    + destruct (mem x src) eqn:Hm; simpl; rewrite IH.
      * apply mem_In in Hm.
        split; [tauto | intros [H | [[<- | H] H']]; tauto].
      * rewrite in_app_iff. simpl.
        split; [intros [[H | [<- | []]] | H] | intros [H | [[<- | H] H']]]; tauto.
    + rewrite IH.
      split; [tauto | intros [H | [[<- | H] H']]; [tauto | congruence | tauto]].
Qed.

Lemma custom_folder_spec f :
  custom_folder f = true <-> is_gmail_prefixed f = false /\ f <> "INBOX".
Proof.
  unfold custom_folder, is_gmail_prefixed.
  destruct (startswith "[Gmail]" f), (startswith "[Google Mail]" f);
    destruct (String.eqb_spec f "INBOX"); simpl; split;
    intros; try tauto; try discriminate; intuition congruence.
Qed.

Lemma source_folders_of_In f all_folders :
  In f (source_folders_of all_folders)
  <-> In f all_folders
      /\ (f = "INBOX" \/ In f gmail_source_patterns
          \/ is_gmail_prefixed f = false).
Proof.
  unfold source_folders_of. rewrite add_custom_In, add_patterns_In.
  rewrite custom_folder_spec. unfold add_inbox.
  destruct (mem "INBOX" all_folders) eqn:Hi.
  - apply mem_In in Hi. simpl.
    destruct (String.eqb_spec f "INBOX") as [-> | Hne];
      split; intros; intuition (subst; auto; congruence).
  - assert (~ In "INBOX" all_folders) by (rewrite <- mem_In; congruence).
    simpl. destruct (String.eqb_spec f "INBOX") as [-> | Hne];
      split; intros; intuition (subst; auto; congruence).
Qed.

(** C3 (amended). The source folders of the redirection are: INBOX when
    the server lists it; those of Sent Mail, Drafts and Spam, under the
    [Gmail] or [Google Mail] prefix, that the server lists; and the listed
    folders that carry neither prefix.  Every other folder under one of the
    two prefixes is left out, and with it the folders [Gmail]/All Mail and
    [Google Mail]/All Mail.  (The statement is about folders whose name is
    not an All Mail spelling; the two prefixed spellings are covered by the
    exclusion.)  [get_gmail_source_folders] computes this list from what
    [list_folders] returns. *)
Theorem source_folders_characterised :
  forall all_folders : list string,
    (forall f, is_gmail_all_mail_folder f = false ->
               (In f (source_folders_of all_folders)
                <-> In f all_folders
                    /\ (f = "INBOX" \/ In f gmail_source_patterns
                        \/ is_gmail_prefixed f = false)))
    /\ (forall f, is_gmail_prefixed f = true ->
                  ~ In f gmail_source_patterns ->
                  ~ In f (source_folders_of all_folders))
    /\ ~ In "[Gmail]/All Mail" (source_folders_of all_folders)
    /\ ~ In "[Google Mail]/All Mail" (source_folders_of all_folders)
    /\ (forall c : Core Srv,
           fst (fst (get_gmail_source_folders c))
           = source_folders_of (fst (fst (list_folders c)))).
Proof.
  intros all_folders.
  assert (Hex : forall f, is_gmail_prefixed f = true ->
                          ~ In f gmail_source_patterns ->
                          ~ In f (source_folders_of all_folders)).
  { intros f Hp Hn Hin. apply source_folders_of_In in Hin.
    destruct Hin as (_ & [-> | [H | H]]);
      [discriminate Hp | contradiction | congruence]. }
  split; [intros f _; apply source_folders_of_In | ].
  split; [exact Hex | ].
  split; [ | split ].
  - apply Hex; [reflexivity | ].
    simpl. intros H. repeat (destruct H as [H | H]; [discriminate H | ]). exact H.
  - apply Hex; [reflexivity | ].
    simpl. intros H. repeat (destruct H as [H | H]; [discriminate H | ]). exact H.
  - intros c. unfold get_gmail_source_folders, bind.
    destruct (list_folders c) as [[all c1] e1]. reflexivity.
Qed.

(** ** Shapes of the elementary methods *)

Lemma stores_no_store evs : no_store evs -> stores evs = [].
Proof.
  induction 1 as [ | e evs He _ IH]; [reflexivity | ].
  unfold stores in *. simpl. rewrite He. exact IH.
Qed.

Lemma stores_app a b : stores (a ++ b) = stores a ++ stores b.
Proof. unfold stores. apply filter_app. Qed.

Lemma get_connection_inv (c : Core Srv) conn c1 evs :
  get_connection c = (conn, c1, evs) ->
  no_store evs /\ (conn = None \/ conn = connection c1).
Proof.
  intros H. split; [exact (Quiet_get_connection _ _ _ _ H) | ].
  unfold get_connection in H. minv H. destruct a.
  - inversion Hk; subst. now right.
  - rinv Hk. now left.
Qed.

(** The one place where [delete_emails_bulk] talks to the server. *)
Lemma delete_emails_bulk_inv (email_ids : list string) (c : Core Srv) n c' evs :
  delete_emails_bulk email_ids c = (n, c', evs) ->
  exists conn c1 pre,
    get_connection c = (conn, c1, pre)
    /\ match conn, email_ids with
       | Some h, _ :: _ =>
           exists r, evs = pre ++ [mkEvent h (store_deleted email_ids) r]
                     /\ n = if reply_ok r then List.length email_ids else 0
       | _, _ => evs = pre /\ n = 0 /\ c' = c1
       end.
Proof.
  intros H. unfold delete_emails_bulk in H. minv H.
  exists a, c0, ea. split; [exact Hm | ].
  destruct a as [h | ].
  - destruct email_ids as [ | x ids].
    + rinv Hk. rewrite app_nil_r. auto.
    + minv Hk. pose proof (call_inv _ _ _ _ _ _ Hm0) as (-> & _).
      exists a.
      destruct a as [typ d | b]; simpl.
      * destruct (is_OK typ); rinv Hk0; auto.
      * rinv Hk0. auto.
  - rinv Hk. rewrite app_nil_r. destruct email_ids; auto.
Qed.

(** What [delete_emails_bulk] does, as one equation: after the liveness
    check, with a connection and a non-empty list, exactly one store, whose
    reply decides the result. *)
Lemma delete_emails_bulk_exact (email_ids : list string) (c : Core Srv) :
  delete_emails_bulk email_ids c
  = let '(conn, c1, pre) := get_connection c in
    match conn, email_ids with
    | Some h, _ :: _ =>
        let '(r, s) := imap h (store_deleted email_ids) (server c1) in
        (if reply_ok r then List.length email_ids else 0,
         mkCore (connection c1) (created c1) s (emails_deleted c1),
         pre ++ [mkEvent h (store_deleted email_ids) r])
    | _, _ => (0, c1, pre)
    end.
Proof.
  unfold delete_emails_bulk, bind.
  destruct (get_connection c) as [[conn c1] pre].
  destruct conn as [h | ]; [ | simpl; rewrite app_nil_r; reflexivity].
  destruct email_ids as [ | x ids]; [simpl; rewrite app_nil_r; reflexivity | ].
  unfold call.
  destruct (imap h (store_deleted (x :: ids)) (server c1)) as [r s].
  destruct r as [typ d | b]; simpl; [destruct (is_OK typ) | ]; reflexivity.
Qed.

(** C9. [delete_emails_bulk] returns the full length of the list or zero,
    never a count in between.  With a connection after the liveness check
    and a non-empty list it sends the store command, and the result is the
    full length when the server answers the store with OK and zero when it
    answers anything else or the call raises; a nonzero result equals the
    number of identifiers requested and comes with an OK reply; the result
    is zero for an empty list and without a connection. *)
Theorem delete_emails_bulk_all_or_nothing :
  forall (email_ids : list string) (c : Core Srv),
    let '(n, c', evs) := delete_emails_bulk email_ids c in
    (n = List.length email_ids \/ n = 0)
    /\ (n <> 0 ->
        n = List.length email_ids
        /\ exists h pre r,
            evs = pre ++ [mkEvent h (store_deleted email_ids) r]
            /\ reply_ok r = true)
    /\ (email_ids = [] -> n = 0)
    /\ (fst (fst (get_connection c)) = None -> n = 0)
    /\ (forall e, In e evs -> is_store (ev_cmd e) = true ->
                  reply_ok (ev_reply e) = false -> n = 0)
    /\ (forall e, In e evs -> is_store (ev_cmd e) = true ->
                  reply_ok (ev_reply e) = true -> n = List.length email_ids)
    /\ (forall h,
           fst (fst (get_connection c)) = Some h -> email_ids <> [] ->
           exists r,
             imap h (store_deleted email_ids)
                  (server (snd (fst (get_connection c))))
             = (r, server c')
             /\ evs = snd (get_connection c)
                        ++ [mkEvent h (store_deleted email_ids) r]
             /\ (reply_ok r = true -> n = List.length email_ids)
             /\ (reply_ok r = false -> n = 0)).
Proof.
  intros email_ids c. rewrite delete_emails_bulk_exact.
  destruct (get_connection c) as [[conn c1] pre] eqn:Hg.
  destruct (get_connection_inv _ _ _ _ Hg) as (Hq & _).
  assert (Hpre : forall e, In e pre -> is_store (ev_cmd e) = true -> False).
  { intros e Hin Hst. unfold no_store in Hq. rewrite Forall_forall in Hq.
    rewrite (Hq _ Hin) in Hst. discriminate. }
  cbn [fst snd].
  assert (Hzero : (0 = List.length email_ids \/ 0 = 0)
                  /\ (0 <> 0 ->
                      0 = List.length email_ids
                      /\ exists h pre0 r,
                          pre = pre0 ++ [mkEvent h (store_deleted email_ids) r]
                          /\ reply_ok r = true)
                  /\ (email_ids = [] -> 0 = 0)
                  /\ (conn = None -> 0 = 0)
                  /\ (forall e, In e pre -> is_store (ev_cmd e) = true ->
                                reply_ok (ev_reply e) = false -> 0 = 0)
                  /\ (forall e, In e pre -> is_store (ev_cmd e) = true ->
                                reply_ok (ev_reply e) = true ->
                                0 = List.length email_ids)).
  { split; [now right | ]. split; [congruence | ]. split; [auto | ].
    split; [auto | ]. split; [auto | ].
    intros e Hin Hst. destruct (Hpre e Hin Hst). }
  destruct conn as [h | ]; [destruct email_ids as [ | x ids] | ].
  - destruct Hzero as (H1 & H2 & H3 & H4 & H5 & H6).
    repeat (split; [assumption | ]). intros h' _ Hne. contradiction.
  - destruct (imap h (store_deleted (x :: ids)) (server c1)) as [r s] eqn:Hi.
    destruct (reply_ok r) eqn:Hr.
    + split; [now left | ].
      split; [intros _; split; [reflexivity | exists h, pre, r; auto] | ].
      split; [discriminate | ]. split; [discriminate | ].
      split.
      { intros e Hin Hst Hno. apply in_app_or in Hin.
        destruct Hin as [Hin | [<- | []]]; [destruct (Hpre e Hin Hst) | ].
        simpl in Hno. congruence. }
      split; [auto | ].
      intros h' Hh _. inversion Hh; subst h'. exists r.
      split; [first [exact Hi | reflexivity] | ]. split; [reflexivity | ].
      split; [auto | congruence].
    + split; [now right | ]. split; [congruence | ].
      split; [auto | ]. split; [auto | ]. split; [auto | ].
      split.
      { intros e Hin Hst Hyes. apply in_app_or in Hin.
        destruct Hin as [Hin | [<- | []]]; [destruct (Hpre e Hin Hst) | ].
        simpl in Hyes. congruence. }
      intros h' Hh _. inversion Hh; subst h'. exists r.
      split; [first [exact Hi | reflexivity] | ]. split; [reflexivity | ].
      split; [congruence | auto].
  - destruct Hzero as (H1 & H2 & H3 & H4 & H5 & H6).
    repeat (split; [assumption | ]). intros h' Hh. discriminate.
Qed.

(** C6 (amended). For a non-empty identifier list [delete_emails_bulk]
    makes one round trip: when the liveness check leaves a connection it
    sends exactly one store command on it, which carries all the
    identifiers, joined by commas, with the deleted flag, and the result is
    the number of identifiers requested when the server's reply to it is OK
    and zero when it is not; without a connection no store is sent and the
    result is zero.  What the server marked is not counted, and nothing is
    sent a second time. *)
Theorem delete_emails_bulk_single_store :
  forall (email_ids : list string) (c : Core Srv),
    email_ids <> [] ->
    let '(n, c', evs) := delete_emails_bulk email_ids c in
    List.length (stores evs) <= 1
    /\ (forall e, In e (stores evs) ->
                  ev_cmd e = Store (join "," email_ids) "+FLAGS" "\Deleted"
                  /\ n = if reply_ok (ev_reply e)
                         then List.length email_ids else 0)
    /\ (stores evs = [] -> n = 0)
    /\ (forall h,
           fst (fst (get_connection c)) = Some h ->
           exists r,
             imap h (Store (join "," email_ids) "+FLAGS" "\Deleted")
                  (server (snd (fst (get_connection c))))
             = (r, server c')
             /\ stores evs
                = [mkEvent h (Store (join "," email_ids) "+FLAGS" "\Deleted") r]
             /\ n = if reply_ok r then List.length email_ids else 0)
    /\ (fst (fst (get_connection c)) = None -> stores evs = [] /\ n = 0).
Proof.
  intros email_ids c Hne. rewrite delete_emails_bulk_exact.
  destruct (get_connection c) as [[conn c1] pre] eqn:Hg.
  destruct (get_connection_inv _ _ _ _ Hg) as (Hq & _).
  apply stores_no_store in Hq. cbn [fst snd].
  destruct conn as [h | ]; [destruct email_ids as [ | x ids]; [congruence | ] | ].
  - change (Store (join "," (x :: ids)) "+FLAGS" "\Deleted")
      with (store_deleted (x :: ids)).
    destruct (imap h (store_deleted (x :: ids)) (server c1)) as [r s] eqn:Hi.
    rewrite stores_app, Hq. unfold stores. simpl.
    split; [lia | ]. split; [intros e [<- | []]; simpl; auto | ].
    split; [discriminate | ]. split; [ | discriminate].
    intros h' Hh. inversion Hh; subst h'. exists r. auto.
  - rewrite Hq. simpl.
    split; [lia | ]. split; [contradiction | ]. split; [reflexivity | ].
    split; [discriminate | auto].
Qed.

Lemma length_substring_0 (n : nat) (s : string) :
  n <= String.length s -> String.length (String.substring 0 n s) = n.
Proof.
  revert s. induction n as [ | n IH]; intros s H.
  - destruct s; reflexivity.
  - destruct s as [ | c s]; simpl in *; [lia | ]. rewrite IH; lia.
Qed.

Lemma length_append (a b : string) :
  String.length (a ++ b) = String.length a + String.length b.
Proof. induction a; simpl; congruence. Qed.


(** ** Which mailbox is selected when a store is sent *)

Lemma sel_from_app h sel a b :
  sel_from h sel (a ++ b) = sel_from h (sel_from h sel a) b.
Proof. unfold sel_from. apply fold_left_app. Qed.

Lemma ends_selecting_sel h mailbox evs sel :
  ends_selecting h mailbox evs -> sel_from h sel evs = Some mailbox.
Proof.
  intros (pre & r & -> & Hr). rewrite sel_from_app. simpl.
  rewrite Nat.eqb_refl. unfold sel_step. simpl.
  now rewrite (selected_ok_reply_ok _ Hr).
Qed.

Lemma deletes_avoid_app past a b :
  deletes_avoid_all_mail past (a ++ b)
  = deletes_avoid_all_mail past a && deletes_avoid_all_mail (past ++ a) b.
Proof.
  revert past. induction a as [ | e a IH]; intros past; simpl.
  - now rewrite app_nil_r.
  - rewrite IH, <- app_assoc. simpl. now rewrite andb_assoc.
Qed.

Lemma is_store_deleted_is_store cmd :
  is_store cmd = false -> is_store_deleted cmd = false.
Proof. destruct cmd; simpl; congruence. Qed.

Lemma no_store_avoids past evs :
  no_store evs -> deletes_avoid_all_mail past evs = true.
Proof.
  intros H. revert past. induction H as [ | e evs He _ IH]; intros past; simpl.
  - reflexivity.
  - rewrite (is_store_deleted_is_store _ He), IH. reflexivity.
Qed.

Lemma get_connection_sel (c : Core Srv) h c1 evs :
  get_connection c = (Some h, c1, evs) ->
  connection c1 = Some h
  /\ no_store evs
  /\ (ends_selecting h "INBOX" evs
      \/ (connection c = Some h /\ exists r, evs = [mkEvent h Noop r])).
Proof.
  intros H. pose proof (Quiet_get_connection _ _ _ _ H) as Hq.
  unfold get_connection in H. minv_as H ok c0 e0 e0' Hens H.
  destruct ok; [ | rdisc H].
  inversion H; subst; clear H. rewrite app_nil_r in *.
  destruct (ensure_connection_inv _ _ _ Hens) as (h' & Hc & Hs).
  assert (h' = h) by congruence. subst h'.
  split; [reflexivity | ]. split; [exact Hq | ].
  destruct Hs as [Hs | (Hs & Hr)]; [now left | right].
  split; [congruence | exact Hr].
Qed.

(** A store sent by [delete_emails_bulk] finds selected what was selected
    before, or INBOX after a reconnection. *)
Lemma delete_emails_bulk_safe past email_ids (c : Core Srv) n c' evs :
  delete_emails_bulk email_ids c = (n, c', evs) ->
  (forall h, connection c = Some h ->
             on_all_mail (selected_on h past) = false) ->
  deletes_avoid_all_mail past evs = true.
Proof.
  intros H Hsel.
  destruct (delete_emails_bulk_inv _ _ _ _ _ H) as (conn & c1 & pre & Hg & Hs).
  destruct conn as [h | ]; [destruct email_ids as [ | x ids] | ].
  - destruct Hs as (-> & _). destruct (get_connection_sel _ _ _ _ Hg) as (_ & Hq & _).
    now apply no_store_avoids.
  - destruct Hs as (r & -> & _).
    destruct (get_connection_sel _ _ _ _ Hg) as (_ & Hq & Hcase).
    rewrite deletes_avoid_app, (no_store_avoids _ _ Hq). simpl.
    rewrite andb_true_r. apply negb_true_iff.
    unfold selected_on. rewrite sel_from_app.
    destruct Hcase as [Hi | (Hc & r' & ->)].
    + rewrite (ends_selecting_sel _ _ _ _ Hi). reflexivity.
    + simpl. rewrite Nat.eqb_refl. unfold sel_step. simpl.
      exact (Hsel h Hc).
  - destruct Hs as (-> & _).
    apply no_store_avoids. exact (proj1 (get_connection_inv _ _ _ _ Hg)).
Qed.

Lemma try_variations_sel vs :
  forall (c : Core Srv) c' evs,
    try_variations vs c = (true, c', evs) ->
    exists h m, connection c' = Some h /\ In m vs /\ ends_selecting h m evs.
Proof.
  induction vs as [ | v vs IH]; intros c c' evs H; simpl in H.
  - rdisc H.
  - minv_as H ok c1 e1 e1' Htry H. apply try_select_inv in Htry.
    destruct ok.
    + rinv H.
      destruct Htry as (Hc1 & [(h & r & Hh & -> & Hok & _) | (_ & Hf & _)]);
        [ | discriminate].
      exists h, v. split; [congruence | ]. split; [now left | ].
      exists [], r. rewrite app_nil_r. auto.
    + destruct (IH _ _ _ H) as (h & m & Hc & Hin & Hs).
      exists h, m. split; [exact Hc | ]. split; [now right | ].
      now apply ends_selecting_app.
Qed.

Lemma select_folder_sel folder (c : Core Srv) c' evs :
  select_folder folder c = (true, c', evs) ->
  exists h m, connection c' = Some h
              /\ In m (folder :: folder_variations folder)
              /\ ends_selecting h m evs.
Proof.
  intros H. unfold select_folder in H.
  minv_as H alive c1 e1 e1' Hens H.
  destruct alive; [ | rdisc H].
  change (try_variations (folder :: folder_variations folder) c1
          = (true, c', e1')) in H.
  destruct (try_variations_sel _ _ _ _ H) as (h & m & Hc & Hin & Hs).
  exists h, m. split; [exact Hc | ]. split; [exact Hin | ].
  now apply ends_selecting_app.
Qed.

(** The loop of the true deletion is safe on folders none of whose
    spellings is an All Mail spelling. *)
Lemma true_gmail_loop_safe groups :
  Forall (fun g => good_folder (fst g) = true) groups ->
  forall total (c : Core Srv) past n c' evs,
    true_gmail_loop groups total c = (n, c', evs) ->
    deletes_avoid_all_mail past evs = true.
Proof.
  induction 1 as [ | [folder ids] groups Hg _ IH];
    intros total c past n c' evs H; simpl in H.
  - rinv H. reflexivity.
  - minv_as H ok c1 e1 e1' Hsel H.
    rewrite deletes_avoid_app,
      (no_store_avoids _ _ (Quiet_select_folder _ _ _ _ _ Hsel)).
    simpl. destruct ok; [ | eauto].
    minv_as H cnt c2 e2 e2' Hdel H.
    minv_as H u c3 e3 e3' Hexp H.
    destruct (select_folder_sel _ _ _ _ Hsel) as (h & m & Hc & Hin & Hs).
    rewrite !deletes_avoid_app.
    rewrite (delete_emails_bulk_safe _ _ _ _ _ _ Hdel).
    + rewrite (no_store_avoids _ _ (Quiet_expunge_if_any _ _ _ _ _ Hexp)).
      simpl. eauto.
    + intros h' Hh'. assert (h' = h) by congruence. subst h'.
      unfold selected_on. rewrite sel_from_app, (ends_selecting_sel _ _ _ _ Hs).
      simpl in Hg. unfold good_folder in Hg. rewrite forallb_forall in Hg.
      apply negb_true_iff. exact (Hg _ Hin).
Qed.

(** ** Grouping the matches by folder *)

Definition group_size (groups : list (string * list string)) : nat :=
  list_sum (map (fun g => List.length (snd g)) groups).

Lemma group_add_Forall (P : string -> Prop) folder email_id groups :
  P folder ->
  Forall (fun g => P (fst g) /\ snd g <> []) groups ->
  Forall (fun g => P (fst g) /\ snd g <> []) (group_add folder email_id groups).
Proof.
  intros Hf H. induction H as [ | [f ids] groups [Hp Hn] Ht IH]; simpl.
  - constructor; [ | constructor]. simpl. split; [exact Hf | discriminate].
  - destruct (String.eqb f folder).
    + constructor; [ | exact Ht]. simpl. split; [exact Hp | ].
      destruct ids; discriminate.
    + constructor; [ | exact IH]. simpl. auto.
Qed.

Lemma group_add_size folder email_id groups :
  group_size (group_add folder email_id groups) = S (group_size groups).
Proof.
  unfold group_size. induction groups as [ | [f ids] groups IH]; simpl.
  - reflexivity.
  - destruct (String.eqb f folder); simpl.
    + rewrite length_app. simpl. lia.
    + rewrite IH. lia.
Qed.

Lemma group_fold (P : string -> Prop) pairs :
  (forall p, In p pairs -> P (snd p)) ->
  forall groups,
    Forall (fun g => P (fst g) /\ snd g <> []) groups ->
    Forall (fun g => P (fst g) /\ snd g <> [])
           (fold_left (fun groups p => group_add (snd p) (fst p) groups)
                      pairs groups)
    /\ group_size (fold_left (fun groups p => group_add (snd p) (fst p) groups)
                             pairs groups)
       = group_size groups + List.length pairs.
Proof.
  induction pairs as [ | p pairs IH]; intros Hp groups Hg; simpl.
  - split; [exact Hg | lia].
  - destruct (IH (fun q Hq => Hp q (or_intror Hq))
                 (group_add (snd p) (fst p) groups)) as (H1 & H2).
    + apply group_add_Forall; [apply Hp; now left | exact Hg].
    + split; [exact H1 | ]. rewrite H2, group_add_size. lia.
Qed.

Lemma group_size_bound g groups :
  In g groups -> List.length (snd g) <= group_size groups.
Proof.
  unfold group_size. induction groups as [ | x groups IH]; simpl; [tauto | ].
  intros [-> | H]; [lia | ]. specialize (IH H). lia.
Qed.

(** Every group is not empty, its folder is one of the folders of the
    pairs, and it is no larger than the list of pairs. *)
Lemma group_by_folder_groups (P : string -> Prop) pairs :
  (forall p, In p pairs -> P (snd p)) ->
  Forall (fun g => P (fst g) /\ snd g <> []
                   /\ List.length (snd g) <= List.length pairs)
         (group_by_folder pairs).
Proof.
  intros Hp. unfold group_by_folder.
  destruct (group_fold P pairs Hp [] (Forall_nil _)) as (H1 & H2).
  rewrite Forall_forall in *. intros g Hg.
  destruct (H1 g Hg) as (Ha & Hb). split; [exact Ha | ]. split; [exact Hb | ].
  pose proof (group_size_bound _ _ Hg) as Hle.
  rewrite H2 in Hle. simpl in Hle. exact Hle.
Qed.

Lemma search_multiple_folders_pairs cutoff folders :
  forall (c : Core Srv) pairs c' evs,
    search_old_emails_multiple_folders cutoff folders c = (pairs, c', evs) ->
    forall p, In p pairs -> In (snd p) folders.
Proof.
  induction folders as [ | f folders IH]; intros c pairs c' evs H p Hp;
    simpl in H.
  - rinv H. contradiction.
  - minv_as H ids c1 e1 e1' Hs H. minv_as H more c2 e2 e2' Hm H. rinv H.
    apply in_app_or in Hp. destruct Hp as [Hp | Hp].
    + apply in_map_iff in Hp. destruct Hp as (id & <- & _). now left.
    + right. eapply IH; eassumption.
Qed.

Lemma find_old_emails_pairs cutoff folders (c : Core Srv) pairs c' evs :
  find_old_emails cutoff folders c = (pairs, c', evs) ->
  forall p, In p pairs -> In (snd p) folders.
Proof.
  intros H p Hp. unfold find_old_emails in H.
  destruct folders as [ | f [ | g rest]].
  - eapply search_multiple_folders_pairs; eassumption.
  - minv_as H ids c1 e1 e1' Hs H. rinv H.
    apply in_map_iff in Hp. destruct Hp as (id & <- & _). now left.
  - eapply search_multiple_folders_pairs; eassumption.
Qed.

(** ** The folders the true deletion works on *)

Lemma insert_sorted_In f x l : In f (insert_sorted x l) <-> f = x \/ In f l.
Proof.
  induction l as [ | y l IH]; simpl.
  - intuition.
  - destruct (sort_key_le x y); simpl; [intuition | ].
    rewrite IH. intuition.
Qed.

Lemma sort_folders_In f l : In f (sort_folders l) <-> In f l.
Proof.
  unfold sort_folders. induction l as [ | x l IH]; simpl; [tauto | ].
  rewrite insert_sorted_In, IH. intuition.
Qed.

Lemma listings_ok_app a b :
  listings_ok (a ++ b) = listings_ok a && listings_ok b.
Proof. unfold listings_ok. apply forallb_app. Qed.

Lemma list_folders_inv (c : Core Srv) folders c' evs :
  list_folders c = (folders, c', evs) ->
  folders = []
  \/ exists pre h typ names,
      evs = pre ++ [mkEvent h ListFolders (Returned typ (DNames names))]
      /\ folders = sort_folders names.
Proof.
  intros H. unfold list_folders in H.
  minv_as H alive c1 e1 e1' Hens H.
  destruct alive; [ | rinv H; now left].
  minv_as H r c2 e2 e2' Hcall H.
  apply call_self_inv in Hcall.
  destruct Hcall as (_ & [(h & _ & ->) | (_ & -> & _)]); [ | rinv H; now left].
  destruct r as [typ [ | | | names | ] | b]; try (rinv H; now left).
  destruct (is_OK typ); rinv H; [ | now left].
  right. exists e1, h, typ, names. rewrite app_nil_r. auto.
Qed.

Lemma unprefixed_no_variations f :
  is_gmail_prefixed f = false -> folder_variations f = [].
Proof.
  intros H. unfold folder_variations, folder_variations_table.
  cbn [dict_get].
  repeat match goal with
         | |- context [String.eqb ?k f] =>
             destruct (String.eqb_spec k f) as [<- | _]; [discriminate H | ]
         end.
  reflexivity.
Qed.

Lemma source_folders_good names f :
  listing_ok names = true ->
  In f (source_folders_of (sort_folders names)) ->
  good_folder f = true.
Proof.
  intros Hok Hin. apply source_folders_of_In in Hin.
  destruct Hin as (Hall & [-> | [Hp | Hu]]).
  - reflexivity.
  - simpl in Hp.
    repeat (destruct Hp as [<- | Hp]; [reflexivity | ]). contradiction.
  - apply (proj1 (sort_folders_In _ _)) in Hall.
    unfold listing_ok in Hok. rewrite forallb_forall in Hok.
    specialize (Hok _ Hall). rewrite Hu, orb_false_r in Hok.
    unfold good_folder. rewrite (unprefixed_no_variations _ Hu). simpl.
    now rewrite Hok.
Qed.

Lemma get_gmail_source_folders_good (c : Core Srv) source_folders c' evs :
  get_gmail_source_folders c = (source_folders, c', evs) ->
  listings_ok evs = true ->
  Forall (fun f => good_folder f = true) source_folders.
Proof.
  intros H Hok. unfold get_gmail_source_folders in H.
  minv_as H listed c1 e1 e1' Hl H. rinv H. rewrite app_nil_r in Hok.
  apply Forall_forall. intros f Hf.
  destruct (list_folders_inv _ _ _ _ Hl)
    as [-> | (pre & h & typ & names & -> & ->)].
  - contradiction.
  - rewrite listings_ok_app in Hok. apply andb_true_iff in Hok.
    destruct Hok as (_ & Hok). simpl in Hok. rewrite andb_true_r in Hok.
    eapply source_folders_good; eassumption.
Qed.

(** The true deletion sends a store only after it selected one of the
    source folders. *)
Lemma true_gmail_safe cutoff (c : Core Srv) n c' evs :
  delete_old_emails_true_gmail cutoff c = (n, c', evs) ->
  listings_ok evs = true ->
  forall past, deletes_avoid_all_mail past evs = true.
Proof.
  intros H Hok past. unfold delete_old_emails_true_gmail in H.
  minv_as H srcs c1 e1 e1' Hsrc H.
  minv_as H pairs c2 e2 e2' Hsearch H.
  rewrite listings_ok_app in Hok. apply andb_true_iff in Hok.
  destruct Hok as (Hok & _).
  pose proof (get_gmail_source_folders_good _ _ _ _ Hsrc Hok) as Hgood.
  rewrite !deletes_avoid_app.
  rewrite (no_store_avoids _ _ (Quiet_get_gmail_source_folders _ _ _ _ Hsrc)).
  rewrite (no_store_avoids _ _
             (Quiet_search_old_emails_multiple_folders _ _ _ _ _ _ Hsearch)).
  simpl. destruct pairs as [ | p pairs]; [rinv H; reflexivity | ].
  minv_as H total c3 e3 e3' Hloop H.
  minv_as H u c4 e4 e4' Hset H. inversion Hset; subst. rinv H.
  simpl. rewrite app_nil_r.
  eapply true_gmail_loop_safe; [ | exact Hloop].
  rewrite Forall_forall in Hgood.
  pose proof (group_by_folder_groups
                (fun f => good_folder f = true) (p :: pairs)) as Hg.
  eapply Forall_impl; [ | apply Hg].
  - intros g (Ha & _). exact Ha.
  - intros q Hq. apply Hgood.
    eapply search_multiple_folders_pairs; eassumption.
Qed.

(** ** A folder set that holds only All Mail *)

Lemma group_by_folder_one f ids :
  ids <> [] ->
  group_by_folder (map (fun email_id => (email_id, f)) ids) = [(f, ids)].
Proof.
  destruct ids as [ | x ids]; [congruence | intros _].
  unfold group_by_folder. simpl.
  assert (Hgen : forall acc,
             fold_left (fun groups p => group_add (snd p) (fst p) groups)
                       (map (fun email_id => (email_id, f)) ids) [(f, acc)]
             = [(f, acc ++ ids)]).
  { induction ids as [ | y ids IH]; intros acc; simpl.
    - now rewrite app_nil_r.
    - rewrite String.eqb_refl, IH, <- app_assoc. reflexivity. }
  apply Hgen.
Qed.

(** The logged workflow on All Mail alone: either nothing is deleted, or
    the run is a search of All Mail and a preview, which send no store,
    followed by one run of the true deletion. *)
Lemma logging_all_mail_only cutoff f batch_size (c : Core Srv) r c' evs :
  is_gmail_all_mail_folder f = true ->
  delete_old_emails_with_logging cutoff [f] batch_size c = (r, c', evs) ->
  (r = Some 0 /\ no_store evs)
  \/ (fst (fst (search_old_emails cutoff f c)) <> []
      /\ exists pre c2 n c3 e,
          no_store pre
          /\ delete_old_emails_true_gmail cutoff c2 = (n, c3, e)
          /\ evs = pre ++ e
          /\ r = Some n).
Proof.
  intros Hf H. unfold delete_old_emails_with_logging in H.
  minv_as H pairs c1 e1 e1' Hfind H.
  pose proof (Quiet_find_old_emails _ _ _ _ _ _ Hfind) as Hq1.
  unfold find_old_emails in Hfind.
  minv_as Hfind ids c0 e0 e0' Hsearch Hfind. rinv Hfind.
  rewrite Hsearch. simpl fst.
  destruct ids as [ | x ids].
  - rinv H. left. split; [reflexivity | ]. now rewrite app_nil_r.
  - change (map (fun email_id => (email_id, f)) (x :: ids))
      with ((x, f) :: map (fun email_id => (email_id, f)) ids) in H.
    cbv iota in H.
    change ((x, f) :: map (fun email_id => (email_id, f)) ids)
      with (map (fun email_id => (email_id, f)) (x :: ids)) in H.
    rewrite group_by_folder_one in H by discriminate.
    minv_as H r1 c2 e2 e2' Hloop H. cbn [logging_loop] in Hloop.
    minv_as Hloop ok c3 e3 e3' Hsel Hloop.
    pose proof (Quiet_select_folder _ _ _ _ _ Hsel) as Hq3.
    destruct ok.
    + minv_as Hloop u c4 e4 e4' Hprev Hloop.
      pose proof (Quiet_preview _ _ _ _ _ Hprev) as Hq4.
      rewrite Hf in Hloop.
      minv_as Hloop n c5 e5 e5' Htrue Hloop. rinv Hloop.
      minv_as H u2 c6 e6 e6' Hset H. inversion Hset; subst. rinv H.
      right. split; [discriminate | ].
      exists ((e0 ++ []) ++ e3 ++ e4), c4, n, c5, e5.
      split; [ | split; [exact Htrue | split; [ | reflexivity]]].
      * apply Forall_app. split; [exact Hq1 | ].
        apply Forall_app. split; [exact Hq3 | exact Hq4].
      * rewrite !app_nil_r, <- !app_assoc. reflexivity.
    + rinv Hloop.
      minv_as H u2 c6 e6 e6' Hset H. inversion Hset; subst. rinv H.
      left. split; [reflexivity | ].
      rewrite !app_nil_r in *. apply Forall_app. split; [exact Hq1 | exact Hq3].
Qed.

(** ** The fast and the logged workflow on folders other than All Mail *)

Lemma effective_app a b : effective (a ++ b) = effective a ++ effective b.
Proof. unfold effective. apply filter_app. Qed.

Lemma stores_effective evs : stores (effective evs) = stores evs.
Proof.
  unfold stores, effective. induction evs as [ | e evs IH]; [reflexivity | ].
  simpl. destruct (ev_cmd e) eqn:Hcmd; simpl; rewrite ?Hcmd; simpl;
    rewrite IH; reflexivity.
Qed.

Lemma batches_one batch_size (email_ids : list string) :
  email_ids <> [] ->
  List.length email_ids <= batch_size ->
  batches (List.length email_ids) batch_size email_ids = [email_ids].
Proof.
  intros Hne Hle. destruct email_ids as [ | x ids]; [congruence | ].
  cbn [List.length batches].
  rewrite firstn_all2 by exact Hle. rewrite skipn_all2 by exact Hle.
  destruct (List.length ids); reflexivity.
Qed.

Section Readonly.
(** A server on which the liveness probe succeeds and changes nothing,
    and on which fetching a header changes nothing. *)
Hypothesis probe_ok :
  forall h s, exists d, imap h Noop s = (Returned "OK" d, s).
Hypothesis fetch_pure :
  forall h message_set message_parts s,
    snd (imap h (Fetch message_set message_parts) s) = s.

Lemma core_eta (c : Core Srv) :
  mkCore (connection c) (created c) (server c) (emails_deleted c) = c.
Proof. destruct c; reflexivity. Qed.

Lemma get_connection_alive (c : Core Srv) h :
  connection c = Some h ->
  exists evs, get_connection c = (Some h, c, evs) /\ effective evs = [].
Proof.
  intros Hc. destruct (probe_ok h (server c)) as [d Hd].
  exists ([mkEvent h Noop (Returned "OK" d)] ++ [] ++ []).
  split; [ | reflexivity].
  unfold get_connection, ensure_connection, bind, get_self_connection, call, ret.
  rewrite Hc, Hd. simpl. rewrite core_eta, Hc. reflexivity.
Qed.

Lemma get_email_metadata_readonly email_id (c : Core Srv) h :
  connection c = Some h ->
  exists md evs, get_email_metadata email_id c = (md, c, evs)
                 /\ effective evs = [].
Proof.
  intros Hc. destruct (get_connection_alive c h Hc) as (e1 & Hg & He1).
  unfold get_email_metadata, bind. rewrite Hg. unfold call.
  pose proof (fetch_pure h email_id "(RFC822.HEADER)" (server c)) as Hf.
  destruct (imap h (Fetch email_id "(RFC822.HEADER)") (server c)) as [r s'].
  simpl in Hf. subst s'. rewrite core_eta.
  destruct r as [typ [ | | | | subject sender date] | b];
    try (eexists _, _; split; [reflexivity | ];
         rewrite !effective_app, He1; reflexivity).
  destruct (is_OK typ);
    (eexists _, _; split; [reflexivity | ];
     rewrite !effective_app, He1; reflexivity).
Qed.

Lemma preview_readonly email_ids (c : Core Srv) h :
  connection c = Some h ->
  exists evs, preview email_ids c = (tt, c, evs) /\ effective evs = [].
Proof.
  intros Hc. induction email_ids as [ | x ids IH]; simpl.
  - exists []. split; reflexivity.
  - destruct (get_email_metadata_readonly x c h Hc) as (md & e1 & Hm & He1).
    destruct IH as (e2 & Hp & He2).
    exists (e1 ++ e2). unfold bind. rewrite Hm, Hp.
    split; [reflexivity | ]. now rewrite effective_app, He1, He2.
Qed.

Lemma loops_agree cutoff batch_size groups :
  Forall (fun g => is_gmail_all_mail_folder (fst g) = false
                   /\ snd g <> []
                   /\ List.length (snd g) <= batch_size) groups ->
  forall total (c : Core Srv) n1 c1 e1,
    fast_loop groups total c = (n1, c1, e1) ->
    exists e2,
      logging_loop cutoff batch_size groups total c = (Some n1, c1, e2)
      /\ effective e2 = effective e1.
Proof.
  induction 1 as [ | [folder ids] groups (Hf & Hne & Hle) _ IH];
    intros total c n1 c1 e1 H; cbn [fast_loop logging_loop] in *.
  - rinv H. exists []. split; reflexivity.
  - simpl in Hf, Hne, Hle.
    minv_as H ok c2 e2 e2' Hsel H.
    unfold bind at 1. rewrite Hsel.
    destruct ok.
    + destruct (select_folder_sel _ _ _ _ Hsel) as (h & m & Hc & _).
      destruct (preview_readonly (firstn 3 ids) c2 h Hc) as (ep & Hp & Hep).
      unfold bind at 1. rewrite Hp, Hf in *.
      assert (Hbs : (batch_size =? 0) = false).
      { apply Nat.eqb_neq. destruct ids; [congruence | simpl in Hle; lia]. }
      rewrite Hbs, (batches_one _ _ Hne Hle). cbn [delete_batches].
      minv_as H cnt c3 e3 e3' Hdel H.
      minv_as H u c4 e4 e4' Hexp H.
      destruct (IH _ _ _ _ _ H) as (er & Hr & Her).
      unfold bind. rewrite Hdel. unfold ret at 1.
      change (0 + cnt) with cnt. rewrite Hexp, Hr.
      eexists. split; [reflexivity | ].
      rewrite !effective_app, Hep, Her. simpl.
      rewrite !app_nil_r. reflexivity.
    + destruct (IH _ _ _ _ _ H) as (er & Hr & Her).
      rewrite Hr. eexists. split; [reflexivity | ].
      now rewrite !effective_app, Her.
Qed.

End Readonly.

(** ** Which commands a method sends *)

(** The commands that open, probe, select on and close a session. *)
Definition session_cmd (cmd : Command) : bool :=
  match cmd with
  | IMAP4_SSL | Login | Select _ | Noop | Close | Logout => true
  | _ => false
  end.

(** Every command but the two that change a mailbox. *)
Definition reading_cmd (cmd : Command) : bool :=
  match cmd with
  | Store _ _ _ | Expunge => false
  | _ => true
  end.

Lemma session_reading cmd : session_cmd cmd = true -> reading_cmd cmd = true.
Proof. destruct cmd; simpl; congruence. Qed.

Definition sends (P : Command -> bool) (evs : list Event) : Prop :=
  Forall (fun e => P (ev_cmd e) = true) evs.

(** The method sends only commands of the class [P] and leaves the
    operation summary alone. *)
Definition Sends {A : Type} (P : Command -> bool) (m : M A) : Prop :=
  forall (c : Core Srv) a c' evs,
    m c = (a, c', evs) ->
    sends P evs /\ emails_deleted c' = emails_deleted c.

Lemma sends_app P a b : sends P a -> sends P b -> sends P (a ++ b).
Proof. intros Ha Hb. apply Forall_app. auto. Qed.

Lemma sends_weaken (P Q : Command -> bool) evs :
  (forall cmd, P cmd = true -> Q cmd = true) -> sends P evs -> sends Q evs.
Proof.
  intros HPQ H. unfold sends in *. rewrite Forall_forall in *. auto.
Qed.

Lemma Sends_ret P {A : Type} (a : A) : Sends P (ret a : M A).
Proof. intros c b c' evs H. rinv H. split; [constructor | reflexivity]. Qed.

Lemma Sends_bind P {A B : Type} (m : M A) (k : A -> M B) :
  Sends P m -> (forall a, Sends P (k a)) -> Sends P (bind m k).
Proof.
  intros Hm Hk c b c' evs H. minv H.
  destruct (Hm _ _ _ _ Hm0) as (H1 & H2).
  destruct (Hk _ _ _ _ _ Hk0) as (H3 & H4).
  split; [apply sends_app; assumption | congruence].
Qed.

Lemma Sends_call (P : Command -> bool) h cmd :
  P cmd = true -> Sends P (call h cmd).
Proof.
  intros Hc c r c' evs H. apply call_inv in H.
  destruct H as (-> & _ & _ & Hd & _).
  split; [constructor; [exact Hc | constructor] | exact Hd].
Qed.

Lemma Sends_call_self (P : Command -> bool) cmd :
  P cmd = true -> Sends P (call_self cmd).
Proof.
  intros Hc c r c' evs H. unfold call_self in H.
  destruct (connection c).
  - eapply Sends_call; eassumption.
  - inversion H; subst. split; [constructor | reflexivity].
Qed.

Lemma Sends_get_self_connection P : Sends P get_self_connection.
Proof.
  intros c a c' evs H. inversion H; subst. split; [constructor | reflexivity].
Qed.

Lemma Sends_set_self_connection P h : Sends P (set_self_connection h).
Proof.
  intros c a c' evs H. inversion H; subst. split; [constructor | reflexivity].
Qed.

Lemma Sends_new_object P : Sends P new_object.
Proof.
  intros c a c' evs H. inversion H; subst. split; [constructor | reflexivity].
Qed.

(** One step through the text of a method; [side] proves that a command
    is of the class. *)
Ltac sends_step side :=
  first
    [ apply Sends_ret
    | apply Sends_get_self_connection
    | apply Sends_set_self_connection
    | apply Sends_new_object
    | apply Sends_call; solve [side]
    | apply Sends_call_self; solve [side]
    | solve [auto with sends]
    | apply Sends_bind; [ | intros ]
    | match goal with
      | |- Sends _ (match ?x with _ => _ end) => destruct x
      | |- Sends _ (if ?b then _ else _) => destruct b
      end ].

Create HintDb sends.

(** The methods of the connection manager send session commands only;
    the methods that look things up send, besides, the list, search or
    fetch command they are made for. *)
Section Footprint.
Variable P : Command -> bool.
Hypothesis P_session : forall cmd, session_cmd cmd = true -> P cmd = true.

Ltac footprint :=
  repeat sends_step ltac:(first [apply P_session; reflexivity | auto]).

Lemma Sends_connect : Sends P connect.
Proof. unfold connect. footprint. Qed.

Lemma Sends_disconnect : Sends P disconnect.
Proof. unfold disconnect. footprint. Qed.

Hint Resolve Sends_connect Sends_disconnect : sends.

Lemma Sends_ensure_connection : Sends P ensure_connection.
Proof. unfold ensure_connection. footprint. Qed.

Hint Resolve Sends_ensure_connection : sends.

Lemma Sends_get_connection : Sends P get_connection.
Proof. unfold get_connection. footprint. Qed.

Lemma Sends_try_select name : Sends P (try_select name).
Proof. unfold try_select. footprint. Qed.

Hint Resolve Sends_get_connection Sends_try_select : sends.

Lemma Sends_try_variations vs : Sends P (try_variations vs).
Proof. induction vs; simpl; footprint. Qed.

Hint Resolve Sends_try_variations : sends.

Lemma Sends_select_folder name : Sends P (select_folder name).
Proof. unfold select_folder. footprint. Qed.

Hint Resolve Sends_select_folder : sends.

Lemma Sends_list_folders :
  P ListFolders = true -> Sends P list_folders.
Proof. intros Hl. unfold list_folders. footprint. Qed.

Lemma Sends_search_old_emails cutoff folder :
  (forall criteria, P (Search criteria) = true) ->
  Sends P (search_old_emails cutoff folder).
Proof. intros Hs. unfold search_old_emails. footprint. Qed.

Lemma Sends_search_old_emails_multiple_folders cutoff folders :
  (forall criteria, P (Search criteria) = true) ->
  Sends P (search_old_emails_multiple_folders cutoff folders).
Proof.
  intros Hs. pose proof (fun f => Sends_search_old_emails cutoff f Hs).
  induction folders; simpl; footprint.
Qed.

Lemma Sends_get_email_metadata email_id :
  (forall message_set message_parts,
      P (Fetch message_set message_parts) = true) ->
  Sends P (get_email_metadata email_id).
Proof. intros Hf. unfold get_email_metadata. footprint. Qed.

Lemma Sends_preview ids :
  (forall message_set message_parts,
      P (Fetch message_set message_parts) = true) ->
  Sends P (preview ids).
Proof.
  intros Hf. pose proof (fun id => Sends_get_email_metadata id Hf).
  induction ids; simpl; footprint.
Qed.

Lemma Sends_get_gmail_source_folders :
  P ListFolders = true -> Sends P get_gmail_source_folders.
Proof.
  intros Hl. pose proof (Sends_list_folders Hl).
  unfold get_gmail_source_folders. footprint.
Qed.

Lemma Sends_find_old_emails cutoff folders :
  (forall criteria, P (Search criteria) = true) ->
  Sends P (find_old_emails cutoff folders).
Proof.
  intros Hs. pose proof (fun f => Sends_search_old_emails cutoff f Hs).
  pose proof (fun fs => Sends_search_old_emails_multiple_folders cutoff fs Hs).
  unfold find_old_emails. destruct folders as [ | f [ | g r]]; footprint.
Qed.

Lemma Sends_search_unsubscribe_emails :
  (forall criteria, P (Search criteria) = true) ->
  Sends P search_unsubscribe_emails.
Proof. intros Hs. unfold search_unsubscribe_emails. footprint. Qed.

Lemma Sends_delete_email email_id :
  (forall message_set command flags,
      P (Store message_set command flags) = true) ->
  Sends P (delete_email email_id).
Proof. intros Hs. unfold delete_email. footprint. Qed.

Lemma Sends_delete_emails_bulk email_ids :
  P (store_deleted email_ids) = true ->
  Sends P (delete_emails_bulk email_ids).
Proof. intros Hs. unfold delete_emails_bulk. footprint. Qed.

Lemma Sends_expunge_deleted_emails :
  P Expunge = true -> Sends P expunge_deleted_emails.
Proof. intros He. unfold expunge_deleted_emails. footprint. Qed.

Lemma Sends_expunge_if_any deleted_count :
  P Expunge = true -> Sends P (expunge_if_any deleted_count).
Proof.
  intros He. pose proof (Sends_expunge_deleted_emails He).
  unfold expunge_if_any. footprint.
Qed.

Lemma Sends_delete_batches bs :
  (forall email_ids, P (store_deleted email_ids) = true) ->
  forall folder_deleted, Sends P (delete_batches bs folder_deleted).
Proof.
  intros Hs. pose proof (fun ids => Sends_delete_emails_bulk ids (Hs ids)).
  induction bs; intros folder_deleted; simpl; footprint.
Qed.

Lemma Sends_true_gmail_loop groups :
  (forall email_ids, P (store_deleted email_ids) = true) ->
  P Expunge = true ->
  forall total_deleted, Sends P (true_gmail_loop groups total_deleted).
Proof.
  intros Hs He.
  pose proof (fun ids => Sends_delete_emails_bulk ids (Hs ids)).
  pose proof (fun n => Sends_expunge_if_any n He).
  induction groups as [ | [folder email_ids] rest IH]; intros total_deleted;
    cbn [true_gmail_loop]; footprint.
Qed.

Lemma Sends_fast_loop groups :
  (forall email_ids, P (store_deleted email_ids) = true) ->
  P Expunge = true ->
  Forall (fun g => is_gmail_all_mail_folder (fst g) = false) groups ->
  forall total_deleted, Sends P (fast_loop groups total_deleted).
Proof.
  intros Hs He Hg.
  pose proof (fun ids => Sends_delete_emails_bulk ids (Hs ids)).
  pose proof (fun n => Sends_expunge_if_any n He).
  induction Hg as [ | [folder email_ids] rest Hf _ IH]; intros total_deleted;
    cbn [fast_loop]; [footprint | ].
  simpl in Hf. rewrite Hf. footprint.
Qed.

End Footprint.

(** The state and the calls of a run that started in [c]: only reading
    commands, and the operation summary as it was. *)
Definition only_reads {A : Type} (c : Core Srv)
           (run : A * Core Srv * list Event) : Prop :=
  sends reading_cmd (snd run)
  /\ emails_deleted (snd (fst run)) = emails_deleted c.

Lemma Sends_only_reads {A : Type} (m : M A) (c : Core Srv) :
  Sends reading_cmd m -> only_reads c (m c).
Proof.
  intros Hm. unfold only_reads. destruct (m c) as [[a c'] evs] eqn:Hrun.
  exact (Hm _ _ _ _ Hrun).
Qed.

(** X7. The methods that look things up never change a mailbox: whatever
    the server answers, and also when they reconnect on the way, the
    liveness check, folder selection, folder listing, the searches, the
    header fetch and the enumeration of the source folders send neither a
    store nor an expunge command, and they leave the operation summary as
    it was. *)
Theorem lookup_methods_send_no_store_or_expunge :
  forall c : Core Srv,
    only_reads c (ensure_connection c)
    /\ (forall folder_name, only_reads c (select_folder folder_name c))
    /\ only_reads c (list_folders c)
    /\ (forall cutoff folder_name,
           only_reads c (search_old_emails cutoff folder_name c))
    /\ (forall cutoff folders,
           only_reads c (search_old_emails_multiple_folders cutoff folders c))
    /\ (forall email_id, only_reads c (get_email_metadata email_id c))
    /\ only_reads c (get_gmail_source_folders c)
    /\ only_reads c (search_unsubscribe_emails c).
Proof.
  intros c.
  pose proof session_reading as Hp.
  split; [apply Sends_only_reads, Sends_ensure_connection, Hp | ].
  split; [intros f; apply Sends_only_reads, Sends_select_folder, Hp | ].
  split; [apply Sends_only_reads, Sends_list_folders; auto | ].
  split; [intros cutoff f;
          apply Sends_only_reads, Sends_search_old_emails; auto | ].
  split; [intros cutoff fs;
          apply Sends_only_reads, Sends_search_old_emails_multiple_folders;
          auto | ].
  split; [intros id; apply Sends_only_reads, Sends_get_email_metadata;
          auto | ].
  split; [apply Sends_only_reads, Sends_get_gmail_source_folders; auto | ].
  apply Sends_only_reads, Sends_search_unsubscribe_emails; auto.
Qed.

(** ** The session: connect, disconnect, ensure_connection *)

(** The three ways [connect] can go. *)
Lemma connect_cases (c : Core Srv) ok c' evs :
  connect c = (ok, c', evs) ->
  let h := S (created c) in
  created c' = h
  /\ ((exists b, evs = [mkEvent h IMAP4_SSL (Raised b)]
                 /\ ok = false /\ connection c' = connection c)
      \/ (exists r1 r2, evs = [mkEvent h IMAP4_SSL r1; mkEvent h Login r2]
                        /\ reply_ok r2 = false
                        /\ ok = false /\ connection c' = Some h)
      \/ (exists r1 r2 r3,
             evs = [mkEvent h IMAP4_SSL r1; mkEvent h Login r2;
                    mkEvent h (Select "INBOX") r3]
             /\ reply_ok r2 = true
             /\ ok = selected_ok r3 /\ connection c' = Some h)).
Proof.
  intros H. unfold connect in H.
  minv_as H h0 c0 e0 e0' Hnew H.
  inversion Hnew; subst; clear Hnew.
  minv_as H r1 c1 e1 e1' Hopen H.
  apply call_inv in Hopen. destruct Hopen as (-> & Hc1 & Hn1 & _).
  simpl in Hc1, Hn1.
  destruct r1 as [typ1 d1 | b].
  - minv_as H u c2 e2 e2' Hset H.
    inversion Hset; subst; clear Hset.
    minv_as H r3 c3 e3 e3' Hlogin H.
    apply call_inv in Hlogin. destruct Hlogin as (-> & Hc3 & Hn3 & _).
    simpl in Hc3, Hn3.
    destruct r3 as [typ3 d3 | b].
    + destruct (is_OK typ3) eqn:Hok.
      * minv_as H r4 c4 e4 e4' Hsel H.
        apply call_inv in Hsel. destruct Hsel as (-> & Hc4 & Hn4 & _).
        apply ret_inv in H. destruct H as (-> & -> & ->).
        split; [congruence | ]. right. right.
        exists (Returned typ1 d1), (Returned typ3 d3), r4.
        simpl. rewrite Hok. split; [reflexivity | ].
        split; [reflexivity | ]. split; [reflexivity | congruence].
      * apply ret_inv in H. destruct H as (-> & -> & ->).
        split; [congruence | ]. right. left.
        exists (Returned typ1 d1), (Returned typ3 d3).
        simpl. rewrite Hok. auto.
    + apply ret_inv in H. destruct H as (-> & -> & ->).
      split; [congruence | ]. right. left.
      exists (Returned typ1 d1), (Raised b). simpl. auto.
  - apply ret_inv in H. destruct H as (-> & -> & ->).
    split; [congruence | ]. left. exists b. simpl. auto.
Qed.

(** The four ways [disconnect] can go. *)
Lemma disconnect_cases (c : Core Srv) ok c' evs :
  disconnect c = (ok, c', evs) ->
  created c' = created c
  /\ ((connection c = None /\ evs = [] /\ ok = true /\ c' = c)
      \/ exists h, connection c = Some h
           /\ ((evs = [mkEvent h Close (Raised false)]
                /\ ok = false /\ connection c' = Some h)
               \/ (exists r b, evs = [mkEvent h Close r;
                                      mkEvent h Logout (Raised b)]
                               /\ ok = false /\ connection c' = Some h)
               \/ (exists r typ d,
                      evs = [mkEvent h Close r;
                             mkEvent h Logout (Returned typ d)]
                      /\ ok = true /\ connection c' = None))).
Proof.
  intros H. unfold disconnect in H.
  minv_as H conn c0 e0 e0' Hget H.
  inversion Hget; subst; clear Hget. simpl.
  destruct (connection c0) as [h | ] eqn:Hc.
  - minv_as H r1 c1 e1 e1' Hclose H.
    apply call_inv in Hclose. destruct Hclose as (-> & Hc1 & Hn1 & _).
    assert (Hlogout :
              (r <- call h Logout ;;
               match r with
               | Raised _ => ret false
               | Returned _ _ => _ <- set_self_connection None ;; ret true
               end) c1 = (ok, c', e1') ->
              created c' = created c0
              /\ ((exists b, e1' = [mkEvent h Logout (Raised b)]
                             /\ ok = false /\ connection c' = Some h)
                  \/ (exists typ d, e1' = [mkEvent h Logout (Returned typ d)]
                                    /\ ok = true /\ connection c' = None))).
    { intros Hl. minv_as Hl r2 c2 e2 e2' Hcall Hl.
      apply call_inv in Hcall. destruct Hcall as (-> & Hc2 & Hn2 & _).
      destruct r2 as [typ d | b].
      - minv_as Hl u c3 e3 e3' Hset Hl. inversion Hset; subst; clear Hset.
        apply ret_inv in Hl. destruct Hl as (-> & -> & ->).
        simpl. split; [congruence | ]. right. exists typ, d. auto.
      - apply ret_inv in Hl. destruct Hl as (-> & -> & ->).
        split; [congruence | ]. left. exists b.
        split; [reflexivity | ]. split; [reflexivity | congruence]. }
    assert (Hrest : created c' = created c0
                    /\ ((r1 = Raised false /\ e1' = [] /\ ok = false
                         /\ connection c' = Some h)
                        \/ (exists b, e1' = [mkEvent h Logout (Raised b)]
                                      /\ ok = false /\ connection c' = Some h)
                        \/ (exists typ d,
                               e1' = [mkEvent h Logout (Returned typ d)]
                               /\ ok = true /\ connection c' = None))).
    { destruct r1 as [typ d | [ | ]].
      - destruct (Hlogout H) as (Hn & Hcase). split; [exact Hn | right; exact Hcase].
      - destruct (Hlogout H) as (Hn & Hcase). split; [exact Hn | right; exact Hcase].
      - apply ret_inv in H. destruct H as (-> & -> & ->).
        split; [congruence | ]. left.
        split; [reflexivity | ]. split; [reflexivity | ].
        split; [reflexivity | congruence]. }
    destruct Hrest as (Hn & Hcase). split; [exact Hn | ]. right. exists h.
    split; [reflexivity | ].
    destruct Hcase as [(-> & -> & -> & Hc') | [(b & -> & -> & Hc')
                                              | (typ & d & -> & -> & Hc')]].
    + left. auto.
    + right. left. exists r1, b. auto.
    + right. right. exists r1, typ, d. auto.
  - apply ret_inv in H. destruct H as (-> & -> & ->).
    split; [reflexivity | ]. left. auto.
Qed.

(** X8. [disconnect] returns True exactly when [self.connection] is None
    afterwards.  Without a connection it sends nothing.  With one it sends
    close and then logout on it and nothing else; logout is skipped only
    when close raises something that is no IMAP error; and when it returns
    False the connection object is still in place, so that a later call
    uses it again. *)
Theorem disconnect_true_iff_connection_dropped :
  forall c : Core Srv,
    let '(ok, c', evs) := disconnect c in
    (ok = true <-> connection c' = None)
    /\ (ok = false -> connection c' = connection c)
    /\ (connection c = None -> evs = [] /\ c' = c)
    /\ (forall h, connection c = Some h ->
                  Forall (fun e => ev_conn e = h) evs
                  /\ (map ev_cmd evs = [Close; Logout]
                      \/ exists e, evs = [e] /\ ev_cmd e = Close
                                   /\ ev_reply e = Raised false))
    /\ created c' = created c.
Proof.
  intros c. destruct (disconnect c) as [[ok c'] evs] eqn:Hrun.
  apply disconnect_cases in Hrun. destruct Hrun as (Hn & Hcase).
  destruct Hcase as [(Hc & -> & -> & ->)
                    | (h & Hc & [(-> & -> & Hc')
                                | [(r & b & -> & -> & Hc')
                                  | (r & typ & d & -> & -> & Hc')]])].
  - repeat split; auto; congruence.
  - split; [split; congruence | ]. split; [congruence | ].
    split; [congruence | ]. split; [ | exact Hn].
    intros h' Hh. assert (h' = h) by congruence. subst h'.
    split; [repeat constructor | ]. right. eexists. simpl. auto.
  - split; [split; congruence | ]. split; [congruence | ].
    split; [congruence | ]. split; [ | exact Hn].
    intros h' Hh. assert (h' = h) by congruence. subst h'.
    split; [repeat constructor | ]. left. reflexivity.
  - split; [split; congruence | ]. split; [congruence | ].
    split; [congruence | ]. split; [ | exact Hn].
    intros h' Hh. assert (h' = h) by congruence. subst h'.
    split; [repeat constructor | ]. left. reflexivity.
Qed.

(** [connect] as one equation: each call is made in the state that the
    call before left, and the first failure ends the method. *)
Lemma connect_exact (c : Core Srv) :
  connect c
  = let h := S (created c) in
    let '(r1, s1) := imap h IMAP4_SSL (server c) in
    match r1 with
    | Raised _ =>
        (false, mkCore (connection c) h s1 (emails_deleted c),
         [mkEvent h IMAP4_SSL r1])
    | Returned _ _ =>
        let '(r2, s2) := imap h Login s1 in
        if reply_ok r2 then
          let '(r3, s3) := imap h (Select "INBOX") s2 in
          (selected_ok r3, mkCore (Some h) h s3 (emails_deleted c),
           [mkEvent h IMAP4_SSL r1; mkEvent h Login r2;
            mkEvent h (Select "INBOX") r3])
        else
          (false, mkCore (Some h) h s2 (emails_deleted c),
           [mkEvent h IMAP4_SSL r1; mkEvent h Login r2])
    end.
Proof.
  unfold connect, bind, new_object, call, set_self_connection. cbv zeta.
  cbn [connection created server emails_deleted].
  destruct (imap (S (created c)) IMAP4_SSL (server c)) as [r1 s1].
  destruct r1 as [typ1 d1 | b1]; [ | reflexivity].
  cbn [connection created server emails_deleted].
  destruct (imap (S (created c)) Login s1) as [r2 s2].
  destruct r2 as [typ2 d2 | b2]; [ | reflexivity].
  cbn [reply_ok]. destruct (is_OK typ2); [ | reflexivity].
  cbn [connection created server emails_deleted].
  destruct (imap (S (created c)) (Select "INBOX") s2) as [r3 s3].
  reflexivity.
Qed.

(** X9. [connect] always works on a connection object of its own, made by
    this call, and sends on it the constructor call, the login and the
    select of INBOX, in this order, stopping at the first that fails: a
    constructor that raises ends it, a login that raises or is not answered
    OK ends it, and the select of INBOX is sent exactly after a login
    answered OK.  It returns True exactly when the select of INBOX was
    accepted.  As soon as the constructor has returned, [self.connection]
    is the new object, also when the login or the select fails and False is
    returned. *)
Theorem connect_uses_a_new_object :
  forall c : Core Srv,
    let '(ok, c', evs) := connect c in
    let h := S (created c) in
    created c' = h
    /\ Forall (fun e => ev_conn e = h) evs
    /\ (exists k, 1 <= k <= 3
                  /\ map ev_cmd evs
                     = firstn k [IMAP4_SSL; Login; Select "INBOX"])
    /\ (ok = true <-> ends_selecting h "INBOX" evs)
    /\ (ok = true -> connection c' = Some h)
    /\ (forall e, In e evs -> ev_cmd e = IMAP4_SSL ->
                  (exists typ d, ev_reply e = Returned typ d) ->
                  connection c' = Some h)
    /\ (connection c' = Some h \/ connection c' = connection c)
    /\ (exists r1 s1,
           imap h IMAP4_SSL (server c) = (r1, s1)
           /\ match r1 with
              | Raised _ =>
                  evs = [mkEvent h IMAP4_SSL r1] /\ ok = false
                  /\ connection c' = connection c /\ server c' = s1
              | Returned _ _ =>
                  exists r2 s2,
                    imap h Login s1 = (r2, s2)
                    /\ if reply_ok r2 then
                         exists r3,
                           imap h (Select "INBOX") s2 = (r3, server c')
                           /\ evs = [mkEvent h IMAP4_SSL r1;
                                     mkEvent h Login r2;
                                     mkEvent h (Select "INBOX") r3]
                           /\ ok = selected_ok r3
                           /\ connection c' = Some h
                       else
                         evs = [mkEvent h IMAP4_SSL r1; mkEvent h Login r2]
                         /\ ok = false
                         /\ connection c' = Some h /\ server c' = s2
              end).
Proof.
  intros c. pose proof (connect_exact c) as Hex.
  destruct (connect c) as [[ok c'] evs] eqn:Hrun. cbv zeta.
  assert (Hlast :
            exists r1 s1,
              imap (S (created c)) IMAP4_SSL (server c) = (r1, s1)
              /\ match r1 with
                 | Raised _ =>
                     evs = [mkEvent (S (created c)) IMAP4_SSL r1] /\ ok = false
                     /\ connection c' = connection c /\ server c' = s1
                 | Returned _ _ =>
                     exists r2 s2,
                       imap (S (created c)) Login s1 = (r2, s2)
                       /\ if reply_ok r2 then
                            exists r3,
                              imap (S (created c)) (Select "INBOX") s2
                              = (r3, server c')
                              /\ evs = [mkEvent (S (created c)) IMAP4_SSL r1;
                                        mkEvent (S (created c)) Login r2;
                                        mkEvent (S (created c))
                                                (Select "INBOX") r3]
                              /\ ok = selected_ok r3
                              /\ connection c' = Some (S (created c))
                          else
                            evs = [mkEvent (S (created c)) IMAP4_SSL r1;
                                   mkEvent (S (created c)) Login r2]
                            /\ ok = false
                            /\ connection c' = Some (S (created c))
                            /\ server c' = s2
                 end).
  { clear Hrun. cbv zeta in Hex.
    destruct (imap (S (created c)) IMAP4_SSL (server c)) as [r1 s1].
    exists r1, s1. split; [reflexivity | ].
    destruct r1 as [typ1 d1 | b1].
    - destruct (imap (S (created c)) Login s1) as [r2 s2].
      exists r2, s2. split; [reflexivity | ].
      destruct (reply_ok r2).
      + destruct (imap (S (created c)) (Select "INBOX") s2) as [r3 s3].
        inversion Hex; subst. exists r3. simpl. auto.
      + inversion Hex; subst. simpl. auto.
    - inversion Hex; subst. simpl. auto. }
  clear Hex.
  apply connect_cases in Hrun. cbv zeta in Hrun.
  destruct Hrun as (Hn & Hcase). split; [exact Hn | ].
  destruct Hcase as [(b & -> & -> & Hc)
                    | [(r1 & r2 & -> & Hr2 & -> & Hc)
                      | (r1 & r2 & r3 & -> & Hr2 & -> & Hc)]].
  - split; [repeat constructor | ].
    split; [exists 1; split; [lia | reflexivity] | ].
    split; [split; [discriminate | ] | ].
    { intros (pre & r & Heq & _).
      destruct pre as [ | x [ | y [ | z pre]]]; simpl in Heq; inversion Heq;
        destruct pre; discriminate. }
    split; [discriminate | ].
    split; [intros e [<- | []] _ (typ & d & Hr); discriminate | ].
    split; [right; exact Hc | exact Hlast].
  - split; [repeat constructor | ].
    split; [exists 2; split; [lia | reflexivity] | ].
    split; [split; [discriminate | ] | ].
    { intros (pre & r & Heq & _).
      destruct pre as [ | x [ | y [ | z pre]]]; simpl in Heq; inversion Heq;
        destruct pre; discriminate. }
    split; [discriminate | ]. split; [auto | ].
    split; [left; exact Hc | exact Hlast].
  - split; [repeat constructor | ].
    split; [exists 3; split; [lia | reflexivity] | ].
    split; [split | ].
    { intros Hok.
      exists [mkEvent (S (created c)) IMAP4_SSL r1;
              mkEvent (S (created c)) Login r2], r3.
      split; [reflexivity | exact Hok]. }
    { intros (pre & r & Heq & Hr).
      destruct pre as [ | x [ | y [ | z pre]]]; simpl in Heq; inversion Heq;
        [subst; exact Hr | destruct pre; discriminate]. }
    split; [auto | ]. split; [auto | ].
    split; [left; exact Hc | exact Hlast].
Qed.

(** X10. [ensure_connection] probes an existing connection once and, when
    the probe is not answered OK, reconnects once: the commands of a call
    are at most one noop, then at most close and logout, then at most the
    constructor, login and select of INBOX, in this order; there is no
    second attempt, and at most one connection object is made.  When the
    probe is answered OK nothing else is sent and the connection object
    stays.  A result True means that [self.connection] is set: to the
    object that was probed, or to the one just made. *)
Theorem ensure_connection_reconnects_at_most_once :
  forall c : Core Srv,
    let '(ok, c', evs) := ensure_connection c in
    (exists k1 k2 k3,
        map ev_cmd evs
        = firstn k1 [Noop] ++ firstn k2 [Close; Logout]
          ++ firstn k3 [IMAP4_SSL; Login; Select "INBOX"])
    /\ created c' <= S (created c)
    /\ (connection c = None -> created c' = S (created c))
    /\ (forall h typ d s,
           connection c = Some h ->
           imap h Noop (server c) = (Returned typ d, s) ->
           is_OK typ = true ->
           ok = true /\ evs = [mkEvent h Noop (Returned typ d)]
           /\ connection c' = Some h /\ created c' = created c)
    /\ (ok = true ->
        (connection c' = connection c /\ created c' = created c
         /\ exists h r, connection c = Some h /\ evs = [mkEvent h Noop r]
                        /\ reply_ok r = true)
        \/ (connection c' = Some (S (created c))
            /\ created c' = S (created c)
            /\ ends_selecting (S (created c)) "INBOX" evs)).
Proof.
  intros c. destruct (ensure_connection c) as [[ok c'] evs] eqn:Hrun.
  unfold ensure_connection in Hrun.
  minv_as Hrun conn c0 e0 e0' Hget Hrun.
  inversion Hget; subst; clear Hget. simpl.
  assert (Hconn : forall c1 ok c' evs,
             connect c1 = (ok, c', evs) ->
             (exists k3, map ev_cmd evs
                         = firstn k3 [IMAP4_SSL; Login; Select "INBOX"])
             /\ created c' = S (created c1)
             /\ (ok = true ->
                 connection c' = Some (S (created c1))
                 /\ ends_selecting (S (created c1)) "INBOX" evs)).
  { clear. intros c1 ok c' evs Hc. apply connect_cases in Hc.
    cbv zeta in Hc. destruct Hc as (Hn & Hcase). 
    destruct Hcase as [(b & -> & -> & Hc)
                      | [(r1 & r2 & -> & Hr2 & -> & Hc)
                        | (r1 & r2 & r3 & -> & Hr2 & -> & Hc)]].
    - split; [exists 1; reflexivity | ]. split; [exact Hn | discriminate].
    - split; [exists 2; reflexivity | ]. split; [exact Hn | discriminate].
    - split; [exists 3; reflexivity | ]. split; [exact Hn | ].
      intros Hok. split; [exact Hc | ].
      exists [mkEvent (S (created c1)) IMAP4_SSL r1;
              mkEvent (S (created c1)) Login r2], r3.
      split; [reflexivity | exact Hok]. }
  destruct (connection c0) as [h | ] eqn:Hc.
  - minv_as Hrun r1 c1 e1 e1' Hnoop Hrun.
    apply call_inv in Hnoop.
    destruct Hnoop as (-> & Hc1 & Hn1 & _ & Himap).
    assert (Hre : (_ <- disconnect ;; connect) c1 = (ok, c', e1') ->
                  (exists k2 k3,
                      map ev_cmd e1'
                      = firstn k2 [Close; Logout]
                        ++ firstn k3 [IMAP4_SSL; Login; Select "INBOX"])
                  /\ created c' = S (created c0)
                  /\ (ok = true ->
                      connection c' = Some (S (created c0))
                      /\ ends_selecting (S (created c0)) "INBOX" e1')).
    { intros Hd. minv_as Hd b c2 e2 e2' Hdis Hd.
      apply disconnect_cases in Hdis. destruct Hdis as (Hn2 & Hcase).
      apply Hconn in Hd. destruct Hd as ((k3 & Hk3) & Hn' & Hok).
      rewrite Hn2, Hn1 in Hn', Hok.
      split; [ | split; [exact Hn' | ]].
      - rewrite map_app, Hk3.
        destruct Hcase as [(_ & -> & _)
                          | (h' & _ & [(-> & _)
                                      | [(r & b' & -> & _)
                                        | (r & typ & d & -> & _)]])].
        + exists 0, k3. reflexivity.
        + exists 1, k3. reflexivity.
        + exists 2, k3. reflexivity.
        + exists 2, k3. reflexivity.
      - intros Ht. destruct (Hok Ht) as (Hc' & Hs).
        split; [exact Hc' | apply ends_selecting_app; exact Hs]. }
    assert (Hfail : (_ <- disconnect ;; connect) c1 = (ok, c', e1') ->
              (exists k1 k2 k3,
                  map ev_cmd ([mkEvent h Noop r1] ++ e1')
                  = firstn k1 [Noop] ++ firstn k2 [Close; Logout]
                    ++ firstn k3 [IMAP4_SSL; Login; Select "INBOX"])
              /\ created c' <= S (created c0)
              /\ (None = Some h -> created c' = S (created c0))
              /\ (ok = true ->
                  (connection c' = Some h /\ created c' = created c0
                   /\ exists h0 r, Some h = Some h0
                                   /\ [mkEvent h Noop r1] ++ e1'
                                      = [mkEvent h0 Noop r]
                                   /\ reply_ok r = true)
                  \/ (connection c' = Some (S (created c0))
                      /\ created c' = S (created c0)
                      /\ ends_selecting (S (created c0)) "INBOX"
                           ([mkEvent h Noop r1] ++ e1')))).
    { intros Hd. destruct (Hre Hd) as ((k2 & k3 & Hk) & Hn' & Hok).
      split; [exists 1, k2, k3; simpl; rewrite Hk; reflexivity | ].
      split; [lia | ]. split; [discriminate | ].
      intros Ht. right. destruct (Hok Ht) as (Hc' & Hs).
      split; [exact Hc' | ]. split; [exact Hn' | ].
      apply ends_selecting_app. exact Hs. }
    destruct r1 as [typ d | b].
    + destruct (is_OK typ) eqn:Hok.
      * rinv Hrun. split; [exists 1, 0, 0; reflexivity | ].
        split; [lia | ]. split; [discriminate | ].
        split.
        -- intros h' typ' d' s Hh Hi Ht.
           assert (h' = h) by congruence. subst h'.
           rewrite Himap in Hi. inversion Hi; subst.
           split; [reflexivity | ]. split; [reflexivity | ].
           split; [congruence | exact Hn1].
        -- intros _. left. split; [congruence | ]. split; [exact Hn1 | ].
           exists h, (Returned typ d). simpl. auto.
      * destruct (Hfail Hrun) as (H1 & H2 & H3 & H4).
        split; [exact H1 | ]. split; [exact H2 | ].
        split; [discriminate | ]. split; [ | exact H4].
        intros h' typ' d' s Hh Hi Ht.
        assert (h' = h) by congruence. subst h'.
        rewrite Himap in Hi. inversion Hi; subst. congruence.
    + destruct (Hfail Hrun) as (H1 & H2 & H3 & H4).
      split; [exact H1 | ]. split; [exact H2 | ].
      split; [discriminate | ]. split; [ | exact H4].
      intros h' typ' d' s Hh Hi Ht.
      assert (h' = h) by congruence. subst h'.
      rewrite Himap in Hi. inversion Hi.
  - apply Hconn in Hrun. destruct Hrun as ((k3 & Hk3) & Hn' & Hok).
    split; [exists 0, 0, k3; exact Hk3 | ].
    split; [lia | ]. split; [auto | ].
    split; [discriminate | ].
    intros Ht. right. destruct (Hok Ht) as (Hc' & Hs). auto.
Qed.

(** ** The order of the folder list *)

Definition key_le (a b : string) : Prop := sort_key_le a b = true.
Definition group_le (a b : string) : Prop := sort_group a <= sort_group b.

Lemma sort_key_le_total a b : sort_key_le a b = false -> sort_key_le b a = true.
Proof.
  unfold sort_key_le. intros H.
  apply orb_false_iff in H. destruct H as (Hlt & Heq).
  apply Nat.ltb_ge in Hlt.
  destruct (sort_group a =? sort_group b) eqn:Hg.
  - apply Nat.eqb_eq in Hg. simpl in Heq.
    destruct (String.leb_total a b) as [H | H]; [congruence | ].
    rewrite H, Hg, Nat.eqb_refl, orb_true_r. reflexivity.
  - apply Nat.eqb_neq in Hg.
    assert (Hb : (sort_group b <? sort_group a) = true)
      by (apply Nat.ltb_lt; lia).
    rewrite Hb. reflexivity.
Qed.

Lemma key_le_group_le a b : key_le a b -> group_le a b.
Proof.
  unfold key_le, group_le, sort_key_le. intros H.
  apply orb_true_iff in H. destruct H as [H | H].
  - apply Nat.ltb_lt in H. lia.
  - apply andb_true_iff in H. destruct H as (H & _).
    apply Nat.eqb_eq in H. lia.
Qed.

Lemma insert_sorted_HdRel y x l :
  key_le y x -> HdRel key_le y l -> HdRel key_le y (insert_sorted x l).
Proof.
  intros Hyx Hl. destruct l as [ | z r]; simpl.
  - constructor. exact Hyx.
  - destruct (sort_key_le x z); constructor; [exact Hyx | ].
    inversion Hl; assumption.
Qed.

Lemma insert_sorted_Sorted x l :
  Sorted key_le l -> Sorted key_le (insert_sorted x l).
Proof.
  induction l as [ | y r IH]; intros Hl; simpl.
  - repeat constructor.
  - destruct (sort_key_le x y) eqn:Hxy.
    + constructor; [exact Hl | constructor; exact Hxy].
    + inversion Hl as [ | ? ? Hr Hy]; subst. constructor; [auto | ].
      apply insert_sorted_HdRel; [ | exact Hy].
      apply sort_key_le_total. exact Hxy.
Qed.

Lemma insert_sorted_Permutation x l : Permutation (x :: l) (insert_sorted x l).
Proof.
  induction l as [ | y r IH]; simpl; [reflexivity | ].
  destruct (sort_key_le x y); [reflexivity | ].
  rewrite perm_swap. apply perm_skip. exact IH.
Qed.

Lemma sort_folders_Sorted l : Sorted key_le (sort_folders l).
Proof.
  induction l as [ | x l IH]; simpl; [constructor | ].
  apply insert_sorted_Sorted. exact IH.
Qed.

Lemma sort_folders_Permutation l : Permutation l (sort_folders l).
Proof.
  induction l as [ | x l IH]; simpl; [reflexivity | ].
  rewrite <- insert_sorted_Permutation. apply perm_skip. exact IH.
Qed.

Lemma Sorted_groups l : Sorted key_le l -> StronglySorted group_le l.
Proof.
  intros Hl. apply Sorted_StronglySorted.
  - intros a b c0. unfold group_le. lia.
  - induction Hl as [ | a l Hl IH Hd]; constructor; [exact IH | ].
    destruct Hd; constructor. apply key_le_group_le. assumption.
Qed.

Lemma sort_group_INBOX f : sort_group f = 0 -> f = "INBOX".
Proof.
  unfold sort_group. destruct (String.eqb f "INBOX") eqn:He.
  - intros _. apply String.eqb_eq. exact He.
  - destruct (is_gmail_prefixed f); discriminate.
Qed.

(** [list_folders] as one equation. *)
Lemma list_folders_exact (c : Core Srv) :
  list_folders c
  = let '(alive, c1, e1) := ensure_connection c in
    if alive then
      match connection c1 with
      | Some h =>
          let '(r, s) := imap h ListFolders (server c1) in
          (match r with
           | Returned typ (DNames names) =>
               if is_OK typ then sort_folders names else []
           | _ => []
           end,
           mkCore (connection c1) (created c1) s (emails_deleted c1),
           e1 ++ [mkEvent h ListFolders r])
      | None => ([], c1, e1)
      end
    else ([], c1, e1).
Proof.
  unfold list_folders, bind.
  destruct (ensure_connection c) as [[alive c1] e1].
  destruct alive; [ | simpl; rewrite app_nil_r; reflexivity].
  unfold call_self, call. destruct (connection c1) as [h | ].
  - destruct (imap h ListFolders (server c1)) as [r s].
    destruct r as [typ [ | n | ids | names | a b d] | b]; simpl;
      try reflexivity.
    destruct (is_OK typ); reflexivity.
  - simpl. rewrite ?app_nil_r. reflexivity.
Qed.

(** X11. What [list_folders] returns.  When the session cannot be ensured
    it returns the empty list and asks for no listing.  Otherwise it sends
    one list command on [self.connection]; when that is answered OK, the
    result holds the folder names read from the reply (the names as they
    are parsed out of its lines), each as often as it was read, in the
    order of the sort key: every folder is followed by one whose key is
    not smaller, so INBOX (when it is there) comes first, the folders
    under the [Gmail] and [Google Mail] prefixes come before all others,
    and neighbours of the same kind are in string order; when the listing
    is answered by anything else, or raises, the result is empty. *)
Theorem list_folders_sorted_by_key :
  forall c : Core Srv,
    let '(folders, c', evs) := list_folders c in
    Sorted key_le folders
    /\ StronglySorted group_le folders
    /\ (In "INBOX" folders -> hd_error folders = Some "INBOX")
    /\ let '(alive, c1, e1) := ensure_connection c in
       if alive then
         exists h r,
           connection c1 = Some h
           /\ imap h ListFolders (server c1) = (r, server c')
           /\ evs = e1 ++ [mkEvent h ListFolders r]
           /\ match r with
              | Returned typ (DNames names) =>
                  if is_OK typ
                  then folders = sort_folders names
                       /\ Permutation names folders
                  else folders = []
              | _ => folders = []
              end
       else folders = [] /\ evs = e1 /\ c' = c1.
Proof.
  intros c. pose proof (list_folders_exact c) as Hex.
  destruct (list_folders c) as [[folders c'] evs] eqn:Hrun.
  assert (Hs : Sorted key_le folders).
  { apply list_folders_inv in Hrun.
    destruct Hrun as [-> | (pre & h & typ & names & _ & ->)];
      [constructor | apply sort_folders_Sorted]. }
  split; [exact Hs | ]. pose proof (Sorted_groups _ Hs) as Hg.
  split; [exact Hg | ]. split.
  - intros Hin. destruct folders as [ | f r]; [destruct Hin | ].
    simpl. f_equal. destruct Hin as [-> | Hin]; [reflexivity | ].
    apply sort_group_INBOX. inversion Hg as [ | ? ? _ Hall]; subst.
    rewrite Forall_forall in Hall. specialize (Hall _ Hin).
    assert (Hi : sort_group "INBOX" = 0) by reflexivity.
    red in Hall. rewrite Hi in Hall. lia.
  - clear Hrun Hs Hg.
    destruct (ensure_connection c) as [[alive c1] e1] eqn:Hens.
    destruct alive; [ | inversion Hex; auto].
    apply ensure_connection_inv in Hens. destruct Hens as (h & Hc & _).
    rewrite Hc in Hex.
    destruct (imap h ListFolders (server c1)) as [r s] eqn:Hi.
    inversion Hex; subst. exists h, r.
    split; [exact Hc | ]. split; [exact Hi | ]. split; [reflexivity | ].
    destruct r as [typ [ | n | ids | names | a b d] | b]; try reflexivity.
    destruct (is_OK typ); [ | reflexivity].
    split; [reflexivity | apply sort_folders_Permutation].
Qed.

(** ** The source folders have no duplicates *)

Lemma add_patterns_NoDup patterns all_folders :
  forall source_folders,
    NoDup source_folders -> NoDup patterns ->
    (forall f, In f patterns -> ~ In f source_folders) ->
    NoDup (add_patterns patterns all_folders source_folders).
Proof.
  induction patterns as [ | pattern rest IH];
    intros source_folders Hs Hp Hd; simpl; [exact Hs | ].
  inversion Hp as [ | ? ? Hnot Hrest]; subst.
  destruct (mem pattern all_folders).
  - apply IH; [ | exact Hrest | ].
    + apply NoDup_app; [exact Hs | repeat constructor; intros [] | ].
      intros a Ha [<- | []]. apply (Hd pattern); [left; reflexivity | exact Ha].
    + intros f Hf Hin. apply in_app_iff in Hin.
      destruct Hin as [Hin | [<- | []]].
      * apply (Hd f); [right; exact Hf | exact Hin].
      * contradiction.
  - apply IH; [exact Hs | exact Hrest | ].
    intros f Hf. apply Hd. right. exact Hf.
Qed.

Lemma add_custom_NoDup folders :
  forall source_folders,
    NoDup source_folders -> NoDup (add_custom folders source_folders).
Proof.
  induction folders as [ | folder rest IH]; intros source_folders Hs; simpl;
    [exact Hs | ].
  destruct (negb (startswith "[Gmail]" folder)
            && negb (startswith "[Google Mail]" folder)
            && negb (String.eqb folder "INBOX")
            && negb (mem folder source_folders)) eqn:Hc; [ | auto].
  apply IH. apply andb_true_iff in Hc. destruct Hc as (_ & Hm).
  apply negb_true_iff, mem_false in Hm.
  apply NoDup_app; [exact Hs | repeat constructor; intros [] | ].
  intros a Ha [<- | []]. contradiction.
Qed.

(** X12. The list of source folders names no folder twice, also when the
    server's listing repeats a name, and names only folders of the
    listing; so the true deletion searches each source folder once. *)
Theorem source_folders_are_listed_once :
  forall c : Core Srv,
    (forall all_folders,
        NoDup (source_folders_of all_folders)
        /\ incl (source_folders_of all_folders) all_folders)
    /\ let '(source_folders, _, _) := get_gmail_source_folders c in
       NoDup source_folders
       /\ incl source_folders (fst (fst (list_folders c))).
Proof.
  intros c.
  assert (H : forall all_folders,
             NoDup (source_folders_of all_folders)
             /\ incl (source_folders_of all_folders) all_folders).
  { intros all_folders. split.
    - unfold source_folders_of. apply add_custom_NoDup.
      apply add_patterns_NoDup.
      + unfold add_inbox. destruct (mem "INBOX" all_folders);
          repeat constructor. intros [].
      + unfold gmail_source_patterns.
        repeat (constructor; [simpl; intuition discriminate | ]).
        constructor.
      + intros f Hf. unfold add_inbox.
        destruct (mem "INBOX" all_folders); [ | intros []].
        intros [<- | []]. simpl in Hf. intuition discriminate.
    - intros f Hf. apply source_folders_of_In in Hf. tauto. }
  split; [exact H | ].
  unfold get_gmail_source_folders, bind.
  destruct (list_folders c) as [[all_folders c1] e1]. simpl.
  apply H.
Qed.

(** ** Grouping by folder *)

Lemma group_add_get f folder email_id groups :
  dict_get (group_add folder email_id groups) f
  = if String.eqb folder f then dict_get groups f ++ [email_id]
    else dict_get groups f.
Proof.
  induction groups as [ | [k ids] rest IH]; simpl.
  - destruct (String.eqb folder f); reflexivity.
  - destruct (String.eqb k folder) eqn:Hk; simpl.
    + apply String.eqb_eq in Hk. subst k.
      destruct (String.eqb folder f); reflexivity.
    + destruct (String.eqb k f) eqn:Hf; [ | exact IH].
      destruct (String.eqb folder f) eqn:Hff; [ | reflexivity].
      apply String.eqb_eq in Hf, Hff. subst.
      rewrite String.eqb_refl in Hk. discriminate.
Qed.

Lemma group_add_keys f folder email_id groups :
  In f (map fst (group_add folder email_id groups))
  <-> f = folder \/ In f (map fst groups).
Proof.
  induction groups as [ | [k ids] rest IH]; simpl; [intuition congruence | ].
  destruct (String.eqb k folder) eqn:Hk; simpl.
  - apply String.eqb_eq in Hk. subst. intuition congruence.
  - rewrite IH. intuition congruence.
Qed.

Lemma group_add_NoDup folder email_id groups :
  NoDup (map fst groups) ->
  NoDup (map fst (group_add folder email_id groups)).
Proof.
  induction groups as [ | [k ids] rest IH]; simpl; intros Hn.
  - repeat constructor. intros [].
  - inversion Hn as [ | ? ? Hk Hr]; subst.
    destruct (String.eqb k folder) eqn:He; simpl.
    + constructor; assumption.
    + constructor; [ | auto]. rewrite group_add_keys.
      intros [-> | Hin]; [ | contradiction].
      rewrite String.eqb_refl in He. discriminate.
Qed.

Lemma dict_get_In f ids groups :
  NoDup (map fst groups) -> In (f, ids) groups -> dict_get groups f = ids.
Proof.
  induction groups as [ | [k v] rest IH]; simpl; intros Hn Hin;
    [destruct Hin | ].
  inversion Hn as [ | ? ? Hk Hr]; subst.
  destruct Hin as [Heq | Hin].
  - inversion Heq; subst. rewrite String.eqb_refl. reflexivity.
  - destruct (String.eqb k f) eqn:He; [ | auto].
    apply String.eqb_eq in He. subst k. exfalso. apply Hk.
    apply in_map_iff. exists (f, ids). auto.
Qed.

(** The identifiers that [pairs] gives for [folder], in their order. *)
Definition ids_of (folder : string) (pairs : list (string * string))
  : list string :=
  map fst (filter (fun p => String.eqb (snd p) folder) pairs).

Lemma group_fold_get pairs :
  forall groups,
    NoDup (map fst groups) ->
    let groups' := fold_left (fun groups p => group_add (snd p) (fst p) groups)
                             pairs groups in
    NoDup (map fst groups')
    /\ (forall f, dict_get groups' f = dict_get groups f ++ ids_of f pairs)
    /\ (forall f, In f (map fst groups')
                  <-> In f (map fst groups) \/ In f (map snd pairs)).
Proof.
  induction pairs as [ | [email_id folder] rest IH]; intros groups Hn; simpl.
  - split; [exact Hn | ]. split; [intros f; rewrite app_nil_r; reflexivity | ].
    intros f. tauto.
  - specialize (IH (group_add folder email_id groups)
                   (group_add_NoDup folder email_id groups Hn)).
    cbv zeta in IH. destruct IH as (Hn' & Hget & Hkeys).
    split; [exact Hn' | ]. split.
    + intros f. rewrite Hget, group_add_get. unfold ids_of. simpl.
      destruct (String.eqb folder f); simpl;
        [rewrite <- app_assoc | ]; reflexivity.
    + intros f. rewrite Hkeys, group_add_keys. intuition congruence.
Qed.

(** X13. Grouping the found pairs by folder loses and invents nothing:
    the folders of the groups are pairwise different and are exactly the
    folders that occur in the pairs; the group of a folder holds exactly
    the identifiers paired with it, in their order and with their
    repetitions; no group is empty; and the sizes of the groups sum to the
    number of pairs. *)
Theorem group_by_folder_partitions_the_pairs :
  forall email_folder_pairs : list (string * string),
    let folder_groups := group_by_folder email_folder_pairs in
    NoDup (map fst folder_groups)
    /\ (forall folder,
           In folder (map fst folder_groups)
           <-> In folder (map snd email_folder_pairs))
    /\ (forall folder email_ids,
           In (folder, email_ids) folder_groups ->
           email_ids = ids_of folder email_folder_pairs /\ email_ids <> [])
    /\ group_size folder_groups = List.length email_folder_pairs.
Proof.
  intros pairs. cbv zeta. unfold group_by_folder.
  destruct (group_fold_get pairs [] (NoDup_nil _)) as (Hn & Hget & Hkeys).
  destruct (group_fold (fun _ => True) pairs (fun _ _ => I) []
                       (Forall_nil _)) as (Hall & Hsize).
  split; [exact Hn | ]. split; [intros f; rewrite Hkeys; simpl; tauto | ].
  split; [ | exact Hsize].
  intros folder email_ids Hin. split.
  - rewrite <- (dict_get_In _ _ _ Hn Hin). rewrite Hget. reflexivity.
  - rewrite Forall_forall in Hall. apply (Hall _ Hin).
Qed.

(** ** Batches *)

Lemma batches_spec batch_size :
  0 < batch_size ->
  forall fuel (email_ids : list string),
    List.length email_ids <= fuel ->
    concat (batches fuel batch_size email_ids) = email_ids
    /\ Forall (fun batch => 1 <= List.length batch <= batch_size)
              (batches fuel batch_size email_ids)
    /\ List.length (batches fuel batch_size email_ids)
       = (List.length email_ids + batch_size - 1) / batch_size.
Proof.
  intros Hb fuel. induction fuel as [ | fuel IH]; intros ids Hlen.
  - destruct ids; [ | simpl in Hlen; lia]. simpl.
    split; [reflexivity | ]. split; [constructor | ].
    symmetry. apply Nat.div_small. lia.
  - destruct ids as [ | x r].
    + simpl. split; [reflexivity | ]. split; [constructor | ].
      symmetry. apply Nat.div_small. lia.
    + cbn [batches].
      assert (Hskip : List.length (skipn batch_size (x :: r)) <= fuel).
      { rewrite length_skipn. cbn [List.length] in *. lia. }
      destruct (IH _ Hskip) as (Hc & Hf & Hl).
      split; [simpl concat; rewrite Hc; apply firstn_skipn | ].
      split.
      * constructor; [ | exact Hf]. rewrite length_firstn.
        cbn [List.length]. lia.
      * cbn [List.length]. rewrite Hl, length_skipn.
        change (S (List.length r)) with (List.length (x :: r)).
        remember (List.length (x :: r)) as n eqn:Hn.
        assert (Hpos : 1 <= n) by (subst n; cbn [List.length]; lia).
        destruct (Nat.le_gt_cases batch_size n) as [Hge | Hlt].
        -- replace (n + batch_size - 1)
             with ((n - batch_size + batch_size - 1) + 1 * batch_size) by lia.
           rewrite Nat.div_add by lia. lia.
        -- replace (n - batch_size) with 0 by lia.
           rewrite (Nat.div_small (0 + batch_size - 1)) by lia.
           apply (Nat.div_unique _ _ 1 (n - 1)); lia.
Qed.

(** X14. With a positive batch size the batches of the logged deletion
    cut the identifier list into consecutive pieces: put one after the
    other they give the list back, every batch holds at least one and at
    most [batch_size] identifiers, and their number is the [total_batches]
    that the log announces. *)
Theorem batches_cut_the_list :
  forall (batch_size : nat) (email_ids : list string),
    0 < batch_size ->
    let bs := batches (List.length email_ids) batch_size email_ids in
    concat bs = email_ids
    /\ Forall (fun batch => 1 <= List.length batch <= batch_size) bs
    /\ List.length bs = (List.length email_ids + batch_size - 1) / batch_size.
Proof.
  intros batch_size email_ids Hb. apply batches_spec; [exact Hb | lia].
Qed.

(** ** Searching *)

Definition is_search (cmd : Command) : bool :=
  match cmd with
  | Search _ => true
  | _ => false
  end.

(** What [search_old_emails] makes of the reply to its search. *)
Definition search_result (r : Reply) : list string :=
  match r with
  | Returned typ (DIds id_list) => if is_OK typ then id_list else []
  | _ => []
  end.

Lemma search_old_emails_cases cutoff folder (c : Core Srv) ids c' evs :
  search_old_emails cutoff folder c = (ids, c', evs) ->
  (sends session_cmd evs /\ ids = [])
  \/ exists pre h d r,
      parse_cutoff_date cutoff = Some d
      /\ evs = pre ++ [mkEvent h (Search ("BEFORE " ++ strftime_dmy d)) r]
      /\ sends session_cmd pre
      /\ ids = search_result r
      /\ (folder <> EmptyString ->
          exists h' m, In m (folder :: folder_variations folder)
                       /\ ends_selecting h' m pre).
Proof.
  intros H. unfold search_old_emails in H.
  minv_as H conn c1 e1 e1' Hget H.
  apply (Sends_get_connection session_cmd (fun _ H => H)) in Hget.
  destruct Hget as (Hs1 & _).
  destruct conn as [h | ].
  2:{ rinv H. left. rewrite app_nil_r. auto. }
  minv_as H selected c2 e2 e2' Hsel H.
  assert (Hs2 : sends session_cmd e2
                /\ (selected = true -> folder <> EmptyString ->
                    exists h' m, In m (folder :: folder_variations folder)
                                 /\ ends_selecting h' m (e1 ++ e2))).
  { destruct (String.eqb folder "") eqn:Hf.
    - rinv Hsel. split; [constructor | ].
      intros _ Hne. apply String.eqb_eq in Hf. contradiction.
    - split.
      + apply (Sends_select_folder session_cmd (fun _ H => H)) in Hsel.
        tauto.
      + intros -> _. apply select_folder_sel in Hsel.
        destruct Hsel as (h' & m & _ & Hin & Hends).
        exists h', m. split; [exact Hin | ].
        apply ends_selecting_app. exact Hends. }
  destruct Hs2 as (Hs2 & Hends).
  destruct selected.
  2:{ rinv H. left. rewrite app_nil_r. split; [ | reflexivity].
      apply sends_app; assumption. }
  unfold format_date_for_imap_search in H.
  destruct (parse_cutoff_date cutoff) as [d | ] eqn:Hd.
  2:{ rinv H. left. rewrite app_nil_r. split; [ | reflexivity].
      apply sends_app; assumption. }
  minv_as H r c3 e3 e3' Hcall H.
  apply call_inv in Hcall. destruct Hcall as (-> & _).
  right. exists (e1 ++ e2), h, d, r.
  assert (Hids : ids = search_result r /\ e3' = []).
  { destruct r as [typ [ | n | id_list | names | a b c0] | b];
      try (rinv H; auto). simpl. destruct (is_OK typ); rinv H; auto. }
  destruct Hids as (-> & ->).
  split; [reflexivity | ].
  split; [rewrite app_nil_r, app_assoc; reflexivity | ].
  split; [apply sends_app; assumption | ].
  split; [reflexivity | ]. intros Hne. apply Hends; [reflexivity | exact Hne].
Qed.

(** X15. [search_old_emails] sends at most one search command, as the
    last command of the call, with the criterion BEFORE and the cutoff day
    as [strftime] writes it; everything before it is session traffic
    (liveness check, reconnection, selection).  When a folder was named,
    the search is sent only after a select of the folder or of one of its
    alternates was accepted.  The result is the identifier list of an OK
    reply; in every other case, also when the cutoff date cannot be parsed
    or the folder cannot be selected (then no search is sent) and when the
    search raises, it is the empty list. *)
Theorem search_old_emails_sends_one_search :
  forall (cutoff folder_name : string) (c : Core Srv),
    let '(ids, _, evs) := search_old_emails cutoff folder_name c in
    ((sends session_cmd evs /\ ids = [])
     \/ exists pre h d r,
         parse_cutoff_date cutoff = Some d
         /\ evs = pre ++ [mkEvent h (Search ("BEFORE " ++ strftime_dmy d)) r]
         /\ sends session_cmd pre
         /\ ids = search_result r
         /\ (folder_name <> EmptyString ->
             exists h' m,
               In m (folder_name :: folder_variations folder_name)
               /\ ends_selecting h' m pre))
    /\ (parse_cutoff_date cutoff = None ->
        sends session_cmd evs /\ ids = [])
    /\ (ids <> [] ->
        exists pre h criteria typ,
          evs = pre ++ [mkEvent h (Search criteria) (Returned typ (DIds ids))]
          /\ is_OK typ = true).
Proof.
  intros cutoff folder c.
  destruct (search_old_emails cutoff folder c) as [[ids c'] evs] eqn:Hrun.
  apply search_old_emails_cases in Hrun. split; [exact Hrun | ]. split.
  - intros Hnone.
    destruct Hrun as [H | (pre & h & d & r & Hd & _)]; [exact H | congruence].
  - intros Hne.
    destruct Hrun as [(_ & H) | (pre & h & d & r & _ & -> & _ & -> & _)];
      [contradiction | ].
    destruct r as [typ [ | n | id_list | names | a b c0] | b];
      simpl in Hne; try contradiction.
    destruct (is_OK typ) eqn:Hok; [ | contradiction].
    exists pre, h, ("BEFORE " ++ strftime_dmy d)%string, typ.
    simpl. rewrite Hok. auto.
Qed.

(** ** Deleting in All Mail *)

Definition remove_all_label (email_ids : list string) : Command :=
  Store (join "," email_ids) "-X-GM-LABELS" "\All".

Lemma handle_cases email_ids (c : Core Srv) n c' evs :
  handle_gmail_all_mail_deletion email_ids c = (n, c', evs) ->
  emails_deleted c' = emails_deleted c
  /\ exists pre tail,
      evs = pre ++ tail /\ sends session_cmd pre
      /\ ((tail = [] /\ n = 0)
          \/ exists h r1,
              email_ids <> []
              /\ ((tail = [mkEvent h (store_deleted email_ids) r1]
                   /\ reply_ok r1 = false /\ n = 0)
                  \/ (reply_ok r1 = true
                      /\ tail = [mkEvent h (store_deleted email_ids) r1;
                                 mkEvent h (remove_all_label email_ids)
                                         (Raised false)]
                      /\ n = 0)
                  \/ (exists r2 r3,
                         reply_ok r1 = true
                         /\ r2 <> Raised false
                         /\ tail = [mkEvent h (store_deleted email_ids) r1;
                                    mkEvent h (remove_all_label email_ids) r2;
                                    mkEvent h Expunge r3]
                         /\ n = if reply_ok r3
                                then List.length email_ids else 0))).
Proof.
  intros H. unfold handle_gmail_all_mail_deletion in H.
  minv_as H conn c1 e1 e1' Hget H.
  apply (Sends_get_connection session_cmd (fun _ H => H)) in Hget.
  destruct Hget as (Hs1 & Hd1).
  destruct conn as [h | ].
  2:{ rinv H. split; [exact Hd1 | ]. exists e1, []. auto. }
  destruct email_ids as [ | x ids].
  { rinv H. split; [exact Hd1 | ]. exists e1, []. auto. }
  minv_as H r1 c2 e2 e2' Hdel H.
  apply call_inv in Hdel. destruct Hdel as (-> & _ & _ & Hd2 & _).
  assert (Hne : x :: ids <> []) by discriminate.
  destruct r1 as [typ1 d1 | b1].
  2:{ rinv H. split; [congruence | ]. exists e1.
      eexists. split; [reflexivity | ]. split; [exact Hs1 | right].
      exists h, (Raised b1). split; [exact Hne | left]. auto. }
  destruct (is_OK typ1) eqn:Hok1.
  2:{ rinv H. split; [congruence | ]. exists e1.
      eexists. split; [reflexivity | ]. split; [exact Hs1 | right].
      exists h, (Returned typ1 d1). split; [exact Hne | left].
      simpl. rewrite Hok1. auto. }
  minv_as H r2 c3 e3 e3' Hlab H.
  apply call_inv in Hlab. destruct Hlab as (-> & _ & _ & Hd3 & _).
  assert (Hexp :
            (expunge_result <- call h Expunge ;;
             match expunge_result with
             | Returned typ _ =>
                 if is_OK typ then ret (List.length (x :: ids)) else ret 0
             | Raised _ => ret 0
             end) c3 = (n, c', e3') ->
            emails_deleted c' = emails_deleted c3
            /\ exists r3, e3' = [mkEvent h Expunge r3]
                          /\ n = if reply_ok r3
                                 then List.length (x :: ids) else 0).
  { intros He. minv_as He r3 c4 e4 e4' Hcall He.
    apply call_inv in Hcall. destruct Hcall as (-> & _ & _ & Hd4 & _).
    destruct r3 as [typ3 d3 | b3].
    - destruct (is_OK typ3) eqn:Hok3; rinv He;
        (split; [exact Hd4 | ]); eexists;
        (split; [reflexivity | simpl; rewrite Hok3; reflexivity]).
    - rinv He. split; [exact Hd4 | ]. eexists. split; reflexivity. }
  assert (Hfull : r2 <> Raised false ->
                  emails_deleted c' = emails_deleted c3
                  /\ exists r3, e3' = [mkEvent h Expunge r3]
                                /\ n = if reply_ok r3
                                       then List.length (x :: ids) else 0).
  { intros Hr2. apply Hexp.
    destruct r2 as [typ2 d2 | [ | ]]; [exact H | exact H | congruence]. }
  destruct r2 as [typ2 d2 | [ | ]].
  - destruct Hfull as (Hd & r3 & -> & ->); [discriminate | ].
    split; [congruence | ]. exists e1. eexists.
    split; [reflexivity | ]. split; [exact Hs1 | right].
    exists h, (Returned typ1 d1). split; [exact Hne | right; right].
    exists (Returned typ2 d2), r3. simpl. rewrite Hok1.
    split; [reflexivity | ]. split; [discriminate | ]. auto.
  - destruct Hfull as (Hd & r3 & -> & ->); [discriminate | ].
    split; [congruence | ]. exists e1. eexists.
    split; [reflexivity | ]. split; [exact Hs1 | right].
    exists h, (Returned typ1 d1). split; [exact Hne | right; right].
    exists (Raised true), r3. simpl. rewrite Hok1.
    split; [reflexivity | ]. split; [discriminate | ]. auto.
  - rinv H. split; [congruence | ]. exists e1. eexists.
    split; [reflexivity | ]. split; [exact Hs1 | right].
    exists h, (Returned typ1 d1). split; [exact Hne | right; left].
    simpl. rewrite Hok1. auto.
Qed.

(** X16. [handle_gmail_all_mail_deletion] returns the number of
    identifiers it was given or 0, never a part.  After the liveness check
    it sends on one connection, in this order and at most once each, the
    store of the deleted flag, the store that removes the All label and
    the expunge.  A refused store of the flag ends the call with 0 and
    nothing further is sent.  A refused removal of the label (any reply,
    or an IMAP error) does not stop the call: the expunge is sent all the
    same, and the count depends on the flag store and the expunge alone. *)
Theorem handle_all_mail_deletion_all_or_nothing :
  forall (email_ids : list string) (c : Core Srv),
    let '(n, c', evs) := handle_gmail_all_mail_deletion email_ids c in
    (n = List.length email_ids \/ n = 0)
    /\ emails_deleted c' = emails_deleted c
    /\ exists pre tail,
        evs = pre ++ tail /\ sends session_cmd pre
        /\ (exists k h,
               map ev_cmd tail
               = firstn k [store_deleted email_ids;
                           remove_all_label email_ids; Expunge]
               /\ Forall (fun e => ev_conn e = h) tail)
        /\ (forall e, In e tail -> ev_cmd e = store_deleted email_ids ->
                      reply_ok (ev_reply e) = false -> tail = [e] /\ n = 0)
        /\ (forall e, In e tail -> ev_cmd e = remove_all_label email_ids ->
                      ev_reply e <> Raised false ->
                      exists e1 e3,
                        tail = [e1; e; e3] /\ ev_cmd e3 = Expunge
                        /\ n = if reply_ok (ev_reply e3)
                               then List.length email_ids else 0)
        /\ (n <> 0 ->
            exists e1 e2 e3,
              tail = [e1; e2; e3]
              /\ reply_ok (ev_reply e1) = true
              /\ reply_ok (ev_reply e3) = true).
Proof.
  intros email_ids c.
  destruct (handle_gmail_all_mail_deletion email_ids c) as [[n c'] evs]
    eqn:Hrun.
  apply handle_cases in Hrun.
  destruct Hrun as (Hd & pre & tail & -> & Hs & Hcase).
  assert (Hdiff : store_deleted email_ids <> remove_all_label email_ids)
    by discriminate.
  assert (Hn : n = List.length email_ids \/ n = 0).
  { destruct Hcase as [(_ & ->) | (h & r1 & _ & [(_ & _ & ->)
                                                | [(_ & _ & ->)
                                                  | (r2 & r3 & _ & _ & _ & ->)]])];
      auto. destruct (reply_ok r3); auto. }
  split; [exact Hn | ]. split; [exact Hd | ].
  exists pre, tail. split; [reflexivity | ]. split; [exact Hs | ].
  destruct Hcase as [(-> & ->)
                    | (h & r1 & Hne & [(-> & Hr1 & ->)
                                      | [(Hr1 & -> & ->)
                                        | (r2 & r3 & Hr1 & Hr2 & -> & ->)]])].
  - split; [exists 0, 0; split; [reflexivity | constructor] | ].
    split; [intros e [] | ]. split; [intros e [] | ].
    intros H. contradiction.
  - split; [exists 1, h; split; [reflexivity | repeat constructor] | ].
    split; [intros e [<- | []]; auto | ].
    split; [intros e [<- | []] Hcmd; simpl in Hcmd; congruence | ].
    intros H. contradiction.
  - split; [exists 2, h; split; [reflexivity | repeat constructor] | ].
    split.
    { intros e [<- | [<- | []]] Hcmd Hr; simpl in *; congruence. }
    split.
    { intros e [<- | [<- | []]] Hcmd Hr; simpl in *; congruence. }
    intros H. contradiction.
  - split; [exists 3, h; split; [reflexivity | repeat constructor] | ].
    split.
    { intros e [<- | [<- | [<- | []]]] Hcmd Hr; simpl in *;
        try congruence; discriminate. }
    split.
    { intros e [<- | [<- | [<- | []]]] Hcmd Hr; simpl in *;
        try congruence; try discriminate.
      eexists. eexists. split; [reflexivity | ]. auto. }
    intros Hnz. eexists. eexists. eexists. split; [reflexivity | ].
    simpl. split; [exact Hr1 | ].
    destruct (reply_ok r3); [reflexivity | contradiction].
Qed.

(** ** Counting what was found, marked and expunged *)

Definition is_expunge (cmd : Command) : bool :=
  match cmd with
  | Expunge => true
  | _ => false
  end.

(** The identifiers that the searches of a run returned, counted. *)
Definition found_by (e : Event) : nat :=
  match ev_cmd e with
  | Search _ => List.length (search_result (ev_reply e))
  | _ => 0
  end.

Definition found (evs : list Event) : nat := list_sum (map found_by evs).

Definition expunges (evs : list Event) : nat :=
  List.length (filter (fun e => is_expunge (ev_cmd e)) evs).

(** The stores of the deleted flag that the server answered with OK. *)
Definition accepted_deletes (evs : list Event) : nat :=
  List.length (filter (fun e => is_store_deleted (ev_cmd e)
                                && reply_ok (ev_reply e)) evs).

Lemma found_app a b : found (a ++ b) = found a + found b.
Proof. unfold found. rewrite map_app, list_sum_app. reflexivity. Qed.

Lemma expunges_app a b : expunges (a ++ b) = expunges a + expunges b.
Proof. unfold expunges. rewrite filter_app, length_app. reflexivity. Qed.

Lemma accepted_deletes_app a b :
  accepted_deletes (a ++ b) = accepted_deletes a + accepted_deletes b.
Proof. unfold accepted_deletes. rewrite filter_app, length_app. reflexivity. Qed.

Lemma found_nil : found [] = 0.
Proof. reflexivity. Qed.

Lemma expunges_nil : expunges [] = 0.
Proof. reflexivity. Qed.

Lemma accepted_deletes_nil : accepted_deletes [] = 0.
Proof. reflexivity. Qed.

Ltac tally :=
  rewrite ?found_app, ?expunges_app, ?accepted_deletes_app,
    ?found_nil, ?expunges_nil, ?accepted_deletes_nil.

Lemma found_none P evs :
  (forall cmd, P cmd = true -> is_search cmd = false) ->
  sends P evs -> found evs = 0.
Proof.
  intros HP H. induction H as [ | e l He _ IH]; [reflexivity | ].
  unfold found in *. simpl. rewrite IH. unfold found_by.
  specialize (HP _ He).
  destruct (ev_cmd e); simpl in HP; try discriminate; reflexivity.
Qed.

Lemma expunges_none P evs :
  (forall cmd, P cmd = true -> is_expunge cmd = false) ->
  sends P evs -> expunges evs = 0.
Proof.
  intros HP H. induction H as [ | e l He _ IH]; [reflexivity | ].
  unfold expunges in *. simpl. rewrite (HP _ He). exact IH.
Qed.

Lemma session_no_search cmd : session_cmd cmd = true -> is_search cmd = false.
Proof. destruct cmd; simpl; intros H; first [reflexivity | discriminate H]. Qed.

Lemma session_no_expunge cmd : session_cmd cmd = true -> is_expunge cmd = false.
Proof. destruct cmd; simpl; intros H; first [reflexivity | discriminate H]. Qed.

Lemma reading_no_expunge cmd : reading_cmd cmd = true -> is_expunge cmd = false.
Proof. destruct cmd; simpl; intros H; first [reflexivity | discriminate H]. Qed.

(** The commands of the methods that mark messages: session commands and
    stores. *)
Definition marking_cmd (cmd : Command) : bool :=
  session_cmd cmd || is_store cmd.

Lemma marking_no_expunge cmd : marking_cmd cmd = true -> is_expunge cmd = false.
Proof. destruct cmd; simpl; intros H; first [reflexivity | discriminate H]. Qed.

(** The commands of the folder listing. *)
Definition listing_cmd (cmd : Command) : bool :=
  session_cmd cmd || match cmd with ListFolders => true | _ => false end.

Lemma listing_no_search cmd : listing_cmd cmd = true -> is_search cmd = false.
Proof. destruct cmd; simpl; intros H; first [reflexivity | discriminate H]. Qed.

Lemma listing_no_expunge cmd : listing_cmd cmd = true -> is_expunge cmd = false.
Proof. destruct cmd; simpl; intros H; first [reflexivity | discriminate H]. Qed.

Lemma session_marking cmd : session_cmd cmd = true -> marking_cmd cmd = true.
Proof. unfold marking_cmd. intros ->. reflexivity. Qed.

Lemma session_listing cmd : session_cmd cmd = true -> listing_cmd cmd = true.
Proof. unfold listing_cmd. intros ->. reflexivity. Qed.

Lemma select_folder_quiet name (c : Core Srv) ok c' evs :
  select_folder name c = (ok, c', evs) ->
  expunges evs = 0 /\ emails_deleted c' = emails_deleted c.
Proof.
  intros H. apply (Sends_select_folder session_cmd (fun _ H => H)) in H.
  destruct H as (Hs & Hd). split; [ | exact Hd].
  eapply expunges_none; [exact session_no_expunge | exact Hs].
Qed.

Lemma search_old_emails_found cutoff folder (c : Core Srv) ids c' evs :
  search_old_emails cutoff folder c = (ids, c', evs) ->
  found evs = List.length ids.
Proof.
  intros H. apply search_old_emails_cases in H.
  destruct H as [(Hs & ->) | (pre & h & d & r & _ & -> & Hs & -> & _)].
  - eapply found_none; [exact session_no_search | exact Hs].
  - rewrite found_app.
    rewrite (found_none _ _ session_no_search Hs).
    unfold found, found_by. simpl. lia.
Qed.

Lemma search_multiple_folders_found cutoff folders :
  forall (c : Core Srv) pairs c' evs,
    search_old_emails_multiple_folders cutoff folders c = (pairs, c', evs) ->
    found evs = List.length pairs.
Proof.
  induction folders as [ | folder rest IH]; intros c pairs c' evs H; simpl in H.
  - rinv H. reflexivity.
  - minv_as H ids c1 e1 e1' Hs H. minv_as H more c2 e2 e2' Hm H. rinv H.
    apply search_old_emails_found in Hs. apply IH in Hm.
    rewrite !found_app, length_app, length_map, Hs, Hm. simpl. unfold found.
    simpl. lia.
Qed.

Lemma find_old_emails_found cutoff folders (c : Core Srv) pairs c' evs :
  find_old_emails cutoff folders c = (pairs, c', evs) ->
  found evs = List.length pairs
  /\ expunges evs = 0
  /\ emails_deleted c' = emails_deleted c.
Proof.
  intros H. split.
  - unfold find_old_emails in H.
    destruct folders as [ | f [ | g r]];
      try (eapply search_multiple_folders_found; exact H).
    minv_as H ids c1 e1 e1' Hs H. rinv H.
    apply search_old_emails_found in Hs.
    rewrite found_app, length_map, Hs. unfold found. simpl. lia.
  - apply (Sends_find_old_emails reading_cmd session_reading) in H;
      [ | reflexivity].
    destruct H as (Hs & Hd). split; [ | exact Hd].
    eapply expunges_none; [exact reading_no_expunge | exact Hs].
Qed.

Lemma group_size_cons folder (ids : list string) rest :
  group_size ((folder, ids) :: rest) = List.length ids + group_size rest.
Proof. reflexivity. Qed.

Lemma group_by_folder_size pairs :
  group_size (group_by_folder pairs) = List.length pairs.
Proof.
  unfold group_by_folder.
  destruct (group_fold (fun _ => True) pairs (fun _ _ => I) []
                       (Forall_nil _)) as (_ & Hsize).
  exact Hsize.
Qed.

Lemma is_store_deleted_store_deleted email_ids :
  is_store_deleted (store_deleted email_ids) = true.
Proof. reflexivity. Qed.

Lemma delete_emails_bulk_count email_ids (c : Core Srv) n c' evs :
  delete_emails_bulk email_ids c = (n, c', evs) ->
  n <= List.length email_ids
  /\ expunges evs = 0
  /\ (n <> 0 -> 1 <= accepted_deletes evs)
  /\ emails_deleted c' = emails_deleted c.
Proof.
  intros H.
  pose proof (Sends_delete_emails_bulk marking_cmd session_marking email_ids
                eq_refl _ _ _ _ H) as (Hs & Hd).
  apply delete_emails_bulk_inv in H.
  destruct H as (conn & c1 & pre & _ & Hcase).
  split; [ | split; [ | split; [ | exact Hd]]].
  - destruct conn as [h | ]; [destruct email_ids as [ | x r] | ].
    + destruct Hcase as (_ & -> & _). lia.
    + destruct Hcase as (r0 & _ & ->). destruct (reply_ok r0); lia.
    + destruct Hcase as (_ & -> & _). lia.
  - eapply expunges_none; [exact marking_no_expunge | exact Hs].
  - intros Hn. destruct conn as [h | ]; [destruct email_ids as [ | x r] | ].
    + destruct Hcase as (_ & -> & _). contradiction.
    + destruct Hcase as (r0 & -> & ->).
      rewrite accepted_deletes_app. unfold accepted_deletes at 2. simpl.
      destruct (reply_ok r0); [simpl; lia | contradiction].
    + destruct Hcase as (_ & -> & _). contradiction.
Qed.

Lemma expunge_if_any_count deleted_count (c : Core Srv) u c' evs :
  expunge_if_any deleted_count c = (u, c', evs) ->
  expunges evs <= (if 0 <? deleted_count then 1 else 0)
  /\ accepted_deletes evs = 0
  /\ emails_deleted c' = emails_deleted c.
Proof.
  intros H. unfold expunge_if_any in H.
  destruct (0 <? deleted_count); [ | rinv H; auto].
  minv_as H b c1 e1 e1' Hexp H. rinv H. rewrite app_nil_r.
  unfold expunge_deleted_emails in Hexp.
  minv_as Hexp conn c2 e2 e2' Hget Hexp.
  apply (Sends_get_connection session_cmd (fun _ H => H)) in Hget.
  destruct Hget as (Hs & Hd).
  assert (Hacc : accepted_deletes e2 = 0).
  { clear - Hs. induction Hs as [ | e l He _ IH]; [reflexivity | ].
    unfold accepted_deletes in *. simpl.
    destruct (ev_cmd e); simpl in *; try congruence; exact IH. }
  rewrite expunges_app, accepted_deletes_app, Hacc.
  rewrite (expunges_none _ _ session_no_expunge Hs).
  destruct conn as [h | ]; [ | rinv Hexp; auto].
  minv_as Hexp r c3 e3 e3' Hcall Hexp.
  apply call_inv in Hcall. destruct Hcall as (-> & _ & _ & Hd3 & _).
  assert (He : e3' = [] /\ c1 = c3).
  { destruct r as [typ d | b0]; rinv Hexp; auto. }
  destruct He as (-> & ->). simpl.
  split; [unfold expunges; simpl; lia | ]. split; [reflexivity | congruence].
Qed.

Lemma handle_count email_ids (c : Core Srv) n c' evs :
  handle_gmail_all_mail_deletion email_ids c = (n, c', evs) ->
  n <= List.length email_ids
  /\ expunges evs <= accepted_deletes evs
  /\ emails_deleted c' = emails_deleted c.
Proof.
  intros H. apply handle_cases in H.
  destruct H as (Hd & pre & tail & -> & Hs & Hcase).
  rewrite expunges_app, accepted_deletes_app.
  rewrite (expunges_none _ _ session_no_expunge Hs).
  split; [ | split; [ | exact Hd]].
  - destruct Hcase as [(_ & ->) | (h & r1 & _ & [(_ & _ & ->)
                                               | [(_ & _ & ->)
                                                 | (r2 & r3 & _ & _ & _ & ->)]])];
      try lia. destruct (reply_ok r3); lia.
  - destruct Hcase as [(-> & _)
                      | (h & r1 & _ & [(-> & _ & _)
                                      | [(_ & -> & _)
                                        | (r2 & r3 & Hr1 & _ & -> & _)]])];
      unfold expunges, accepted_deletes; simpl; try rewrite Hr1; simpl;
      try lia.
Qed.

Lemma delete_batches_count bs :
  forall folder_deleted (c : Core Srv) n c' evs,
    delete_batches bs folder_deleted c = (n, c', evs) ->
    folder_deleted <= n <= folder_deleted + List.length (concat bs)
    /\ expunges evs = 0
    /\ (folder_deleted < n -> 1 <= accepted_deletes evs)
    /\ emails_deleted c' = emails_deleted c.
Proof.
  induction bs as [ | batch rest IH]; intros acc c n c' evs H; simpl in H.
  - rinv H. unfold expunges, accepted_deletes. simpl. repeat split; lia.
  - minv_as H k c1 e1 e1' Hb H.
    apply delete_emails_bulk_count in Hb. destruct Hb as (Hk & He & Ha & Hd).
    apply IH in H. destruct H as (Hn & He' & Ha' & Hd').
    rewrite expunges_app, accepted_deletes_app. simpl concat.
    rewrite length_app.
    split; [lia | ]. split; [lia | ]. split; [ | congruence].
    intros Hlt. destruct (Nat.eq_dec k 0) as [-> | Hk0].
    + assert (acc + 0 < n) by lia. specialize (Ha' H). lia.
    + specialize (Ha Hk0). lia.
Qed.

Lemma true_gmail_loop_count groups :
  forall total (c : Core Srv) n c' evs,
    true_gmail_loop groups total c = (n, c', evs) ->
    n <= total + group_size groups
    /\ expunges evs <= accepted_deletes evs
    /\ emails_deleted c' = emails_deleted c.
Proof.
  induction groups as [ | [folder ids] rest IH]; intros total c n c' evs H;
    cbn [true_gmail_loop] in H.
  - rinv H. unfold group_size, expunges, accepted_deletes. simpl.
    repeat split; lia.
  - rewrite group_size_cons.
    minv_as H ok c1 e1 e1' Hsel H.
    apply select_folder_quiet in Hsel. destruct Hsel as (He1 & Hd1).
    rewrite expunges_app, accepted_deletes_app, He1.
    destruct ok.
    + minv_as H k c2 e2 e2' Hb H.
      apply delete_emails_bulk_count in Hb.
      destruct Hb as (Hk & He2 & Ha2 & Hd2).
      minv_as H u c3 e3 e3' Hx H.
      apply expunge_if_any_count in Hx. destruct Hx as (He3 & Ha3 & Hd3).
      apply IH in H. destruct H as (Hn & He & Hd).
      rewrite !expunges_app, !accepted_deletes_app.
      split; [lia | ]. split; [ | congruence].
      destruct (0 <? k) eqn:Hpos.
      * apply Nat.ltb_lt in Hpos. assert (Hk0 : k <> 0) by lia.
        specialize (Ha2 Hk0). lia.
      * lia.
    + apply IH in H. destruct H as (Hn & He & Hd).
      split; [lia | ]. split; [lia | congruence].
Qed.

Lemma fast_loop_count groups :
  forall total (c : Core Srv) n c' evs,
    fast_loop groups total c = (n, c', evs) ->
    n <= total + group_size groups
    /\ expunges evs <= accepted_deletes evs
    /\ emails_deleted c' = emails_deleted c.
Proof.
  induction groups as [ | [folder ids] rest IH]; intros total c n c' evs H;
    cbn [fast_loop] in H.
  - rinv H. unfold group_size, expunges, accepted_deletes. simpl.
    repeat split; lia.
  - rewrite group_size_cons.
    minv_as H ok c1 e1 e1' Hsel H.
    apply select_folder_quiet in Hsel. destruct Hsel as (He1 & Hd1).
    rewrite expunges_app, accepted_deletes_app, He1.
    destruct ok.
    + destruct (is_gmail_all_mail_folder folder).
      * minv_as H k c2 e2 e2' Hh H.
        apply handle_count in Hh. destruct Hh as (Hk & He2 & Hd2).
        apply IH in H. destruct H as (Hn & He & Hd).
        rewrite !expunges_app, !accepted_deletes_app.
        split; [lia | ]. split; [lia | congruence].
      * minv_as H k c2 e2 e2' Hb H.
        apply delete_emails_bulk_count in Hb.
        destruct Hb as (Hk & He2 & Ha2 & Hd2).
        minv_as H u c3 e3 e3' Hx H.
        apply expunge_if_any_count in Hx. destruct Hx as (He3 & Ha3 & Hd3).
        apply IH in H. destruct H as (Hn & He & Hd).
        rewrite !expunges_app, !accepted_deletes_app.
        split; [lia | ]. split; [ | congruence].
        destruct (0 <? k) eqn:Hpos.
        -- apply Nat.ltb_lt in Hpos. assert (Hk0 : k <> 0) by lia.
           specialize (Ha2 Hk0). lia.
        -- lia.
    + apply IH in H. destruct H as (Hn & He & Hd).
      split; [lia | ]. split; [lia | congruence].
Qed.

(** What the three theorems below say of one run of a workflow. *)
Definition counts_ok (c : Core Srv) (n : nat) (c' : Core Srv)
           (evs : list Event) : Prop :=
  n <= found evs
  /\ expunges evs <= accepted_deletes evs
  /\ (found evs = 0 -> n = 0 /\ emails_deleted c' = emails_deleted c)
  /\ (found evs <> 0 -> emails_deleted c' = n).

Lemma true_gmail_count cutoff (c : Core Srv) n c' evs :
  delete_old_emails_true_gmail cutoff c = (n, c', evs) -> counts_ok c n c' evs.
Proof.
  intros H. unfold delete_old_emails_true_gmail in H.
  minv_as H source_folders c1 e1 e1' Hsrc H.
  apply (Sends_get_gmail_source_folders listing_cmd session_listing) in Hsrc;
    [ | reflexivity].
  destruct Hsrc as (Hs1 & Hd1).
  pose proof (found_none _ _ listing_no_search Hs1) as Hf1.
  pose proof (expunges_none _ _ listing_no_expunge Hs1) as He1.
  minv_as H pairs c2 e2 e2' Hsearch H.
  pose proof (search_multiple_folders_found _ _ _ _ _ _ Hsearch) as Hf2.
  apply (Sends_search_old_emails_multiple_folders reading_cmd session_reading)
    in Hsearch; [ | reflexivity].
  destruct Hsearch as (Hs2 & Hd2).
  pose proof (expunges_none _ _ reading_no_expunge Hs2) as He2.
  unfold counts_ok.
  rewrite !found_app, !expunges_app, !accepted_deletes_app, Hf1, He1, Hf2, He2.
  destruct pairs as [ | p pairs].
  - rinv H. tally. cbn [List.length].
    split; [lia | ]. split; [lia | ].
    split; [intros _; split; [reflexivity | congruence] | ].
    intros Hne. contradiction.
  - minv_as H total c3 e3 e3' Hloop H.
    apply true_gmail_loop_count in Hloop. destruct Hloop as (Hn & He3 & Hd3).
    rewrite group_by_folder_size in Hn.
    minv_as H u c4 e4 e4' Hset H. inversion Hset; subst; clear Hset.
    rinv H. tally. cbn [List.length] in *.
    split; [lia | ]. split; [lia | ]. split; [lia | reflexivity].
Qed.

Lemma fast_count cutoff folders (c : Core Srv) n c' evs :
  delete_old_emails_fast cutoff folders c = (n, c', evs) ->
  counts_ok c n c' evs.
Proof.
  intros H. unfold delete_old_emails_fast in H.
  destruct (only_all_mail folders); [exact (true_gmail_count _ _ _ _ _ H) | ].
  minv_as H pairs c1 e1 e1' Hfind H.
  apply find_old_emails_found in Hfind. destruct Hfind as (Hf1 & He1 & Hd1).
  unfold counts_ok.
  rewrite !found_app, !expunges_app, !accepted_deletes_app, Hf1, He1.
  destruct pairs as [ | p pairs].
  - rinv H. tally. cbn [List.length].
    split; [lia | ]. split; [lia | ].
    split; [intros _; split; [reflexivity | congruence] | ].
    intros Hne. contradiction.
  - minv_as H total c3 e3 e3' Hloop H.
    apply fast_loop_count in Hloop. destruct Hloop as (Hn & He3 & Hd3).
    rewrite group_by_folder_size in Hn.
    minv_as H u c4 e4 e4' Hset H. inversion Hset; subst; clear Hset.
    rinv H. tally. cbn [List.length] in *.
    split; [lia | ]. split; [lia | ]. split; [lia | reflexivity].
Qed.

Lemma logging_loop_count cutoff batch_size groups :
  forall total (c : Core Srv) r c' evs,
    logging_loop cutoff batch_size groups total c = (r, c', evs) ->
    expunges evs <= accepted_deletes evs
    /\ (forall n, r = Some n -> n <= total + group_size groups + found evs).
Proof.
  induction groups as [ | [folder ids] rest IH]; intros total c r c' evs H;
    cbn [logging_loop] in H.
  - rinv H. unfold group_size, expunges, accepted_deletes. simpl.
    split; [lia | ]. intros n Hn. inversion Hn. lia.
  - rewrite group_size_cons.
    minv_as H ok c1 e1 e1' Hsel H.
    apply select_folder_quiet in Hsel. destruct Hsel as (He1 & Hd1).
    rewrite expunges_app, accepted_deletes_app, found_app, He1.
    destruct ok.
    2:{ apply IH in H. destruct H as (He & Hn). split; [lia | ].
        intros n Hr. specialize (Hn n Hr). lia. }
    minv_as H u c2 e2 e2' Hprev H.
    apply (Sends_preview reading_cmd session_reading) in Hprev;
      [ | reflexivity].
    destruct Hprev as (Hs2 & _).
    pose proof (expunges_none _ _ reading_no_expunge Hs2) as He2.
    rewrite expunges_app, accepted_deletes_app, found_app, He2.
    destruct (is_gmail_all_mail_folder folder).
    + minv_as H k c3 e3 e3' Htrue H.
      apply true_gmail_count in Htrue. destruct Htrue as (Hk & He3 & _).
      apply IH in H. destruct H as (He & Hn).
      rewrite expunges_app, accepted_deletes_app, found_app.
      split; [lia | ]. intros n Hr. specialize (Hn n Hr). lia.
    + destruct (batch_size =? 0) eqn:Hbs.
      * rinv H. tally. split; [lia | ].
        intros n Hr. discriminate.
      * apply Nat.eqb_neq in Hbs.
        minv_as H k c3 e3 e3' Hb H.
        apply delete_batches_count in Hb.
        destruct Hb as (Hk & He3 & Ha3 & _).
        assert (Hcut : concat (batches (List.length ids) batch_size ids) = ids).
        { apply batches_spec; lia. }
        rewrite Hcut in Hk.
        minv_as H u' c4 e4 e4' Hx H.
        apply expunge_if_any_count in Hx. destruct Hx as (He4 & Ha4 & _).
        apply IH in H. destruct H as (He & Hn).
        rewrite !expunges_app, !accepted_deletes_app, !found_app.
        split.
        -- destruct (0 <? k) eqn:Hpos.
           ++ apply Nat.ltb_lt in Hpos. specialize (Ha3 Hpos). lia.
           ++ lia.
        -- intros n Hr. specialize (Hn n Hr). lia.
Qed.

Lemma logging_count cutoff folders batch_size (c : Core Srv) r c' evs :
  delete_old_emails_with_logging cutoff folders batch_size c = (r, c', evs) ->
  expunges evs <= accepted_deletes evs
  /\ (forall n, r = Some n -> counts_ok c n c' evs).
Proof.
  intros H. unfold delete_old_emails_with_logging in H.
  minv_as H pairs c1 e1 e1' Hfind H.
  apply find_old_emails_found in Hfind. destruct Hfind as (Hf1 & He1 & Hd1).
  unfold counts_ok.
  rewrite !found_app, !expunges_app, !accepted_deletes_app, Hf1, He1.
  destruct pairs as [ | p pairs].
  - rinv H. tally. cbn [List.length]. split; [lia | ].
    intros n Hr. inversion Hr; subst.
    split; [lia | ]. split; [lia | ].
    split; [intros _; split; [reflexivity | congruence] | ].
    intros Hne. contradiction.
  - minv_as H r0 c3 e3 e3' Hloop H.
    apply logging_loop_count in Hloop. destruct Hloop as (He3 & Hn).
    rewrite group_by_folder_size in Hn.
    destruct r0 as [total | ].
    + minv_as H u c4 e4 e4' Hset H. inversion Hset; subst; clear Hset.
      rinv H. tally. cbn [List.length] in *.
      split; [lia | ]. intros n Hr. inversion Hr; subst.
      specialize (Hn n eq_refl).
      split; [lia | ]. split; [lia | ]. split; [lia | reflexivity].
    + rinv H. tally. split; [lia | ].
      intros n Hr. discriminate.
Qed.

(** X17. No workflow reports more deletions than its searches found: the
    count that [delete_old_emails_true_gmail], [delete_old_emails_fast]
    and [delete_old_emails_with_logging] return is at most the number of
    identifiers in the OK replies to the search commands of the run (for
    the logged workflow, the searches of the true deletion it switches to
    included). *)
Theorem deleted_count_is_bounded_by_found :
  forall (cutoff : string) (folders : list string) (batch_size : nat)
         (c : Core Srv),
    (let '(n, _, evs) := delete_old_emails_true_gmail cutoff c in
     n <= found evs)
    /\ (let '(n, _, evs) := delete_old_emails_fast cutoff folders c in
        n <= found evs)
    /\ (let '(r, _, evs) :=
          delete_old_emails_with_logging cutoff folders batch_size c in
        forall n, r = Some n -> n <= found evs).
Proof.
  intros cutoff folders batch_size c. split; [ | split].
  - destruct (delete_old_emails_true_gmail cutoff c) as [[n c'] evs] eqn:H.
    apply true_gmail_count in H. apply H.
  - destruct (delete_old_emails_fast cutoff folders c) as [[n c'] evs] eqn:H.
    apply fast_count in H. apply H.
  - destruct (delete_old_emails_with_logging cutoff folders batch_size c)
      as [[r c'] evs] eqn:H.
    apply logging_count in H. destruct H as (_ & H).
    intros n Hr. apply (H n Hr).
Qed.

(** X18. The entry emails_deleted of the operation summary after a
    workflow: when the searches of the run found something, it is the
    count that the workflow returns; when they found nothing, the workflow
    returns 0 and leaves the entry as it was, so that the entry still
    shows the count of an earlier run. *)
Theorem summary_is_set_only_when_something_was_found :
  forall (cutoff : string) (folders : list string) (batch_size : nat)
         (c : Core Srv),
    (let '(n, c', evs) := delete_old_emails_true_gmail cutoff c in
     (found evs = 0 -> n = 0 /\ emails_deleted c' = emails_deleted c)
     /\ (found evs <> 0 -> emails_deleted c' = n))
    /\ (let '(n, c', evs) := delete_old_emails_fast cutoff folders c in
        (found evs = 0 -> n = 0 /\ emails_deleted c' = emails_deleted c)
        /\ (found evs <> 0 -> emails_deleted c' = n))
    /\ (let '(r, c', evs) :=
          delete_old_emails_with_logging cutoff folders batch_size c in
        forall n,
          r = Some n ->
          (found evs = 0 -> n = 0 /\ emails_deleted c' = emails_deleted c)
          /\ (found evs <> 0 -> emails_deleted c' = n)).
Proof.
  intros cutoff folders batch_size c. split; [ | split].
  - destruct (delete_old_emails_true_gmail cutoff c) as [[n c'] evs] eqn:H.
    apply true_gmail_count in H. apply H.
  - destruct (delete_old_emails_fast cutoff folders c) as [[n c'] evs] eqn:H.
    apply fast_count in H. apply H.
  - destruct (delete_old_emails_with_logging cutoff folders batch_size c)
      as [[r c'] evs] eqn:H.
    apply logging_count in H. destruct H as (_ & H).
    intros n Hr. apply (H n Hr).
Qed.

(** X19. No workflow expunges more often than it had a store of the
    deleted flag accepted: in each run the expunge commands are at most as
    many as the stores of the deleted flag that were answered OK.  In
    particular a run in which no such store was accepted sends no expunge
    at all, so that it removes nothing that something else had marked. *)
Theorem expunge_follows_an_accepted_delete :
  forall (cutoff : string) (folders : list string) (batch_size : nat)
         (c : Core Srv),
    (let '(_, _, evs) := delete_old_emails_true_gmail cutoff c in
     expunges evs <= accepted_deletes evs)
    /\ (let '(_, _, evs) := delete_old_emails_fast cutoff folders c in
        expunges evs <= accepted_deletes evs)
    /\ (let '(_, _, evs) :=
          delete_old_emails_with_logging cutoff folders batch_size c in
        expunges evs <= accepted_deletes evs).
Proof.
  intros cutoff folders batch_size c. split; [ | split].
  - destruct (delete_old_emails_true_gmail cutoff c) as [[n c'] evs] eqn:H.
    apply true_gmail_count in H. apply H.
  - destruct (delete_old_emails_fast cutoff folders c) as [[n c'] evs] eqn:H.
    apply fast_count in H. apply H.
  - destruct (delete_old_emails_with_logging cutoff folders batch_size c)
      as [[r c'] evs] eqn:H.
    apply logging_count in H. apply H.
Qed.

(** ** When select_folder succeeds *)

(** A select that the program took for a success. *)
Definition accepted_select (e : Event) : bool :=
  match ev_cmd e with
  | Select _ => selected_ok (ev_reply e)
  | _ => false
  end.

Lemma not_ends_selecting pre tail :
  tail <> [] ->
  Forall (fun e => accepted_select e = false) tail ->
  forall h m, ~ ends_selecting h m (pre ++ tail).
Proof.
  intros Hne Hall h m (pre' & r & Heq & Hr).
  destruct (exists_last Hne) as (t & x & ->).
  rewrite app_assoc in Heq. apply app_inj_tail in Heq.
  destruct Heq as (_ & ->).
  apply Forall_app in Hall. destruct Hall as (_ & Hx).
  inversion Hx as [ | ? ? Hf _]; subst.
  unfold accepted_select in Hf. simpl in Hf. congruence.
Qed.

Lemma try_variations_false vs :
  forall (c : Core Srv) c' evs,
    try_variations vs c = (false, c', evs) ->
    Forall (fun e => accepted_select e = false) evs
    /\ (vs <> [] -> connection c <> None -> evs <> []).
Proof.
  induction vs as [ | v rest IH]; intros c c' evs H; simpl in H.
  - rinv H. split; [constructor | ]. intros Hne. contradiction.
  - minv_as H ok c1 e1 e1' Htry H.
    apply try_select_inv in Htry. destruct Htry as (Hc1 & Hcase).
    destruct ok; [rdisc H | ].
    apply IH in H. destruct H as (Hall & _).
    destruct Hcase as [(h & r & Hc & -> & Hok & _) | (Hc & _ & -> & _)].
    + split; [ | intros _ _; discriminate].
      constructor; [ | exact Hall].
      unfold accepted_select. simpl. symmetry. exact Hok.
    + split; [exact Hall | ]. intros _ Hne. contradiction.
Qed.

Lemma connect_false_last (c : Core Srv) c' evs :
  connect c = (false, c', evs) ->
  evs <> [] /\ Forall (fun e => accepted_select e = false) evs.
Proof.
  intros H. apply connect_cases in H. cbv zeta in H.
  destruct H as (_ & [(b & -> & _)
                     | [(r1 & r2 & -> & _)
                       | (r1 & r2 & r3 & -> & _ & Hok & _)]]).
  - split; [discriminate | repeat constructor].
  - split; [discriminate | repeat constructor].
  - split; [discriminate | ].
    repeat constructor. unfold accepted_select. simpl. symmetry. exact Hok.
Qed.

Lemma disconnect_no_select (c : Core Srv) ok c' evs :
  disconnect c = (ok, c', evs) ->
  Forall (fun e => accepted_select e = false) evs.
Proof.
  intros H. apply disconnect_cases in H.
  destruct H as (_ & [(_ & -> & _)
                     | (h & _ & [(-> & _)
                                | [(r & b & -> & _)
                                  | (r & typ & d & -> & _)]])]);
    repeat constructor.
Qed.

Lemma ensure_connection_false_last (c : Core Srv) c' evs :
  ensure_connection c = (false, c', evs) ->
  evs <> [] /\ Forall (fun e => accepted_select e = false) evs.
Proof.
  intros H. unfold ensure_connection in H.
  minv_as H conn c0 e0 e0' Hget H.
  inversion Hget; subst; clear Hget. simpl.
  destruct (connection c0) as [h | ].
  - minv_as H r1 c1 e1 e1' Hnoop H.
    apply call_inv in Hnoop. destruct Hnoop as (-> & _).
    assert (Hre : (_ <- disconnect ;; connect) c1 = (false, c', e1') ->
                  Forall (fun e => accepted_select e = false) e1').
    { intros Hd. minv_as Hd b c2 e2 e2' Hdis Hd.
      apply disconnect_no_select in Hdis. apply connect_false_last in Hd.
      apply Forall_app. tauto. }
    split; [discriminate | ].
    constructor; [reflexivity | ].
    destruct r1 as [typ d | b]; [ | auto].
    destruct (is_OK typ); [rdisc H | auto].
  - exact (connect_false_last _ _ _ H).
Qed.

(** X20. [select_folder] returns True exactly when the last command it
    sent was a select that the server accepted.  Then that select named
    the folder asked for or one of its alternates, it was sent on the
    object that [self.connection] holds afterwards, and the named mailbox
    is the one selected on that connection.  When it returns False, no
    select of the call was left standing as accepted. *)
Theorem select_folder_true_iff_last_select_accepted :
  forall (folder_name : string) (c : Core Srv),
    let '(ok, c', evs) := select_folder folder_name c in
    (ok = true <-> exists h m, ends_selecting h m evs)
    /\ (ok = true ->
        exists h m,
          connection c' = Some h
          /\ In m (folder_name :: folder_variations folder_name)
          /\ ends_selecting h m evs
          /\ forall past, selected_on h (past ++ evs) = Some m).
Proof.
  intros folder c.
  destruct (select_folder folder c) as [[ok c'] evs] eqn:Hrun.
  assert (Htrue : ok = true ->
                  exists h m,
                    connection c' = Some h
                    /\ In m (folder :: folder_variations folder)
                    /\ ends_selecting h m evs
                    /\ forall past, selected_on h (past ++ evs) = Some m).
  { intros ->. apply select_folder_sel in Hrun.
    destruct Hrun as (h & m & Hc & Hin & Hends).
    exists h, m. split; [exact Hc | ]. split; [exact Hin | ].
    split; [exact Hends | ]. intros past. unfold selected_on.
    rewrite sel_from_app. apply ends_selecting_sel. exact Hends. }
  split; [ | exact Htrue]. split.
  - intros Hok. destruct (Htrue Hok) as (h & m & _ & _ & Hends & _).
    exists h, m. exact Hends.
  - intros (h & m & Hends). destruct ok; [reflexivity | exfalso].
    unfold select_folder in Hrun.
    minv_as Hrun alive c1 e1 e1' Hens Hrun.
    destruct alive.
    + change (try_variations (folder :: folder_variations folder) c1
              = (false, c', e1')) in Hrun.
      apply ensure_connection_inv in Hens.
      destruct Hens as (h1 & Hc1 & _).
      apply try_variations_false in Hrun. destruct Hrun as (Hall & Hne).
      apply (not_ends_selecting e1 e1') with (h := h) (m := m);
        [ | exact Hall | exact Hends].
      apply Hne; [discriminate | congruence].
    + rinv Hrun. rewrite app_nil_r in Hends.
      apply ensure_connection_false_last in Hens.
      destruct Hens as (Hne & Hall).
      apply (not_ends_selecting [] e1) with (h := h) (m := m); assumption.
Qed.

(** ** The search for unsubscribe mails *)

Lemma set_update_spec ids :
  forall all_ids,
    NoDup all_ids ->
    NoDup (set_update ids all_ids)
    /\ forall x, In x (set_update ids all_ids) <-> In x all_ids \/ In x ids.
Proof.
  induction ids as [ | id rest IH]; intros all_ids Hn; simpl.
  - split; [exact Hn | ]. intros x. tauto.
  - destruct (mem id all_ids) eqn:Hm.
    + destruct (IH all_ids Hn) as (Hn' & Hin). split; [exact Hn' | ].
      intros x. rewrite Hin. apply mem_In in Hm.
      split; [tauto | ]. intros [H | [<- | H]]; auto.
    + apply mem_false in Hm.
      assert (Hn1 : NoDup (all_ids ++ [id])).
      { apply NoDup_app; [exact Hn | repeat constructor; intros [] | ].
        intros a Ha [<- | []]. contradiction. }
      destruct (IH _ Hn1) as (Hn' & Hin). split; [exact Hn' | ].
      intros x. rewrite Hin, in_app_iff. simpl. tauto.
Qed.

Definition search_subject : Command := Search "SUBJECT unsubscribe".
Definition search_body : Command := Search "BODY unsubscribe".

(** [search_unsubscribe_emails] as one equation. *)
Lemma search_unsubscribe_emails_exact (c : Core Srv) :
  search_unsubscribe_emails c
  = let '(conn, c1, pre) := get_connection c in
    match conn with
    | None => ([], c1, pre)
    | Some h =>
        let '(r1, s1) := imap h search_subject (server c1) in
        match r1 with
        | Raised _ =>
            ([], mkCore (connection c1) (created c1) s1 (emails_deleted c1),
             pre ++ [mkEvent h search_subject r1])
        | Returned typ1 d1 =>
            let '(r2, s2) := imap h search_body s1 in
            (match r2 with
             | Returned typ2 d2 =>
                 if is_OK typ1 && is_OK typ2 then
                   match d1, d2 with
                   | DIds subject_list, DIds body_list =>
                       set_update body_list (set_update subject_list [])
                   | _, _ => []
                   end
                 else []
             | Raised _ => []
             end,
             mkCore (connection c1) (created c1) s2 (emails_deleted c1),
             pre ++ [mkEvent h search_subject r1; mkEvent h search_body r2])
        end
    end.
Proof.
  unfold search_unsubscribe_emails, bind, search_subject, search_body.
  destruct (get_connection c) as [[conn c1] pre].
  destruct conn as [h | ]; [ | simpl; rewrite app_nil_r; reflexivity].
  unfold call.
  destruct (imap h (Search "SUBJECT unsubscribe") (server c1)) as [r1 s1].
  destruct r1 as [typ1 d1 | b1]; [ | reflexivity].
  cbn [connection created server emails_deleted].
  destruct (imap h (Search "BODY unsubscribe") s1) as [r2 s2].
  destruct r2 as [typ2 d2 | b2]; [ | reflexivity].
  destruct (is_OK typ1), (is_OK typ2); simpl; try reflexivity.
  destruct d1, d2; reflexivity.
Qed.

(** X21. [search_unsubscribe_emails] sends, on the connection that the
    liveness check leaves, the subject search and then the body search,
    and nothing else; the body search is sent exactly when the subject
    search returned, whatever its reply; without a connection nothing is
    searched.  When both searches are answered OK the result holds exactly
    the identifiers of the one reply or the other, none twice; in every
    other case (a search refused or raising) it is empty, so that a
    refusal of either search discards the hits of the other. *)
Theorem search_unsubscribe_emails_joins_both_searches :
  forall c : Core Srv,
    let '(ids, c', evs) := search_unsubscribe_emails c in
    NoDup ids
    /\ (let '(conn, c1, pre) := get_connection c in
        match conn with
        | None => ids = [] /\ evs = pre /\ c' = c1
        | Some h =>
            exists r1 s1,
              imap h search_subject (server c1) = (r1, s1)
              /\ match r1 with
                 | Raised _ =>
                     evs = pre ++ [mkEvent h search_subject r1]
                     /\ ids = [] /\ server c' = s1
                 | Returned typ1 d1 =>
                     exists r2,
                       imap h search_body s1 = (r2, server c')
                       /\ evs = pre ++ [mkEvent h search_subject r1;
                                        mkEvent h search_body r2]
                       /\ match r2 with
                          | Returned typ2 d2 =>
                              if is_OK typ1 && is_OK typ2 then
                                match d1, d2 with
                                | DIds subject_list, DIds body_list =>
                                    forall id,
                                      In id ids
                                      <-> In id subject_list
                                          \/ In id body_list
                                | _, _ => ids = []
                                end
                              else ids = []
                          | Raised _ => ids = []
                          end
                 end
        end)
    /\ (exists pre tail,
           evs = pre ++ tail /\ sends session_cmd pre
           /\ (tail = []
               \/ (exists h b, tail = [mkEvent h search_subject (Raised b)])
               \/ (exists h typ d r,
                      tail = [mkEvent h search_subject (Returned typ d);
                              mkEvent h search_body r])))
    /\ (ids <> [] ->
        exists pre h typ1 subject_list typ2 body_list,
          evs = pre ++ [mkEvent h search_subject
                                (Returned typ1 (DIds subject_list));
                        mkEvent h search_body
                                (Returned typ2 (DIds body_list))]
          /\ is_OK typ1 = true /\ is_OK typ2 = true
          /\ forall id, In id ids
                        <-> In id subject_list \/ In id body_list)
    /\ (forall e, In e evs -> is_search (ev_cmd e) = true ->
                  reply_ok (ev_reply e) = false -> ids = []).
Proof.
  intros c. pose proof (search_unsubscribe_emails_exact c) as Hex.
  destruct (search_unsubscribe_emails c) as [[ids c'] evs] eqn:H.
  assert (Hexact :
            let '(conn, c1, pre) := get_connection c in
            match conn with
            | None => ids = [] /\ evs = pre /\ c' = c1
            | Some h =>
                exists r1 s1,
                  imap h search_subject (server c1) = (r1, s1)
                  /\ match r1 with
                     | Raised _ =>
                         evs = pre ++ [mkEvent h search_subject r1]
                         /\ ids = [] /\ server c' = s1
                     | Returned typ1 d1 =>
                         exists r2,
                           imap h search_body s1 = (r2, server c')
                           /\ evs = pre ++ [mkEvent h search_subject r1;
                                            mkEvent h search_body r2]
                           /\ match r2 with
                              | Returned typ2 d2 =>
                                  if is_OK typ1 && is_OK typ2 then
                                    match d1, d2 with
                                    | DIds subject_list, DIds body_list =>
                                        forall id,
                                          In id ids
                                          <-> In id subject_list
                                              \/ In id body_list
                                    | _, _ => ids = []
                                    end
                                  else ids = []
                              | Raised _ => ids = []
                              end
                     end
            end).
  { clear H. destruct (get_connection c) as [[conn c1] pre].
    destruct conn as [h | ]; [ | inversion Hex; auto].
    destruct (imap h search_subject (server c1)) as [r1 s1].
    exists r1, s1. split; [reflexivity | ].
    destruct r1 as [typ1 d1 | b1]; [ | inversion Hex; auto].
    destruct (imap h search_body s1) as [r2 s2].
    inversion Hex; subst. exists r2.
    split; [reflexivity | ]. split; [reflexivity | ].
    destruct r2 as [typ2 d2 | b2]; [ | reflexivity].
    destruct (is_OK typ1 && is_OK typ2); [ | reflexivity].
    destruct d1 as [ | n1 | subject_list | names1 | a1 b1 c1'];
      try reflexivity.
    destruct d2 as [ | n2 | body_list | names2 | a2 b2 c2'];
      try reflexivity.
    destruct (set_update_spec subject_list [] (NoDup_nil _)) as (Hn1 & Hin1).
    destruct (set_update_spec body_list _ Hn1) as (_ & Hin2).
    intros id. rewrite Hin2, Hin1. simpl. tauto. }
  clear Hex.
  assert (Hold :
            NoDup ids
            /\ (exists pre tail,
                   evs = pre ++ tail /\ sends session_cmd pre
                   /\ (tail = []
                       \/ (exists h b,
                              tail = [mkEvent h search_subject (Raised b)])
                       \/ (exists h typ d r,
                              tail = [mkEvent h search_subject (Returned typ d);
                                      mkEvent h search_body r])))
            /\ (ids <> [] ->
                exists pre h typ1 subject_list typ2 body_list,
                  evs = pre ++ [mkEvent h search_subject
                                        (Returned typ1 (DIds subject_list));
                                mkEvent h search_body
                                        (Returned typ2 (DIds body_list))]
                  /\ is_OK typ1 = true /\ is_OK typ2 = true
                  /\ forall id, In id ids
                                <-> In id subject_list \/ In id body_list)
            /\ (forall e, In e evs -> is_search (ev_cmd e) = true ->
                          reply_ok (ev_reply e) = false -> ids = [])).
  { clear Hexact.
    unfold search_unsubscribe_emails in H.
    minv_as H conn c1 e1 e1' Hget H.
    apply (Sends_get_connection session_cmd (fun _ H => H)) in Hget.
    destruct Hget as (Hs & _).
    assert (Hpre : forall e, In e e1 -> is_search (ev_cmd e) = true -> False).
    { intros e Hin Hse. unfold sends in Hs. rewrite Forall_forall in Hs.
      apply Hs, session_no_search in Hin. congruence. }
    destruct conn as [h | ].
    2:{ rinv H. split; [constructor | ]. split.
        - exists e1, []. auto.
        - split; [intros Hne; contradiction | auto]. }
    minv_as H r1 c2 e2 e2' Hsub H.
    apply call_inv in Hsub. destruct Hsub as (-> & _).
    destruct r1 as [typ1 d1 | b1].
    2:{ rinv H. split; [constructor | ]. split.
        - exists e1. eexists. split; [reflexivity | ]. split; [exact Hs | ].
          right. left. exists h, b1. reflexivity.
        - split; [intros Hne; contradiction | auto]. }
    minv_as H r2 c3 e3 e3' Hbody H.
    apply call_inv in Hbody. destruct Hbody as (-> & _).
    assert (Hshape : exists pre tail,
               e1 ++ [mkEvent h search_subject (Returned typ1 d1)]
                  ++ [mkEvent h search_body r2] ++ []
               = pre ++ tail /\ sends session_cmd pre
               /\ (tail = []
                   \/ (exists h b, tail = [mkEvent h search_subject (Raised b)])
                   \/ (exists h typ d r,
                          tail = [mkEvent h search_subject (Returned typ d);
                                  mkEvent h search_body r]))).
    { exists e1. eexists. split; [reflexivity | ]. split; [exact Hs | ].
      right. right. exists h, typ1, d1, r2. reflexivity. }
    assert (Hempty : ids = [] -> e3' = [] ->
              NoDup ids
              /\ (exists pre tail,
                     e1 ++ [mkEvent h (Search "SUBJECT unsubscribe")
                                    (Returned typ1 d1)]
                        ++ [mkEvent h (Search "BODY unsubscribe") r2] ++ e3'
                     = pre ++ tail /\ sends session_cmd pre
                     /\ (tail = []
                         \/ (exists h b,
                                tail = [mkEvent h search_subject (Raised b)])
                         \/ (exists h typ d r,
                                tail = [mkEvent h search_subject (Returned typ d);
                                        mkEvent h search_body r])))
              /\ (ids <> [] ->
                  exists pre h0 typ1' subject_list typ2 body_list,
                    e1 ++ [mkEvent h (Search "SUBJECT unsubscribe")
                                   (Returned typ1 d1)]
                       ++ [mkEvent h (Search "BODY unsubscribe") r2] ++ e3'
                    = pre ++ [mkEvent h0 search_subject
                                      (Returned typ1' (DIds subject_list));
                              mkEvent h0 search_body
                                      (Returned typ2 (DIds body_list))]
                    /\ is_OK typ1' = true /\ is_OK typ2 = true
                    /\ forall id, In id ids
                                  <-> In id subject_list \/ In id body_list)
              /\ (forall e,
                     In e (e1 ++ [mkEvent h (Search "SUBJECT unsubscribe")
                                          (Returned typ1 d1)]
                              ++ [mkEvent h (Search "BODY unsubscribe") r2]
                              ++ e3') ->
                     is_search (ev_cmd e) = true ->
                     reply_ok (ev_reply e) = false -> ids = [])).
    { intros -> ->. split; [constructor | ]. split; [exact Hshape | ].
      split; [intros Hne; contradiction | auto]. }
    destruct r2 as [typ2 d2 | b2]; [ | rinv H; apply Hempty; reflexivity].
    destruct (is_OK typ1) eqn:Hok1;
      [ | simpl in H; rinv H; apply Hempty; reflexivity].
    destruct (is_OK typ2) eqn:Hok2;
      [ | simpl in H; rinv H; apply Hempty; reflexivity].
    simpl in H.
    destruct d1 as [ | n1 | subject_list | names1 | a1 b1 c1'];
      try (rinv H; apply Hempty; reflexivity).
    destruct d2 as [ | n2 | body_list | names2 | a2 b2 c2'];
      try (rinv H; apply Hempty; reflexivity).
    rinv H.
    destruct (set_update_spec subject_list [] (NoDup_nil _)) as (Hn1 & Hin1).
    destruct (set_update_spec body_list _ Hn1) as (Hn2 & Hin2).
    split; [exact Hn2 | ]. split; [exact Hshape | ]. split.
    - intros _. exists e1, h, typ1, subject_list, typ2, body_list.
      split; [reflexivity | ]. split; [exact Hok1 | ]. split; [exact Hok2 | ].
      intros id. rewrite Hin2, Hin1. simpl. tauto.
    - intros e Hin Hse Hr. apply in_app_iff in Hin.
      destruct Hin as [Hin | [<- | [<- | []]]].
      + destruct (Hpre e Hin Hse).
      + simpl in Hr. congruence.
      + simpl in Hr. congruence. }
  destruct Hold as (H1 & H2 & H3 & H4).
  split; [exact H1 | ]. split; [exact Hexact | ].
  split; [exact H2 | ]. split; [exact H3 | exact H4].
Qed.

(** X22. Deleting one message with [delete_email] is the bulk deletion of
    a list of one: the same calls with the same replies, the same state
    afterwards, and True exactly when [delete_emails_bulk] returns 1. *)
Theorem delete_email_is_bulk_of_one :
  forall (email_id : string) (c : Core Srv),
    let '(ok, c1, e1) := delete_email email_id c in
    let '(n, c2, e2) := delete_emails_bulk [email_id] c in
    ok = (n =? 1) /\ c1 = c2 /\ e1 = e2.
Proof.
  intros email_id c. unfold delete_email, delete_emails_bulk, bind.
  destruct (get_connection c) as [[conn c1] e1].
  destruct conn as [h | ]; [ | simpl; auto].
  change (store_deleted [email_id]) with (Store email_id "+FLAGS" "\Deleted").
  destruct (call h (Store email_id "+FLAGS" "\Deleted") c1) as [[r c2] e2].
  destruct r as [typ d | b]; [ | simpl; auto].
  destruct (is_OK typ); simpl; auto.
Qed.

(** ** Alternates are of the same kind *)

(** The alternates that [select_folder] tries for the All Mail folder are
    All Mail spellings, and those it tries for any other folder are not. *)
Lemma variations_same_kind folder m :
  In m (folder_variations folder) ->
  is_gmail_all_mail_folder m = is_gmail_all_mail_folder folder.
Proof.
  unfold folder_variations, folder_variations_table. cbn [dict_get].
  repeat
    (match goal with
     | |- In _ (if String.eqb ?k folder then _ else _) -> _ =>
         destruct (String.eqb k folder) eqn:He;
         [ apply String.eqb_eq in He; subst folder; intros Hin;
           repeat (destruct Hin as [<- | Hin]; [reflexivity | ]);
           destruct Hin
         | clear He ]
     end).
  intros [].
Qed.

(** X23. After a successful [select_folder] the mailbox that is selected
    on the connection is an All Mail spelling exactly when the folder
    asked for is one: asking for an ordinary folder never ends with All
    Mail selected, whichever alternate the server accepted. *)
Theorem select_folder_keeps_the_kind_of_folder :
  forall (folder_name : string) (c : Core Srv),
    let '(ok, c', evs) := select_folder folder_name c in
    ok = true ->
    exists h m,
      connection c' = Some h
      /\ (forall past, selected_on h (past ++ evs) = Some m)
      /\ is_gmail_all_mail_folder m = is_gmail_all_mail_folder folder_name.
Proof.
  intros folder c.
  destruct (select_folder folder c) as [[ok c'] evs] eqn:Hrun.
  intros ->. apply select_folder_sel in Hrun.
  destruct Hrun as (h & m & Hc & Hin & Hends).
  exists h, m. split; [exact Hc | ]. split.
  - intros past. unfold selected_on.
    rewrite sel_from_app. apply ends_selecting_sel. exact Hends.
  - destruct Hin as [<- | Hin]; [reflexivity | ].
    apply variations_same_kind. exact Hin.
Qed.

(** ** Searching several folders *)

(** The pairs that the blocks of identifiers give, folder by folder. *)
Fixpoint tagged (folders : list string) (blocks : list (list string))
  : list (string * string) :=
  match folders, blocks with
  | folder :: folders', ids :: blocks' =>
      map (fun email_id => (email_id, folder)) ids ++ tagged folders' blocks'
  | _, _ => []
  end.

Lemma ids_of_app f a b : ids_of f (a ++ b) = ids_of f a ++ ids_of f b.
Proof. unfold ids_of. rewrite filter_app, map_app. reflexivity. Qed.

Lemma ids_of_block f folder ids :
  ids_of f (map (fun email_id : string => (email_id, folder)) ids)
  = if String.eqb folder f then ids else [].
Proof.
  unfold ids_of. induction ids as [ | x r IH]; simpl.
  - destruct (String.eqb folder f); reflexivity.
  - destruct (String.eqb folder f); simpl in *; [f_equal | ]; exact IH.
Qed.

Lemma ids_of_tagged_absent f folders :
  ~ In f folders -> forall blocks, ids_of f (tagged folders blocks) = [].
Proof.
  induction folders as [ | g folders IH]; intros Hn blocks; [reflexivity | ].
  destruct blocks as [ | ids blocks]; [reflexivity | ].
  simpl. rewrite ids_of_app, ids_of_block.
  destruct (String.eqb g f) eqn:He.
  - apply String.eqb_eq in He. subst. exfalso. apply Hn. left. reflexivity.
  - apply IH. intros Hin. apply Hn. right. exact Hin.
Qed.

Lemma ids_of_tagged folders :
  NoDup folders ->
  forall blocks f ids,
    In (f, ids) (combine folders blocks) ->
    ids_of f (tagged folders blocks) = ids.
Proof.
  induction folders as [ | g folders IH]; intros Hn blocks f ids Hin;
    [destruct Hin | ].
  destruct blocks as [ | b blocks]; [destruct Hin | ].
  inversion Hn as [ | ? ? Hg Hrest]; subst.
  simpl. rewrite ids_of_app, ids_of_block.
  destruct Hin as [Heq | Hin].
  - inversion Heq; subst. rewrite String.eqb_refl.
    rewrite ids_of_tagged_absent by exact Hg. apply app_nil_r.
  - destruct (String.eqb g f) eqn:He.
    + apply String.eqb_eq in He. subst. exfalso. apply Hg.
      apply in_combine_l in Hin. exact Hin.
    + apply (IH Hrest). exact Hin.
Qed.

(** The folders are searched one after the other, each search starting
    in the state that the one before left: [blocks] holds, folder by
    folder, what [search_old_emails] returned there. *)
Fixpoint searched_each (cutoff : string) (folders : list string)
         (blocks : list (list string)) (c c' : Core Srv) (evs : list Event)
  : Prop :=
  match folders, blocks with
  | [], [] => c' = c /\ evs = []
  | folder :: folders', ids :: blocks' =>
      exists c1 e1 e2,
        search_old_emails cutoff folder c = (ids, c1, e1)
        /\ searched_each cutoff folders' blocks' c1 c' e2
        /\ evs = e1 ++ e2
  | _, _ => False
  end.

(** The same read off the commands: the trace falls into one stretch for
    each folder; a stretch either ends with the one search of the folder,
    sent after the folder (or one of its alternates) was selected, and the
    block is what that search was answered with, or it holds no search at
    all and the block is empty. *)
Fixpoint searched_trace (cutoff : string) (folders : list string)
         (blocks : list (list string)) (evs : list Event) : Prop :=
  match folders, blocks with
  | [], [] => evs = []
  | folder :: folders', ids :: blocks' =>
      exists e1 e2,
        evs = e1 ++ e2
        /\ ((sends session_cmd e1 /\ ids = [])
            \/ exists pre h d r,
                parse_cutoff_date cutoff = Some d
                /\ e1 = pre ++ [mkEvent h (Search ("BEFORE " ++ strftime_dmy d))
                                        r]
                /\ sends session_cmd pre
                /\ ids = search_result r
                /\ (folder <> EmptyString ->
                    exists h' m, In m (folder :: folder_variations folder)
                                 /\ ends_selecting h' m pre))
        /\ searched_trace cutoff folders' blocks' e2
  | _, _ => False
  end.

Lemma search_multiple_folders_blocks cutoff folders :
  forall (c : Core Srv) pairs c' evs,
    search_old_emails_multiple_folders cutoff folders c = (pairs, c', evs) ->
    exists blocks,
      List.length blocks = List.length folders
      /\ pairs = tagged folders blocks
      /\ searched_each cutoff folders blocks c c' evs
      /\ searched_trace cutoff folders blocks evs.
Proof.
  induction folders as [ | folder rest IH]; intros c pairs c' evs H;
    simpl in H.
  - rinv H. exists []. simpl. auto.
  - minv_as H ids c1 e1 e1' Hs H. minv_as H more c2 e2 e2' Hm H. rinv H.
    destruct (IH _ _ _ _ Hm) as (blocks & Hlen & -> & Heach & Htrace).
    exists (ids :: blocks). rewrite app_nil_r.
    split; [simpl; congruence | ]. split; [reflexivity | ]. split.
    + simpl. exists c1, e1, e2. auto.
    + simpl. exists e1, e2. split; [reflexivity | ].
      split; [ | exact Htrace].
      apply search_old_emails_cases in Hs. exact Hs.
Qed.

(** X24. [search_old_emails_multiple_folders] searches the folders one
    after the other, in the order given, each search starting where the
    one before ended, and returns for each folder the identifiers that
    [search_old_emails] found there, each paired with that folder.  In
    the commands sent, every folder has its own stretch: it ends with the
    folder's one search, sent after the folder or one of its alternates
    was selected, and the folder's identifiers are those of the reply; or
    it holds no search (no connection, no folder selected, a cutoff that
    does not parse) and the folder has no pair.  Nothing is merged or
    dropped, so the number of pairs is the number of identifiers the
    searches returned, and when no folder is named twice, the pairs of a
    folder are exactly what its search found. *)
Theorem search_multiple_folders_tags_each_block :
  forall (cutoff : string) (folders : list string) (c : Core Srv),
    let '(pairs, c', evs) :=
      search_old_emails_multiple_folders cutoff folders c in
    exists blocks,
      List.length blocks = List.length folders
      /\ pairs = tagged folders blocks
      /\ List.length pairs = found evs
      /\ (NoDup folders ->
          forall folder ids,
            In (folder, ids) (combine folders blocks) ->
            ids_of folder pairs = ids)
      /\ searched_each cutoff folders blocks c c' evs
      /\ searched_trace cutoff folders blocks evs.
Proof.
  intros cutoff folders c.
  destruct (search_old_emails_multiple_folders cutoff folders c)
    as [[pairs c'] evs] eqn:Hrun.
  destruct (search_multiple_folders_blocks _ _ _ _ _ _ Hrun)
    as (blocks & Hlen & Hp & Heach & Htrace).
  exists blocks.
  split; [exact Hlen | ]. split; [exact Hp | ]. split; [ | split].
  - symmetry. eapply search_multiple_folders_found. exact Hrun.
  - intros Hn folder ids Hin. rewrite Hp. apply ids_of_tagged; assumption.
  - split; assumption.
Qed.

(** ** Which stores are sent *)

(** Every command but a store that is not the store of the deleted
    flag. *)
Definition plain_cmd (cmd : Command) : bool :=
  negb (is_store cmd) || is_store_deleted cmd.

Lemma session_plain cmd : session_cmd cmd = true -> plain_cmd cmd = true.
Proof. destruct cmd; simpl; intros H; first [reflexivity | discriminate H]. Qed.

Lemma true_gmail_plain cutoff (c : Core Srv) n c' evs :
  delete_old_emails_true_gmail cutoff c = (n, c', evs) -> sends plain_cmd evs.
Proof.
  intros H. unfold delete_old_emails_true_gmail in H.
  minv_as H source_folders c1 e1 e1' Hsrc H.
  apply (Sends_get_gmail_source_folders plain_cmd session_plain) in Hsrc;
    [ | reflexivity].
  minv_as H pairs c2 e2 e2' Hsearch H.
  apply (Sends_search_old_emails_multiple_folders plain_cmd session_plain)
    in Hsearch; [ | reflexivity].
  apply sends_app; [tauto | ]. apply sends_app; [tauto | ].
  destruct pairs as [ | p pairs]; [rinv H; constructor | ].
  minv_as H total c3 e3 e3' Hloop H.
  apply (Sends_true_gmail_loop plain_cmd session_plain) in Hloop;
    [ | reflexivity | reflexivity].
  minv_as H u c4 e4 e4' Hset H. inversion Hset; subst; clear Hset. rinv H.
  apply sends_app; [tauto | constructor].
Qed.

Lemma logging_loop_plain cutoff batch_size groups :
  forall total (c : Core Srv) r c' evs,
    logging_loop cutoff batch_size groups total c = (r, c', evs) ->
    sends plain_cmd evs.
Proof.
  induction groups as [ | [folder ids] rest IH]; intros total c r c' evs H;
    cbn [logging_loop] in H.
  - rinv H. constructor.
  - minv_as H ok c1 e1 e1' Hsel H.
    apply (Sends_select_folder plain_cmd session_plain) in Hsel.
    apply sends_app; [tauto | ].
    destruct ok; [ | eapply IH; exact H].
    minv_as H u c2 e2 e2' Hprev H.
    apply (Sends_preview plain_cmd session_plain) in Hprev; [ | reflexivity].
    apply sends_app; [tauto | ].
    destruct (is_gmail_all_mail_folder folder).
    + minv_as H k c3 e3 e3' Htrue H. apply true_gmail_plain in Htrue.
      apply sends_app; [exact Htrue | eapply IH; exact H].
    + destruct (batch_size =? 0); [rinv H; constructor | ].
      minv_as H k c3 e3 e3' Hb H.
      apply (Sends_delete_batches plain_cmd session_plain) in Hb;
        [ | reflexivity].
      minv_as H u' c4 e4 e4' Hx H.
      apply (Sends_expunge_if_any plain_cmd session_plain) in Hx;
        [ | reflexivity].
      apply sends_app; [tauto | ]. apply sends_app; [tauto | ].
      eapply IH. exact H.
Qed.

(** X25. The store that removes the All label is sent by no workflow but
    the fast one, and by the fast one only when an All Mail spelling is
    among its target folders: every store of the true deletion and of the
    logged workflow, and of the fast workflow on folders none of which is
    an All Mail spelling, is the store of the deleted flag. *)
Theorem only_the_deleted_flag_is_stored :
  forall (cutoff : string) (folders : list string) (batch_size : nat)
         (c : Core Srv),
    sends plain_cmd (snd (delete_old_emails_true_gmail cutoff c))
    /\ sends plain_cmd
         (snd (delete_old_emails_with_logging cutoff folders batch_size c))
    /\ ((forall f, In f folders -> is_gmail_all_mail_folder f = false) ->
        sends plain_cmd (snd (delete_old_emails_fast cutoff folders c))).
Proof.
  intros cutoff folders batch_size c. split; [ | split].
  - destruct (delete_old_emails_true_gmail cutoff c) as [[n c'] evs] eqn:H.
    exact (true_gmail_plain _ _ _ _ _ H).
  - destruct (delete_old_emails_with_logging cutoff folders batch_size c)
      as [[r c'] evs] eqn:H.
    simpl. unfold delete_old_emails_with_logging in H.
    minv_as H pairs c1 e1 e1' Hfind H.
    apply (Sends_find_old_emails plain_cmd session_plain) in Hfind;
      [ | reflexivity].
    apply sends_app; [tauto | ].
    destruct pairs as [ | p pairs]; [rinv H; constructor | ].
    minv_as H r0 c3 e3 e3' Hloop H. apply logging_loop_plain in Hloop.
    apply sends_app; [exact Hloop | ].
    destruct r0 as [total | ]; [ | rinv H; constructor].
    minv_as H u c4 e4 e4' Hset H. inversion Hset; subst; clear Hset. rinv H.
    constructor.
  - intros Hfolders.
    destruct (delete_old_emails_fast cutoff folders c) as [[n c'] evs] eqn:H.
    simpl. unfold delete_old_emails_fast in H.
    destruct (only_all_mail folders); [exact (true_gmail_plain _ _ _ _ _ H) | ].
    minv_as H pairs c1 e1 e1' Hfind H.
    pose proof (find_old_emails_pairs _ _ _ _ _ _ Hfind) as Hin.
    apply (Sends_find_old_emails plain_cmd session_plain) in Hfind;
      [ | reflexivity].
    apply sends_app; [tauto | ].
    destruct pairs as [ | p pairs]; [rinv H; constructor | ].
    minv_as H total c3 e3 e3' Hloop H.
    apply (Sends_fast_loop plain_cmd session_plain) in Hloop;
      [ | reflexivity | reflexivity | ].
    + minv_as H u c4 e4 e4' Hset H. inversion Hset; subst; clear Hset.
      rinv H. apply sends_app; [tauto | constructor].
    + pose proof (group_by_folder_groups
                    (fun f => is_gmail_all_mail_folder f = false) (p :: pairs)
                    (fun q Hq => Hfolders _ (Hin q Hq))) as Hg.
      rewrite Forall_forall in *. intros g Hgin. apply (Hg g Hgin).
Qed.


(** ** The commands of a session that stays alive *)

Definition is_noop (cmd : Command) : bool :=
  match cmd with
  | Noop => true
  | _ => false
  end.

(** The events of a run without its liveness probes. *)
Definition sent (evs : list Event) : list Event :=
  filter (fun e => negb (is_noop (ev_cmd e))) evs.

Lemma sent_app a b : sent (a ++ b) = sent a ++ sent b.
Proof. unfold sent. apply filter_app. Qed.

(** The search-and-delete of the specification, written for a connection
    [h] that stays alive: the same calls as the methods make, without the
    liveness checks and the reconnecting around them. *)

(** Selecting a folder: its name, then its alternate spellings, up to the
    first that the server accepts. *)
Fixpoint select_first (h : nat) (names : list string) : M bool :=
  match names with
  | [] => ret false
  | name :: rest =>
      r <- call h (Select name) ;;
      if selected_ok r then ret true else select_first h rest
  end.

Definition selecting (h : nat) (folder : string) : M bool :=
  select_first h (folder :: folder_variations folder).

(** Searching a folder for the messages older than the cutoff. *)
Definition searching (h : nat) (cutoff folder : string) : M (list string) :=
  selected <- (if String.eqb folder "" then ret true
               else selecting h folder) ;;
  if selected then
    match parse_cutoff_date cutoff with
    | None => ret []
    | Some d =>
        r <- call h (Search ("BEFORE " ++ strftime_dmy d)) ;;
        ret (search_result r)
    end
  else ret [].

Fixpoint searching_each (h : nat) (cutoff : string) (folders : list string)
  : M (list (string * string)) :=
  match folders with
  | [] => ret []
  | folder :: rest =>
      ids <- searching h cutoff folder ;;
      more <- searching_each h cutoff rest ;;
      ret (map (fun email_id => (email_id, folder)) ids ++ more)
  end.

(** Marking the identifiers with one store; the count is all or nothing. *)
Definition marking (h : nat) (email_ids : list string) : M nat :=
  match email_ids with
  | [] => ret 0
  | _ :: _ =>
      r <- call h (store_deleted email_ids) ;;
      ret (if reply_ok r then List.length email_ids else 0)
  end.

(** Expunging when something was marked. *)
Definition expunging (h : nat) (deleted_count : nat) : M unit :=
  if 0 <? deleted_count then r <- call h Expunge ;; ret tt else ret tt.

(** Folder by folder: select, mark what was found there, expunge. *)
Fixpoint deleting_each (h : nat) (folder_groups : list (string * list string))
         (total_deleted : nat) : M nat :=
  match folder_groups with
  | [] => ret total_deleted
  | (folder, email_ids) :: rest =>
      ok <- selecting h folder ;;
      if ok then
        deleted_count <- marking h email_ids ;;
        u <- expunging h deleted_count ;;
        deleting_each h rest (total_deleted + deleted_count)
      else deleting_each h rest total_deleted
  end.

(** The search-and-delete in the given folders. *)
Definition search_and_delete (h : nat) (cutoff : string)
           (folders : list string) : M nat :=
  email_folder_pairs <- searching_each h cutoff folders ;;
  match email_folder_pairs with
  | [] => ret 0
  | _ :: _ =>
      total_deleted <- deleting_each h (group_by_folder email_folder_pairs) 0 ;;
      u <- set_emails_deleted total_deleted ;;
      ret total_deleted
  end.

(** The folders that [list_folders] makes of the reply to the listing. *)
Definition listed (r : Reply) : list string :=
  match r with
  | Returned typ (DNames names) => if is_OK typ then sort_folders names else []
  | _ => []
  end.

(** The redirection: the folders are listed, the source folders are picked
    from the listing, and the search-and-delete runs there. *)
Definition redirected (h : nat) (cutoff : string) : M nat :=
  r <- call h ListFolders ;;
  search_and_delete h cutoff (source_folders_of (listed r)).

(** The preview: the headers of the first identifiers are fetched. *)
Fixpoint previewing (h : nat) (email_ids : list string) : M unit :=
  match email_ids with
  | [] => ret tt
  | email_id :: rest =>
      r <- call h (Fetch email_id "(RFC822.HEADER)") ;;
      previewing h rest
  end.

(** The logged workflow on the All Mail folder [f] alone: All Mail itself
    is searched first; only when that search finds something and the
    folder is selected again is the run redirected. *)
Definition logged_on_all_mail (h : nat) (cutoff f : string)
  : M (option nat) :=
  ids <- searching h cutoff f ;;
  match ids with
  | [] => ret (Some 0)
  | _ :: _ =>
      ok <- selecting h f ;;
      if ok then
        u <- previewing h (firstn 3 ids) ;;
        n <- redirected h cutoff ;;
        u <- set_emails_deleted n ;;
        ret (Some n)
      else
        u <- set_emails_deleted 0 ;;
        ret (Some 0)
  end.

Section Live.
(** A server that answers the liveness probe with OK and is not changed
    by it. *)
Hypothesis probe_ok :
  forall h s, exists d, imap h Noop s = (Returned "OK" d, s).

(** On every state whose connection is [h], the method [m] returns what
    [spec] returns and leaves the state that [spec] leaves, and what it
    sends beyond its probes is what [spec] sends. *)
Definition Live {A : Type} (h : nat) (m spec : M A) : Prop :=
  forall c : Core Srv,
    connection c = Some h ->
    exists evs,
      m c = (fst (fst (spec c)), snd (fst (spec c)), evs)
      /\ sent evs = snd (spec c)
      /\ connection (snd (fst (spec c))) = Some h.

Lemma Live_ret {A : Type} h (a : A) : Live h (ret a) (ret a).
Proof. intros c Hc. exists []. simpl. auto. Qed.

Lemma Live_bind {A B : Type} h (m spec : M A) (k sk : A -> M B) :
  Live h m spec -> (forall a, Live h (k a) (sk a)) ->
  Live h (bind m k) (bind spec sk).
Proof.
  intros Hm Hk c Hc. destruct (Hm c Hc) as (e1 & Hrun & Hs & Hconn).
  unfold bind. destruct (spec c) as [[a c1] r1]. simpl in Hrun, Hs, Hconn.
  destruct (Hk a c1 Hconn) as (e2 & Hrun2 & Hs2 & Hconn2).
  rewrite Hrun. destruct (sk a c1) as [[b c2] r2].
  simpl in Hrun2, Hs2, Hconn2. rewrite Hrun2.
  exists (e1 ++ e2). simpl. split; [reflexivity | ].
  split; [rewrite sent_app, Hs, Hs2; reflexivity | exact Hconn2].
Qed.

Lemma Live_call h cmd :
  is_noop cmd = false -> Live h (call h cmd) (call h cmd).
Proof.
  intros Hn c Hc. unfold call.
  destruct (imap h cmd (server c)) as [r s].
  exists [mkEvent h cmd r]. simpl. split; [reflexivity | ].
  split; [unfold sent; simpl; rewrite Hn; reflexivity | exact Hc].
Qed.

Lemma Live_call_self h cmd :
  is_noop cmd = false -> Live h (call_self cmd) (call h cmd).
Proof.
  intros Hn c Hc. unfold call_self. rewrite Hc.
  apply (Live_call h cmd Hn c Hc).
Qed.

Lemma Live_set_emails_deleted h n :
  Live h (set_emails_deleted n) (set_emails_deleted n).
Proof. intros c Hc. exists []. simpl. auto. Qed.

Lemma ensure_connection_live (c : Core Srv) h :
  connection c = Some h ->
  exists d, ensure_connection c = (true, c, [mkEvent h Noop (Returned "OK" d)]).
Proof.
  intros Hc. destruct (probe_ok h (server c)) as [d Hd]. exists d.
  unfold ensure_connection, bind, get_self_connection, call, ret.
  rewrite Hc, Hd. simpl. rewrite core_eta. reflexivity.
Qed.

Lemma get_connection_live (c : Core Srv) h :
  connection c = Some h ->
  exists d,
    get_connection c = (Some h, c, [mkEvent h Noop (Returned "OK" d)]).
Proof.
  intros Hc. destruct (ensure_connection_live c h Hc) as [d Hd]. exists d.
  unfold get_connection, bind. rewrite Hd. unfold get_self_connection.
  rewrite Hc. reflexivity.
Qed.

(** A method that starts with the liveness check goes on as if the check
    were not there. *)
Lemma Live_ensured {A : Type} h (k : bool -> M A) (spec : M A) :
  Live h (k true) spec -> Live h (bind ensure_connection k) spec.
Proof.
  intros Hk c Hc. destruct (ensure_connection_live c h Hc) as [d Hd].
  destruct (Hk c Hc) as (e & Hrun & Hs & Hconn).
  unfold bind. rewrite Hd, Hrun.
  exists ([mkEvent h Noop (Returned "OK" d)] ++ e).
  split; [reflexivity | ]. split; [ | exact Hconn].
  rewrite sent_app, Hs. reflexivity.
Qed.

Lemma Live_connected {A : Type} h (k : option nat -> M A) (spec : M A) :
  Live h (k (Some h)) spec -> Live h (bind get_connection k) spec.
Proof.
  intros Hk c Hc. destruct (get_connection_live c h Hc) as [d Hd].
  destruct (Hk c Hc) as (e & Hrun & Hs & Hconn).
  unfold bind. rewrite Hd, Hrun.
  exists ([mkEvent h Noop (Returned "OK" d)] ++ e).
  split; [reflexivity | ]. split; [ | exact Hconn].
  rewrite sent_app, Hs. reflexivity.
Qed.

Lemma Live_try_variations h names :
  Live h (try_variations names) (select_first h names).
Proof.
  induction names as [ | name rest IH]; simpl; [apply Live_ret | ].
  unfold try_select.
  intros c Hc.
  destruct (Live_call_self h (Select name) eq_refl c Hc)
    as (e1 & Hrun & Hs & Hconn).
  unfold bind. rewrite Hrun.
  destruct (call h (Select name) c) as [[r c1] r1].
  simpl in Hs, Hconn |- *.
  destruct (selected_ok r).
  - eexists. split; [reflexivity | ].
    split; [ | exact Hconn]. rewrite !sent_app, Hs. simpl.
    rewrite ?app_nil_r. reflexivity.
  - destruct (IH c1 Hconn) as (e2 & Hrun2 & Hs2 & Hconn2).
    rewrite Hrun2. destruct (select_first h rest c1) as [[b c2] r2].
    simpl in Hs2, Hconn2 |- *.
    eexists. split; [reflexivity | ].
    split; [ | exact Hconn2]. rewrite !sent_app, Hs, Hs2. simpl.
    rewrite ?app_nil_r. reflexivity.
Qed.

Lemma Live_select_folder h folder :
  Live h (select_folder folder) (selecting h folder).
Proof.
  unfold select_folder. apply Live_ensured.
  exact (Live_try_variations h (folder :: folder_variations folder)).
Qed.

Lemma Live_list_folders h :
  Live h list_folders (r <- call h ListFolders ;; ret (listed r)).
Proof.
  unfold list_folders. apply Live_ensured.
  apply Live_bind; [apply Live_call_self; reflexivity | ].
  intros r. destruct r as [typ [ | n | ids | names | a b d] | b]; simpl;
    try apply Live_ret.
  destruct (is_OK typ); apply Live_ret.
Qed.

Lemma Live_search_old_emails h cutoff folder :
  Live h (search_old_emails cutoff folder) (searching h cutoff folder).
Proof.
  unfold search_old_emails, searching. apply Live_connected.
  apply Live_bind.
  - destruct (String.eqb folder ""); [apply Live_ret | ].
    apply Live_select_folder.
  - intros selected. destruct selected; [ | apply Live_ret].
    unfold format_date_for_imap_search.
    destruct (parse_cutoff_date cutoff) as [d | ]; [ | apply Live_ret].
    apply Live_bind; [apply Live_call; reflexivity | ].
    intros r. destruct r as [typ [ | n | ids | names | a b d'] | b]; simpl;
      try apply Live_ret.
    destruct (is_OK typ); apply Live_ret.
Qed.

Lemma Live_search_multiple h cutoff folders :
  Live h (search_old_emails_multiple_folders cutoff folders)
         (searching_each h cutoff folders).
Proof.
  induction folders as [ | folder rest IH]; simpl; [apply Live_ret | ].
  apply Live_bind; [apply Live_search_old_emails | ]. intros ids.
  apply Live_bind; [exact IH | ]. intros more. apply Live_ret.
Qed.

Lemma Live_delete_emails_bulk h email_ids :
  Live h (delete_emails_bulk email_ids) (marking h email_ids).
Proof.
  unfold delete_emails_bulk, marking. apply Live_connected.
  destruct email_ids as [ | x ids]; [apply Live_ret | ].
  apply Live_bind; [apply Live_call; reflexivity | ].
  intros r. destruct r as [typ d | b]; simpl; [ | apply Live_ret].
  destruct (is_OK typ); apply Live_ret.
Qed.

Lemma Live_expunge_if_any h n :
  Live h (expunge_if_any n) (expunging h n).
Proof.
  unfold expunge_if_any, expunging. destruct (0 <? n); [ | apply Live_ret].
  intros c Hc.
  assert (Hex : Live h expunge_deleted_emails
                       (r <- call h Expunge ;; ret (reply_ok r))).
  { unfold expunge_deleted_emails. apply Live_connected.
    apply Live_bind; [apply Live_call; reflexivity | ].
    intros r. destruct r as [typ d | b]; apply Live_ret. }
  destruct (Hex c Hc) as (e & Hrun & Hs & Hconn).
  unfold bind in *. rewrite Hrun.
  destruct (call h Expunge c) as [[r c1] e1]. simpl in *.
  exists (e ++ []). split; [reflexivity | ]. split; [ | exact Hconn].
  rewrite sent_app, Hs. simpl. rewrite ?app_nil_r. reflexivity.
Qed.

Lemma Live_true_gmail_loop h groups :
  forall total,
    Live h (true_gmail_loop groups total) (deleting_each h groups total).
Proof.
  induction groups as [ | [folder ids] rest IH]; intros total; simpl;
    [apply Live_ret | ].
  apply Live_bind; [apply Live_select_folder | ].
  intros ok. destruct ok; [ | apply IH].
  apply Live_bind; [apply Live_delete_emails_bulk | ]. intros n.
  apply Live_bind; [apply Live_expunge_if_any | ]. intros u. apply IH.
Qed.

Lemma Live_ext {A : Type} h (m spec spec' : M A) :
  (forall c, spec c = spec' c) -> Live h m spec -> Live h m spec'.
Proof.
  intros Heq Hm c Hc. rewrite <- Heq. exact (Hm c Hc).
Qed.

Lemma Live_get_gmail_source_folders h :
  Live h get_gmail_source_folders
         (r <- call h ListFolders ;; ret (source_folders_of (listed r))).
Proof.
  intros c Hc. unfold get_gmail_source_folders.
  destruct (Live_list_folders h c Hc) as (e1 & Hrun & Hs & Hconn).
  unfold bind in *. rewrite Hrun.
  destruct (call h ListFolders c) as [[r c1] r1]. simpl in Hs, Hconn |- *.
  eexists. split; [reflexivity | ]. split; [ | exact Hconn].
  rewrite !sent_app, Hs. simpl. rewrite ?app_nil_r. reflexivity.
Qed.

Lemma Live_true_gmail h cutoff :
  Live h (delete_old_emails_true_gmail cutoff) (redirected h cutoff).
Proof.
  apply (Live_ext h _
           (bind (r <- call h ListFolders ;;
                  ret (source_folders_of (listed r)))
                 (search_and_delete h cutoff))).
  { intros c. unfold redirected, bind.
    destruct (call h ListFolders c) as [[r c1] e1]. simpl.
    destruct (search_and_delete h cutoff (source_folders_of (listed r)) c1)
      as [[n c2] e2].
    rewrite app_nil_r. reflexivity. }
  unfold delete_old_emails_true_gmail.
  apply Live_bind; [apply Live_get_gmail_source_folders | ].
  intros source_folders. unfold search_and_delete.
  apply Live_bind; [apply Live_search_multiple | ]. intros pairs.
  destruct pairs as [ | p pairs]; [apply Live_ret | ].
  apply Live_bind; [apply Live_true_gmail_loop | ]. intros total.
  apply Live_bind; [apply Live_set_emails_deleted | ]. intros u.
  apply Live_ret.
Qed.

Lemma Live_preview h email_ids :
  Live h (preview email_ids) (previewing h email_ids).
Proof.
  induction email_ids as [ | x ids IH]; simpl; [apply Live_ret | ].
  intros c Hc.
  assert (Hmd : Live h (get_email_metadata x)
                       (r <- call h (Fetch x "(RFC822.HEADER)") ;;
                        ret match r with
                            | Returned typ (DHeader subject sender date) =>
                                if is_OK typ
                                then metadata_of x subject sender date
                                else None
                            | _ => None
                            end)).
  { unfold get_email_metadata. apply Live_connected.
    apply Live_bind; [apply Live_call; reflexivity | ].
    intros r. destruct r as [typ [ | n | l | names | a b d] | b]; simpl;
      try apply Live_ret.
    destruct (is_OK typ); apply Live_ret. }
  destruct (Hmd c Hc) as (e1 & Hrun & Hs & Hconn).
  unfold bind in *. rewrite Hrun.
  destruct (call h (Fetch x "(RFC822.HEADER)") c) as [[r c1] r1].
  simpl in Hs, Hconn |- *.
  destruct (IH c1 Hconn) as (e2 & Hrun2 & Hs2 & Hconn2).
  rewrite Hrun2. destruct (previewing h ids c1) as [[u c2] r2].
  simpl in Hs2, Hconn2 |- *.
  exists (e1 ++ e2). split; [reflexivity | ]. split; [ | exact Hconn2].
  rewrite sent_app, Hs, Hs2, app_nil_r. reflexivity.
Qed.

Lemma Live_run {A : Type} h (m spec : M A) :
  Live h m spec ->
  forall c a c' run,
    connection c = Some h -> spec c = (a, c', run) ->
    exists evs, m c = (a, c', evs) /\ sent evs = run
                /\ connection c' = Some h.
Proof.
  intros Hm c a c' run Hc Hspec. destruct (Hm c Hc) as (evs & H).
  rewrite Hspec in H. simpl in H. exists evs. exact H.
Qed.

Lemma Live_intro {A : Type} h (m spec : M A) :
  (forall c a c' run,
      connection c = Some h -> spec c = (a, c', run) ->
      exists evs, m c = (a, c', evs) /\ sent evs = run
                  /\ connection c' = Some h) ->
  Live h m spec.
Proof.
  intros H c Hc. destruct (spec c) as [[a c'] run] eqn:Hspec.
  exact (H c a c' run Hc Hspec).
Qed.

Lemma bind_run {A B : Type} (m : M A) (k : A -> M B) (c : Core Srv)
      a c1 e1 b c2 e2 :
  m c = (a, c1, e1) -> k a c1 = (b, c2, e2) ->
  bind m k c = (b, c2, e1 ++ e2).
Proof. intros H1 H2. unfold bind. rewrite H1, H2. reflexivity. Qed.

Lemma Live_logging_all_mail h cutoff f batch_size :
  is_gmail_all_mail_folder f = true ->
  Live h (delete_old_emails_with_logging cutoff [f] batch_size)
         (logged_on_all_mail h cutoff f).
Proof.
  intros Hf. apply Live_intro. intros c a c' run Hc Hspec.
  unfold logged_on_all_mail in Hspec.
  minv_as Hspec ids c1 r1 r1' Hsearch Hspec.
  destruct (Live_run _ _ _ (Live_search_old_emails h cutoff f)
                     _ _ _ _ Hc Hsearch) as (e1 & Hrun1 & Hs1 & Hc1).
  unfold delete_old_emails_with_logging, find_old_emails.
  destruct ids as [ | x ids].
  - rinv Hspec. eexists. split.
    + eapply bind_run; [eapply bind_run; [exact Hrun1 | reflexivity] | ].
      reflexivity.
    + split; [ | exact Hc1]. rewrite !sent_app. simpl.
      rewrite ?app_nil_r. reflexivity.
  - minv_as Hspec ok c2 r2 r2' Hsel Hspec.
    destruct (Live_run _ _ _ (Live_select_folder h f) _ _ _ _ Hc1 Hsel)
      as (e2 & Hrun2 & Hs2 & Hc2).
    destruct ok.
    + minv_as Hspec u c3 r3 r3' Hprev Hspec.
      destruct (Live_run _ _ _ (Live_preview h (firstn 3 (x :: ids)))
                         _ _ _ _ Hc2 Hprev) as (e3 & Hrun3 & Hs3 & Hc3).
      minv_as Hspec n c4 r4 r4' Hred Hspec.
      destruct (Live_run _ _ _ (Live_true_gmail h cutoff) _ _ _ _ Hc3 Hred)
        as (e4 & Hrun4 & Hs4 & Hc4).
      minv_as Hspec u2 c5 r5 r5' Hset Hspec. rinv Hspec.
      inversion Hset; subst.
      eexists. split.
      * eapply bind_run; [eapply bind_run; [exact Hrun1 | reflexivity] | ].
        cbn [map].
        change ((x, f) :: map (fun email_id => (email_id, f)) ids)
          with (map (fun email_id => (email_id, f)) (x :: ids)).
        rewrite group_by_folder_one by discriminate.
        eapply bind_run.
        -- cbn [logging_loop]. eapply bind_run; [exact Hrun2 | ].
           cbv iota. eapply bind_run; [exact Hrun3 | ]. cbv beta.
           rewrite Hf. eapply bind_run; [exact Hrun4 | ]. reflexivity.
        -- cbv beta iota. eapply bind_run; reflexivity.
      * split; [ | exact Hc4]. rewrite !sent_app.
        simpl. rewrite ?app_nil_r, <- ?app_assoc. reflexivity.
    + minv_as Hspec u2 c5 r5 r5' Hset Hspec. rinv Hspec.
      inversion Hset; subst.
      eexists. split.
      * eapply bind_run; [eapply bind_run; [exact Hrun1 | reflexivity] | ].
        cbn [map].
        change ((x, f) :: map (fun email_id => (email_id, f)) ids)
          with (map (fun email_id => (email_id, f)) (x :: ids)).
        rewrite group_by_folder_one by discriminate.
        eapply bind_run.
        -- cbn [logging_loop]. eapply bind_run; [exact Hrun2 | ].
           reflexivity.
        -- cbv beta iota. eapply bind_run; reflexivity.
      * split; [ | exact Hc2]. rewrite !sent_app.
        simpl. rewrite ?app_nil_r, <- ?app_assoc. reflexivity.
Qed.

(** A method that starts with the liveness check. *)
Definition checks_first {A : Type} (m : M A) : Prop :=
  exists K, forall c, m c = bind ensure_connection K c.

Lemma bind_assoc {A B C : Type} (m : M A) (k : A -> M B) (k' : B -> M C)
      (c : Core Srv) :
  bind (bind m k) k' c = bind m (fun a => bind (k a) k') c.
Proof.
  unfold bind. destruct (m c) as [[a c1] e1].
  destruct (k a c1) as [[b c2] e2]. destruct (k' b c2) as [[d c3] e3].
  rewrite app_assoc. reflexivity.
Qed.

(** From any state: once the check at its start has ensured the session,
    such a method goes on as on a live connection. *)
Lemma Live_after_check {A : Type} h (m spec : M A) :
  checks_first m -> Live h m spec ->
  forall c c0 e0,
    ensure_connection c = (true, c0, e0) -> connection c0 = Some h ->
    exists rest,
      m c = (fst (fst (spec c0)), snd (fst (spec c0)), e0 ++ rest)
      /\ sent rest = snd (spec c0).
Proof.
  intros (K & HK) Hlive c c0 e0 Hens Hc0.
  destruct (Hlive c0 Hc0) as (evs & Hrun & Hs & _).
  rewrite HK in Hrun. unfold bind in Hrun.
  destruct (ensure_connection_live c0 h Hc0) as (d & Hd).
  rewrite Hd in Hrun. destruct (K true c0) as [[a c'] eK] eqn:HKrun.
  injection Hrun as Ha Hc' He. subst evs.
  exists eK. rewrite HK. unfold bind. rewrite Hens, HKrun, Ha, Hc'.
  split; [reflexivity | exact Hs].
Qed.

Lemma true_gmail_checks_first cutoff :
  checks_first (delete_old_emails_true_gmail cutoff).
Proof.
  eexists. intros c.
  unfold delete_old_emails_true_gmail, get_gmail_source_folders.
  rewrite bind_assoc. unfold list_folders. rewrite bind_assoc.
  reflexivity.
Qed.

Lemma logging_checks_first cutoff f batch_size :
  checks_first (delete_old_emails_with_logging cutoff [f] batch_size).
Proof.
  eexists. intros c.
  unfold delete_old_emails_with_logging, find_old_emails.
  rewrite bind_assoc. unfold search_old_emails. rewrite bind_assoc.
  unfold get_connection. rewrite bind_assoc. reflexivity.
Qed.

End Live.

(** When the session cannot be ensured, nothing is looked for. *)
Lemma true_gmail_without_session cutoff (c : Core Srv) c0 e0 :
  ensure_connection c = (false, c0, e0) ->
  delete_old_emails_true_gmail cutoff c = (0, c0, e0).
Proof.
  intros Hens.
  unfold delete_old_emails_true_gmail, get_gmail_source_folders, list_folders.
  unfold bind. rewrite Hens. simpl. rewrite !app_nil_r. reflexivity.
Qed.

Lemma logging_without_session cutoff f batch_size (c : Core Srv) c0 e0 :
  ensure_connection c = (false, c0, e0) ->
  delete_old_emails_with_logging cutoff [f] batch_size c = (Some 0, c0, e0).
Proof.
  intros Hens.
  unfold delete_old_emails_with_logging, find_old_emails, search_old_emails,
    get_connection.
  unfold bind. rewrite Hens. simpl. rewrite !app_nil_r. reflexivity.
Qed.


(** ** The fast and the logged workflow, batch by batch *)

(** A server on which marking the identifiers of a list in two
    consecutive portions is answered as marking them at once is, and
    leaves the same state. *)
Definition store_splits : Prop :=
  forall (h : nat) (a b : list string) (s : Srv),
    a <> [] -> b <> [] ->
    let '(r, s') := imap h (store_deleted (a ++ b)) s in
    let '(r1, s1) := imap h (store_deleted a) s in
    let '(r2, s2) := imap h (store_deleted b) s1 in
    reply_ok r1 = reply_ok r /\ reply_ok r2 = reply_ok r /\ s2 = s'.

(** The second trace is the first with every store of a list of
    identifiers replaced by the stores of its batches, one after the
    other on the same connection, each answered as the whole store is;
    every other event is the same. *)
Inductive in_batches (batch_size : nat) : list Event -> list Event -> Prop :=
| in_batches_nil : in_batches batch_size [] []
| in_batches_same e fast logged :
    is_store (ev_cmd e) = false ->
    in_batches batch_size fast logged ->
    in_batches batch_size (e :: fast) (e :: logged)
| in_batches_store h email_ids r parts fast logged :
    map ev_cmd parts
    = map store_deleted
          (batches (List.length email_ids) batch_size email_ids) ->
    Forall (fun e => ev_conn e = h /\ reply_ok (ev_reply e) = reply_ok r)
           parts ->
    in_batches batch_size fast logged ->
    in_batches batch_size
               (mkEvent h (store_deleted email_ids) r :: fast)
               (parts ++ logged).

Lemma in_batches_app batch_size a a' b b' :
  in_batches batch_size a a' -> in_batches batch_size b b' ->
  in_batches batch_size (a ++ b) (a' ++ b').
Proof.
  intros Ha Hb. induction Ha as [ | e fast logged He _ IH
                                 | h ids r parts fast logged Hp Hr _ IH].
  - exact Hb.
  - simpl. apply in_batches_same; assumption.
  - simpl. rewrite <- app_assoc. apply in_batches_store; assumption.
Qed.

Lemma in_batches_refl batch_size evs :
  no_store evs -> in_batches batch_size evs evs.
Proof.
  induction 1 as [ | e evs He _ IH]; [apply in_batches_nil | ].
  apply in_batches_same; assumption.
Qed.

Lemma no_store_effective evs : no_store evs -> no_store (effective evs).
Proof.
  unfold no_store, effective. intros H. apply Forall_forall.
  intros e He. apply filter_In in He. destruct He as (He & _).
  rewrite Forall_forall in H. exact (H e He).
Qed.

Section Agreement.
(** A server on which the liveness probe succeeds and changes nothing,
    and on which fetching a header changes nothing. *)
Hypothesis probe_ok :
  forall h s, exists d, imap h Noop s = (Returned "OK" d, s).
Hypothesis fetch_pure :
  forall h message_set message_parts s,
    snd (imap h (Fetch message_set message_parts) s) = s.

(** [delete_emails_bulk] on a connection that is alive. *)
Lemma delete_emails_bulk_alive (email_ids : list string) (c : Core Srv) h :
  connection c = Some h -> email_ids <> [] ->
  exists pre,
    effective pre = []
    /\ delete_emails_bulk email_ids c
       = let '(r, s) := imap h (store_deleted email_ids) (server c) in
         (if reply_ok r then List.length email_ids else 0,
          mkCore (connection c) (created c) s (emails_deleted c),
          pre ++ [mkEvent h (store_deleted email_ids) r]).
Proof.
  intros Hc Hne.
  destruct (get_connection_alive probe_ok c h Hc) as (pre & Hg & Hpre).
  exists pre. split; [exact Hpre | ].
  rewrite delete_emails_bulk_exact, Hg.
  destruct email_ids as [ | x ids]; [congruence | reflexivity].
Qed.

Lemma delete_batches_alive batch_size :
  store_splits -> 0 < batch_size ->
  forall fuel (email_ids : list string) (c : Core Srv) h acc,
    connection c = Some h -> email_ids <> [] ->
    List.length email_ids <= fuel ->
    exists evs,
      delete_batches (batches fuel batch_size email_ids) acc c
      = (acc + (if reply_ok (fst (imap h (store_deleted email_ids) (server c)))
                then List.length email_ids else 0),
         mkCore (connection c) (created c)
                (snd (imap h (store_deleted email_ids) (server c)))
                (emails_deleted c),
         evs)
      /\ map ev_cmd (effective evs)
         = map store_deleted (batches fuel batch_size email_ids)
      /\ Forall (fun e =>
                   ev_conn e = h
                   /\ reply_ok (ev_reply e)
                      = reply_ok (fst (imap h (store_deleted email_ids)
                                            (server c))))
                (effective evs).
Proof.
  intros Hsplit Hbs fuel.
  induction fuel as [ | fuel IH]; intros ids c h acc Hc Hne Hlen.
  - destruct ids; [congruence | simpl in Hlen; lia].
  - destruct ids as [ | x rest] eqn:Hids; [congruence | ].
    rewrite <- Hids in *. clear Hne.
    assert (Hcut : batches (S fuel) batch_size ids
                   = firstn batch_size ids
                     :: batches fuel batch_size (skipn batch_size ids)).
    { rewrite Hids. reflexivity. }
    rewrite Hcut. cbn [delete_batches].
    assert (Ha : firstn batch_size ids <> []).
    { rewrite Hids. destruct batch_size; [lia | discriminate]. }
    destruct (delete_emails_bulk_alive _ c h Hc Ha) as (pre & Hpre & Hrun).
    destruct (skipn batch_size ids) as [ | y more] eqn:Hskip.
    + assert (Hall : firstn batch_size ids = ids).
      { rewrite <- (firstn_skipn batch_size ids) at 2.
        rewrite Hskip, app_nil_r. reflexivity. }
      rewrite Hall in *.
      assert (Hnil : batches fuel batch_size [] = []).
      { destruct fuel; reflexivity. }
      rewrite Hnil. cbn [delete_batches]. unfold bind. rewrite Hrun.
      destruct (imap h (store_deleted ids) (server c)) as [r s].
      simpl. eexists. split; [reflexivity | ].
      rewrite !effective_app, Hpre. simpl. split; [reflexivity | ].
      constructor; [ | constructor]. auto.
    + assert (Hb : y :: more <> []) by discriminate.
      rewrite <- Hskip in *.
      pose proof (Hsplit h _ _ (server c) Ha Hb) as Hs.
      rewrite firstn_skipn in Hs.
      destruct (imap h (store_deleted ids) (server c)) as [r s'].
      destruct (imap h (store_deleted (firstn batch_size ids)) (server c))
        as [r1 s1] eqn:H1.
      set (c1 := mkCore (connection c) (created c) s1 (emails_deleted c)).
      assert (Hlen' : List.length (skipn batch_size ids) <= fuel).
      { rewrite length_skipn. lia. }
      destruct (IH (skipn batch_size ids) c1 h
                   (acc + (if reply_ok r1
                           then List.length (firstn batch_size ids) else 0))
                   Hc Hb Hlen') as (e2 & Hrun2 & Hcmds & Hreps).
      simpl server in Hrun2, Hreps.
      destruct (imap h (store_deleted (skipn batch_size ids)) s1)
        as [r2 s2].
      destruct Hs as (Hr1 & Hr2 & ->). simpl in Hrun2, Hreps |- *.
      unfold c1 in Hrun2. unfold bind. rewrite Hrun, Hrun2.
      eexists. split; [ | split].
      * f_equal. f_equal. rewrite Hr1, Hr2.
        destruct (reply_ok r); [ | lia].
        rewrite <- (firstn_skipn batch_size ids) at 3.
        rewrite length_app. lia.
      * rewrite !effective_app, Hpre. simpl. f_equal. exact Hcmds.
      * rewrite !effective_app, Hpre. simpl.
        constructor; [auto | ].
        eapply Forall_impl; [ | exact Hreps].
        intros e (He1 & He2). split; [exact He1 | congruence].
Qed.

Lemma loops_agree_in_batches cutoff batch_size groups :
  store_splits -> 0 < batch_size ->
  Forall (fun g => is_gmail_all_mail_folder (fst g) = false
                   /\ snd g <> []) groups ->
  forall total (c : Core Srv) n1 c1 e1,
    fast_loop groups total c = (n1, c1, e1) ->
    exists e2,
      logging_loop cutoff batch_size groups total c = (Some n1, c1, e2)
      /\ in_batches batch_size (effective e1) (effective e2).
Proof.
  intros Hsplit Hbs.
  induction 1 as [ | [folder ids] groups (Hf & Hne) _ IH];
    intros total c n1 c1 e1 H; cbn [fast_loop logging_loop] in *.
  - rinv H. exists []. split; [reflexivity | apply in_batches_nil].
  - simpl in Hf, Hne.
    minv_as H ok c2 e2 e2' Hsel H.
    pose proof (Quiet_select_folder _ _ _ _ _ Hsel) as Hq2.
    unfold bind at 1. rewrite Hsel.
    destruct ok.
    + destruct (select_folder_sel _ _ _ _ Hsel) as (h & m & Hc & _).
      destruct (preview_readonly probe_ok fetch_pure (firstn 3 ids) c2 h Hc)
        as (ep & Hp & Hep).
      unfold bind at 1. rewrite Hp, Hf in *.
      assert (Hz : (batch_size =? 0) = false) by (apply Nat.eqb_neq; lia).
      rewrite Hz.
      minv_as H cnt c3 e3 e3' Hdel H.
      minv_as H u c4 e4 e4' Hexp H.
      pose proof (Quiet_expunge_if_any _ _ _ _ _ Hexp) as Hq4.
      destruct (delete_emails_bulk_alive ids c2 h Hc Hne)
        as (pre & Hpre & Hrun).
      destruct (delete_batches_alive
                  batch_size Hsplit Hbs (List.length ids) ids c2 h 0
                  Hc Hne (le_n _)) as (eb & Hb & Hcmds & Hreps).
      destruct (imap h (store_deleted ids) (server c2)) as [r s].
      rewrite Hdel in Hrun. injection Hrun as -> -> ->.
      simpl in Hb, Hreps.
      destruct (IH _ _ _ _ _ H) as (er & Hr & Her).
      unfold bind. rewrite Hb, Hexp, Hr.
      eexists. split; [reflexivity | ].
      rewrite !effective_app, Hep, Hpre. simpl.
      apply in_batches_app;
        [apply in_batches_refl, no_store_effective; exact Hq2 | ].
      change (mkEvent h (store_deleted ids) r
              :: effective e4 ++ effective e4')
        with ([mkEvent h (store_deleted ids) r]
                ++ effective e4 ++ effective e4').
      apply in_batches_app.
      * rewrite <- (app_nil_r (effective eb)).
        apply in_batches_store;
          [exact Hcmds | exact Hreps | apply in_batches_nil].
      * apply in_batches_app;
          [apply in_batches_refl, no_store_effective; exact Hq4 | exact Her].
    + destruct (IH _ _ _ _ _ H) as (er & Hr & Her).
      rewrite Hr. eexists. split; [reflexivity | ].
      rewrite !effective_app.
      apply in_batches_app;
        [apply in_batches_refl, no_store_effective; exact Hq2 | exact Her].
Qed.


End Agreement.

End Facts.
End ImapFacts.

(* ------------------------------------------------------------------ *)
(** * Concrete runs on the mock server *)
(* ------------------------------------------------------------------ *)

Module Scenarios.
Import PyStr Imap ImapFacts Mock.

Ltac run := vm_compute; reflexivity.
Ltac runs :=
  lazymatch goal with
  | |- _ /\ _ => split; [run | runs]
  | |- _ => run
  end.

Definition cutoff : string := "01-Jul-2023".

(** ** All Mail next to the folders the messages live in *)

(** The account of the repository's test scripts, with one old and one new
    message in INBOX and in the All Mail view. *)
Definition gmail_account : Core Server :=
  fresh [ ("INBOX", [old_message; new_message]);
          ("[Gmail]/All Mail", [old_message; new_message]);
          ("[Gmail]/Sent Mail", []);
          ("[Gmail]/Trash", []) ].

(** An account on which the All Mail view is not shown to mail clients. *)
Definition account_without_view : Core Server :=
  fresh [ ("INBOX", [old_message; new_message]); ("Work", [old_message]) ].

(** An account whose All Mail view goes by the unprefixed spelling. *)
Definition account_unprefixed : Core Server :=
  fresh [ ("INBOX", [new_message]); ("All Mail", [old_message; new_message]) ].

Definition result {A : Type} (run : A * Core Server * list Event) : A :=
  fst (fst run).
Definition final {A : Type} (run : A * Core Server * list Event)
  : list (string * list Message) :=
  mailboxes (server (snd (fst run))).
Definition events {A : Type} (run : A * Core Server * list Event)
  : list Event :=
  snd run.

Definition is_listing (e : Event) : bool :=
  match ev_cmd e with
  | ListFolders => true
  | _ => false
  end.



(** The logged workflow marks batch by batch, the fast one in one go:
    with a batch size of 1 and two old messages the first sends two stores
    and the second one; the messages removed are the same. *)
Definition crowded_inbox : Core Server :=
  fresh [("INBOX", [old_message; old_message; new_message])].

Lemma logging_sends_one_store_per_batch :
  map ev_cmd (stores (events (delete_old_emails_with_logging
                                cutoff ["INBOX"] 1 crowded_inbox)))
  = [ Store "1" "+FLAGS" "\Deleted"; Store "2" "+FLAGS" "\Deleted" ]
  /\ map ev_cmd (stores (events (delete_old_emails_fast
                                   cutoff ["INBOX"] crowded_inbox)))
     = [ Store "1,2" "+FLAGS" "\Deleted" ]
  /\ final (delete_old_emails_with_logging cutoff ["INBOX"] 1 crowded_inbox)
     = [("INBOX", [new_message])]
  /\ final (delete_old_emails_fast cutoff ["INBOX"] crowded_inbox)
     = [("INBOX", [new_message])].
Proof. runs. Qed.

(** A server that takes one message per store command and refuses a store
    that names several: otherwise it answers as the mock server does. *)
Definition one_at_a_time : Env Server := {|
  imap := fun _ cmd s =>
            match cmd with
            | Store message_set _ _ =>
                if has_char ","%char message_set
                then (Returned "NO" DNone, s)
                else respond cmd s
            | _ => respond cmd s
            end;
  decode_subject := fun s => Some s;
  parsedate_tz := fun _ => None;
  fromtimestamp_mktime_tz := fun _ => None;
  strptime_dmy := fun s => if String.eqb s "" then None else Some 0%Z;
  strftime_dmy := fun _ => "01-Jul-2023"
|}.

(** On such a server the batches decide the outcome: the single store of
    the fast workflow is refused and nothing is deleted, while the logged
    workflow with a batch size of 1 removes both old messages. *)
Lemma batches_decide_on_a_server_that_limits_stores :
  result (@delete_old_emails_fast Server one_at_a_time
            cutoff ["INBOX"] crowded_inbox) = 0
  /\ final (@delete_old_emails_fast Server one_at_a_time
              cutoff ["INBOX"] crowded_inbox)
     = [("INBOX", [old_message; old_message; new_message])]
  /\ result (@delete_old_emails_with_logging Server one_at_a_time
               cutoff ["INBOX"] 1 crowded_inbox) = Some 2
  /\ final (@delete_old_emails_with_logging Server one_at_a_time
              cutoff ["INBOX"] 1 crowded_inbox)
     = [("INBOX", [new_message])].
Proof. runs. Qed.

Lemma mock_probe_ok (h : nat) (s : Server) :
  exists d, imap h Noop s = (Returned "OK" d, s).
Proof. exists DNone. reflexivity. Qed.

Lemma mock_fetch_pure (h : nat) (message_set message_parts : string)
      (s : Server) :
  snd (imap h (Fetch message_set message_parts) s) = s.
Proof.
  simpl. unfold respond. destruct (selected_messages s) as [[name msgs] | ];
    [ | reflexivity].
  destruct (existsb (in_set message_set) (seq 1 (List.length msgs)));
    reflexivity.
Qed.

(** The account of the test scripts, with the program connected. *)
Definition connected_gmail_account : Core Server :=
  snd (fst (connect gmail_account)).


(** What the redirection sends on the account of the test scripts: the
    listing, a select and a search in INBOX and in Sent Mail, and then the
    select, the store and the expunge in INBOX, where the old message is.
    The logged workflow sends the same after its search of All Mail, its
    second select and the fetch of its preview. *)
Lemma redirected_run_on_the_test_account :
  map ev_cmd (sent (events (delete_old_emails_fast
                              cutoff ["[Gmail]/All Mail"]
                              connected_gmail_account)))
  = [ ListFolders;
      Select "INBOX"; Search "BEFORE 01-Jul-2023";
      Select "[Gmail]/Sent Mail"; Search "BEFORE 01-Jul-2023";
      Select "INBOX"; Store "1" "+FLAGS" "\Deleted"; Expunge ]
  /\ result (delete_old_emails_fast cutoff ["[Gmail]/All Mail"]
                                    connected_gmail_account) = 1
  /\ map ev_cmd (sent (events (delete_old_emails_with_logging
                                 cutoff ["[Gmail]/All Mail"] 500
                                 connected_gmail_account)))
     = [ Select "[Gmail]/All Mail"; Search "BEFORE 01-Jul-2023";
         Select "[Gmail]/All Mail"; Fetch "1" "(RFC822.HEADER)";
         ListFolders;
         Select "INBOX"; Search "BEFORE 01-Jul-2023";
         Select "[Gmail]/Sent Mail"; Search "BEFORE 01-Jul-2023";
         Select "INBOX"; Store "1" "+FLAGS" "\Deleted"; Expunge ]
  /\ final (delete_old_emails_with_logging cutoff ["[Gmail]/All Mail"] 500
                                           connected_gmail_account)
     = [ ("INBOX", [new_message]);
         ("[Gmail]/All Mail", [old_message; new_message]);
         ("[Gmail]/Sent Mail", []); ("[Gmail]/Trash", []) ].
Proof. runs. Qed.

(** The mock server marks a set as it marks its portions. *)
Lemma split_char_never_empty sep s : split_char sep s <> [].
Proof.
  destruct s as [ | c t]; simpl; [discriminate | ].
  destruct (Ascii.eqb c sep); [discriminate | ].
  destruct (split_char sep t); discriminate.
Qed.

Lemma split_char_glue sep x y :
  split_char sep (x ++ String sep y)
  = split_char sep x ++ split_char sep y.
Proof.
  induction x as [ | c t IH]; simpl.
  - rewrite Ascii.eqb_refl. reflexivity.
  - destruct (Ascii.eqb c sep); [simpl; f_equal; exact IH | ].
    rewrite IH. pose proof (split_char_never_empty sep t) as Hne.
    destruct (split_char sep t) as [ | p r]; [congruence | reflexivity].
Qed.

Lemma join_glue (a b : list string) :
  a <> [] -> b <> [] ->
  join "," (a ++ b) = (join "," a ++ String ","%char (join "," b))%string.
Proof.
  intros Ha Hb. induction a as [ | x a IH]; [congruence | ].
  destruct a as [ | y a].
  - destruct b as [ | z b]; [congruence | reflexivity].
  - change (join "," ((x :: y :: a) ++ b))
      with (x ++ "," ++ join "," ((y :: a) ++ b))%string.
    rewrite IH by discriminate.
    change (join "," (x :: y :: a))
      with (x ++ "," ++ join "," (y :: a))%string.
    rewrite !UnsubscribeFacts.append_assoc. reflexivity.
Qed.

Lemma in_set_glue (a b : list string) (n : nat) :
  a <> [] -> b <> [] ->
  in_set (join "," (a ++ b)) n
  = in_set (join "," a) n || in_set (join "," b) n.
Proof.
  intros Ha Hb. unfold in_set.
  rewrite (join_glue a b Ha Hb), split_char_glue. apply existsb_app.
Qed.

Lemma flag_deleted_glue (a b : list string) (msgs : list Message) :
  a <> [] -> b <> [] ->
  forall first,
    flag_deleted (join "," (a ++ b)) first msgs
    = flag_deleted (join "," b) first (flag_deleted (join "," a) first msgs).
Proof.
  intros Ha Hb. induction msgs as [ | m msgs IH]; intros first; simpl;
    [reflexivity | ].
  rewrite IH, (in_set_glue a b first Ha Hb).
  destruct (in_set (join "," a) first), (in_set (join "," b) first);
    reflexivity.
Qed.

Lemma lookup_update_same name msgs boxes :
  lookup name boxes <> None ->
  lookup name (update name msgs boxes) = Some msgs.
Proof.
  induction boxes as [ | [n old] boxes IH]; simpl; [congruence | ].
  destruct (String.eqb n name) eqn:Hn; simpl; rewrite Hn;
    [reflexivity | exact IH].
Qed.

Lemma update_twice name msgs msgs' boxes :
  update name msgs' (update name msgs boxes) = update name msgs' boxes.
Proof.
  induction boxes as [ | [n old] boxes IH]; simpl; [reflexivity | ].
  destruct (String.eqb n name) eqn:Hn; simpl; rewrite Hn;
    [reflexivity | f_equal; exact IH].
Qed.

Lemma mock_store_splits : @store_splits Server env.
Proof.
  intros h a b s Ha Hb. unfold store_deleted. cbn [imap env].
  unfold respond at 1 2. cbn [String.eqb Ascii.eqb Bool.eqb andb].
  destruct (selected_messages s) as [[name msgs] | ] eqn:Hsel.
  - unfold respond. cbn [String.eqb Ascii.eqb Bool.eqb andb].
    unfold selected_messages in *. cbn [selected mailboxes].
    destruct (selected s) as [sel | ]; [ | discriminate].
    destruct (lookup sel (mailboxes s)) as [found | ] eqn:Hl;
      [ | discriminate].
    injection Hsel as <- <-.
    rewrite lookup_update_same by congruence.
    split; [reflexivity | ]. split; [reflexivity | ].
    rewrite update_twice, (flag_deleted_glue a b found Ha Hb 1).
    reflexivity.
  - unfold respond. cbn [String.eqb Ascii.eqb Bool.eqb andb].
    rewrite Hsel. auto.
Qed.


(** ** The bulk deletion *)

(** INBOX of three new messages, selected. *)
Definition inbox_selected : Core Server :=
  snd (fst (select_folder "INBOX"
              (fresh [("INBOX", [new_message; new_message; new_message])]))).

Definition flagged (boxes : list (string * list Message)) (name : string)
  : nat :=
  match lookup name boxes with
  | Some msgs => List.length (filter m_deleted msgs)
  | None => 0
  end.

(** C6 (counterexample). Asked to mark the messages 1, 2 and 9 in a
    mailbox of three, the server marks the two that exist and answers OK;
    [delete_emails_bulk] returns 3, the number requested, not the number
    marked. *)
Lemma bulk_count_is_not_the_marked_count :
  result (delete_emails_bulk ["1"; "2"; "9"] inbox_selected) = 3
  /\ flagged (final (delete_emails_bulk ["1"; "2"; "9"] inbox_selected))
             "INBOX" = 2.
Proof. runs. Qed.

Lemma delete_emails_bulk_single_store_witness :
  List.length
    (stores (events (delete_emails_bulk ["1"; "2"; "9"] inbox_selected))) = 1
  /\ result (delete_emails_bulk ["1"; "2"; "9"] inbox_selected) = 3.
Proof.
  pose proof (delete_emails_bulk_single_store
                ["1"; "2"; "9"] inbox_selected) as H.
  unfold events, result.
  destruct (delete_emails_bulk ["1"; "2"; "9"] inbox_selected)
    as [[n c'] evs].
  destruct H as (_ & _ & _ & Hsent & _); [discriminate | ].
  destruct (Hsent 1) as (r & Hreply & Hstores & Hn);
    [vm_compute; reflexivity | ].
  assert (Hr : reply_ok r = true).
  { vm_compute in Hreply. injection Hreply as <- _. reflexivity. }
  rewrite Hr in Hn. simpl. rewrite Hstores, Hn. split; reflexivity.
Defined.

(** Without a connection nothing is sent: on an account that has no INBOX
    the connection cannot be set up, and [delete_emails_bulk] returns 0
    without a store. *)
Lemma bulk_without_a_connection_sends_nothing :
  result (delete_emails_bulk ["1"] (fresh [("Work", [old_message])])) = 0
  /\ stores (events (delete_emails_bulk
                       ["1"] (fresh [("Work", [old_message])]))) = []
  /\ final (delete_emails_bulk ["1"] (fresh [("Work", [old_message])]))
     = [("Work", [old_message])].
Proof. runs. Qed.

(** ** Alternate spellings *)

Definition has_mailbox (s : Server) (name : string) : bool :=
  match lookup name (mailboxes s) with
  | Some _ => true
  | None => false
  end.

Lemma lookup_update name name' msgs boxes :
  match lookup name (update name' msgs boxes) with
  | Some _ => true
  | None => false
  end
  = match lookup name boxes with
    | Some _ => true
    | None => false
    end.
Proof.
  induction boxes as [ | [n old] boxes IH]; simpl; [reflexivity | ].
  destruct (String.eqb_spec n name') as [-> | Hne]; simpl.
  - destruct (String.eqb name' name); reflexivity.
  - destruct (String.eqb n name); [reflexivity | exact IH].
Qed.

Lemma mock_mailboxes_stay (h : nat) (cmd : Command) (s : Server)
      (name : string) :
  has_mailbox (snd (imap h cmd s)) name = has_mailbox s name.
Proof.
  unfold has_mailbox. simpl. unfold respond.
  destruct cmd; simpl; try reflexivity.
  - destruct (lookup mailbox (mailboxes s)); reflexivity.
  - destruct (selected_messages s) as [[n msgs] | ]; reflexivity.
  - destruct (selected_messages s) as [[n msgs] | ]; [ | reflexivity].
    destruct (existsb _ _); reflexivity.
  - destruct (selected_messages s) as [[n msgs] | ]; [ | reflexivity].
    destruct (_ && _); [ | reflexivity]. simpl. apply lookup_update.
  - destruct (selected_messages s) as [[n msgs] | ]; [ | reflexivity].
    simpl. apply lookup_update.
Qed.

Lemma mock_select_finds (h : nat) (s : Server) (name : string) :
  selected_ok (fst (imap h (Select name) s)) = has_mailbox s name.
Proof.
  unfold has_mailbox. simpl.
  destruct (lookup name (mailboxes s)); reflexivity.
Qed.

(** An account that names its trash [Google Mail]/Bin. *)
Definition british_account : Core Server :=
  fresh [ ("INBOX", [new_message]); ("[Google Mail]/Bin", [old_message]) ].

Lemma select_folder_tries_alternates_witness :
  result (select_folder "[Gmail]/Trash" british_account) = true
  /\ has_mailbox (server british_account) "[Gmail]/Trash" = false.
Proof.
  pose proof (select_folder_tries_alternates
                has_mailbox mock_mailboxes_stay mock_select_finds
                "[Gmail]/Trash" british_account eq_refl) as H.
  unfold result.
  destruct (select_folder "[Gmail]/Trash" british_account) as [[ok c'] evs].
  cbv zeta in H. destruct H as (-> & _). split; reflexivity.
Defined.

(** ** The source folders *)

(** C3 (counterexample). On the folder list of the repository's test
    script the source folders are INBOX and [Gmail]/Sent Mail: the second
    is a folder under the [Gmail] prefix, which is how the code itself
    tells a system folder from a label of the user. *)
Lemma sent_mail_is_a_source_folder :
  source_folders_of
    ["INBOX"; "[Gmail]/All Mail"; "[Gmail]/Sent Mail"; "[Gmail]/Trash"]
  = ["INBOX"; "[Gmail]/Sent Mail"]
  /\ is_gmail_prefixed "[Gmail]/Sent Mail" = true
  /\ result (get_gmail_source_folders gmail_account)
     = ["INBOX"; "[Gmail]/Sent Mail"].
Proof. runs. Qed.

Lemma source_folders_characterised_witness :
  In "INBOX" (source_folders_of ["INBOX"; "[Gmail]/All Mail"; "Work"])
  /\ In "Work" (source_folders_of ["INBOX"; "[Gmail]/All Mail"; "Work"]).
Proof.
  pose proof (source_folders_characterised
                (Srv := Server) ["INBOX"; "[Gmail]/All Mail"; "Work"])
    as (H & _).
  split; apply H; try reflexivity; simpl; auto 10.
Defined.

(** ** Batches and alternates *)

(** Five identifiers in batches of two: three batches, the last of one. *)
Lemma batches_cut_the_list_witness :
  concat (batches 5 2 ["1"; "2"; "3"; "4"; "5"]) = ["1"; "2"; "3"; "4"; "5"]
  /\ List.length (batches 5 2 ["1"; "2"; "3"; "4"; "5"]) = 3.
Proof.
  pose proof (batches_cut_the_list 2 ["1"; "2"; "3"; "4"; "5"]) as H.
  cbv zeta in H. destruct H as (Hc & _ & Hl); [lia | ].
  split; [exact Hc | exact Hl].
Defined.

(** The trash of the British account is selected under its other name,
    and it is no All Mail spelling. *)
Lemma select_folder_keeps_the_kind_of_folder_witness :
  result (select_folder "[Gmail]/Trash" british_account) = true
  /\ exists h m,
      (forall past,
          selected_on h (past ++ events (select_folder "[Gmail]/Trash"
                                                       british_account))
          = Some m)
      /\ is_gmail_all_mail_folder m = false.
Proof.
  pose proof (select_folder_keeps_the_kind_of_folder
                "[Gmail]/Trash" british_account) as H.
  unfold result, events.
  destruct (select_folder "[Gmail]/Trash" british_account)
    as [[ok c'] evs] eqn:Hrun.
  assert (Hok : ok = true).
  { replace ok
      with (fst (fst (select_folder "[Gmail]/Trash" british_account)))
      by (rewrite Hrun; reflexivity).
    vm_compute. reflexivity. }
  split; [exact Hok | ].
  destruct (H Hok) as (h & m & _ & Hsel & Hkind).
  exists h, m. split; [exact Hsel | exact Hkind].
Defined.

(** The fast workflow on INBOX alone stores nothing but the deleted
    flag. *)
Lemma only_the_deleted_flag_is_stored_witness :
  sends plain_cmd (events (delete_old_emails_fast cutoff ["INBOX"]
                                                  gmail_account)).
Proof.
  apply (only_the_deleted_flag_is_stored cutoff ["INBOX"] 500 gmail_account).
  intros f [<- | []]. reflexivity.
Defined.

(** ** A request that fails in the TLS handshake *)

Import MockWeb.


End Scenarios.
